(** * fgroup: the file-tree grouping engine, embedded in Rocq

    A shallow embedding of [fgroup/util.py], [fgroup/filetree.py] and
    [fgroup/grouper.py].  Python objects live in a store (a list of nodes
    addressed by allocation index), generators are written in
    continuation-passing style so that the consumer runs between two
    yields exactly as it does in Python, and everything the interpreter
    or the operating system provides (os.path, os.listdir, glob.iglob) is
    a field of an environment record. *)

From Stdlib Require Import ZArith Lia Sorted.
From stdpp Require Import base tactics option list strings gmap.

Local Open Scope string_scope.

(** ** Python string primitives *)

Module Py.

(** [str.split(sep)] for a non-empty separator: left to right, no
    overlap.  [skip] counts the characters of a separator still to be
    consumed. *)
Fixpoint split_go (sep : string) (skip : nat) (cur : string) (s : string)
  : list string :=
  match s with
  | EmptyString => [cur]
  | String c s' =>
      match skip with
      | S k => split_go sep k cur s'
      | O =>
          if String.prefix sep s
          then cur :: split_go sep (String.length sep - 1) "" s'
          else split_go sep 0 (cur +:+ String c "") s'
      end
  end.

Definition split (sep s : string) : list string := split_go sep 0 "" s.

(** [sep.join(parts)] *)
Definition join (sep : string) (parts : list string) : string :=
  String.concat sep parts.

Definition mem_char (c : Ascii.ascii) (chars : string) : bool :=
  existsb (Ascii.eqb c) (String.list_ascii_of_string chars).

Fixpoint lstrip_list (chars : string) (l : list Ascii.ascii)
  : list Ascii.ascii :=
  match l with
  | [] => []
  | c :: l' => if mem_char c chars then lstrip_list chars l' else l
  end.

(** [s.strip(chars)] *)
Definition strip (chars s : string) : string :=
  String.string_of_list_ascii
    (rev (lstrip_list chars
            (rev (lstrip_list chars (String.list_ascii_of_string s))))).

(** [s.replace(a, b)] for one-character [a] and [b]. *)
Fixpoint replace_char (a b : Ascii.ascii) (s : string) : string :=
  match s with
  | EmptyString => EmptyString
  | String c s' =>
      String (if Ascii.eqb c a then b else c) (replace_char a b s')
  end.

(** [s[-1]], [None] standing for the IndexError on the empty string. *)
Fixpoint last_char (s : string) : option Ascii.ascii :=
  match s with
  | EmptyString => None
  | String c EmptyString => Some c
  | String _ s' => last_char s'
  end.

(** [s[:-1]] *)
Fixpoint drop_last (s : string) : string :=
  match s with
  | EmptyString => EmptyString
  | String _ EmptyString => EmptyString
  | String c s' => String c (drop_last s')
  end.

(** Truthiness of a [str]. *)
Definition truthy (s : string) : bool := negb (String.eqb s "").

(** Comparison of two lists of strings, as Python compares lists:
    element by element, a proper prefix being smaller. *)
Fixpoint list_leb (a b : list string) : bool :=
  match a, b with
  | [], _ => true
  | _ :: _, [] => false
  | x :: a', y :: b' =>
      match String.compare x y with
      | Lt => true
      | Gt => false
      | Eq => list_leb a' b'
      end
  end.

(** [sorted(l, key=key)]: the sort is stable, so the result is the one
    of any stable sort; insertion from the right keeps earlier elements
    first among equal keys. *)
Fixpoint insert_by {A} (key : A → list string) (x : A) (l : list A)
  : list A :=
  match l with
  | [] => [x]
  | y :: l' =>
      if list_leb (key x) (key y) then x :: l else y :: insert_by key x l'
  end.

Definition sorted {A} (key : A → list string) (l : list A) : list A :=
  foldr (insert_by key) [] l.

End Py.

(** ** The exceptions the engine can meet *)

Inductive exn : Type :=
| OSError | FileNotFoundError | PermissionError | NotADirectoryError
| ValueError | UnicodeEncodeError
| RuntimeError | KeyError | IndexError | AttributeError.

(** Direct base class in Python's hierarchy ([None]: derives from
    [Exception] directly). *)
Definition base_class (e : exn) : option exn :=
  match e with
  | FileNotFoundError | PermissionError | NotADirectoryError => Some OSError
  | UnicodeEncodeError => Some ValueError
  | _ => None
  end.

Definition exn_eqb (a b : exn) : bool :=
  match a, b with
  | OSError, OSError | FileNotFoundError, FileNotFoundError
  | PermissionError, PermissionError
  | NotADirectoryError, NotADirectoryError
  | ValueError, ValueError | UnicodeEncodeError, UnicodeEncodeError
  | RuntimeError, RuntimeError | KeyError, KeyError
  | IndexError, IndexError | AttributeError, AttributeError => true
  | _, _ => false
  end.

(** [issubclass(e, c)]; the hierarchy above has depth one. *)
Definition issubclass (e c : exn) : bool :=
  exn_eqb e c ||
  match base_class e with Some b => exn_eqb b c | None => false end.

(** What an [except (c1, c2, ...)] clause catches. *)
Definition caught_by (classes : list exn) (e : exn) : bool :=
  existsb (issubclass e) classes.

(** The result of running a piece of the program: a value, a raised
    exception, or [Timeout] when the step budget of the model is used up
    (where Python would still be running). *)
Inductive outcome (A : Type) : Type :=
| Ok (a : A)
| Raise (e : exn)
| Timeout.
Arguments Ok {A} a.
Arguments Raise {A} e.
Arguments Timeout {A}.

Definition bind {A B} (m : outcome A) (k : A → outcome B) : outcome B :=
  match m with
  | Ok a => k a
  | Raise e => Raise e
  | Timeout => Timeout
  end.

Notation "'do' x <- m ; k" := (bind m (fun x => k))
  (at level 10, x pattern, m at level 100, k at level 200, only parsing).

(** ** The interpreter and the operating system *)

(** Everything [util.py] and [filetree.py] import from [os], [os.path]
    and [glob].  [listdir] answers with the names or with the exception
    [os.listdir] raises; [iglob pattern root_dir] stands for
    [glob.iglob(pattern, root_dir=root_dir, recursive=True,
    include_hidden=True)] on a file system that does not change during
    the run. *)
Record os_env : Type := {
  altsep : option Ascii.ascii;
  os_name_nt : bool;
  sep : Ascii.ascii;
  getcwd : string;
  path_join : string → list string → string;
  path_normpath : string → string;
  path_abspath : string → string;
  path_relpath : string → string → string;
  path_splitdrive : string → string * string;
  path_isdir : string → bool;
  listdir : string → list string + exn;
  iglob : string → string → list string
}.

Definition DEFAULT_GROUP : string := "unknown".

Section Util.

Variable env : os_env.

Definition SEP : string := String (sep env) "".

Definition backslash : Ascii.ascii := Ascii.ascii_of_nat 92.

(** The long-path prefix, two backslashes, a question mark and a
    backslash. *)
Definition LONG_PREFIX : string :=
  String backslash (String backslash (String (Ascii.ascii_of_nat 63) (String backslash ""))).

Definition SEPS : string :=
  match altsep env with
  | None => SEP
  | Some alt => SEP +:+ String alt "" +:+ "?"
  end.

Definition DEFAULT_PATH : string :=
  match altsep env with
  | None => SEP
  | Some _ => LONG_PREFIX +:+ path_abspath env SEP
  end.

Definition split_path (path : string) : list string :=
  match altsep env with
  | None => Py.split SEP path
  | Some alt =>
      let '(drive, subpath) :=
        path_splitdrive env (Py.replace_char alt (sep env) path) in
      if Py.truthy drive
      then Py.strip SEPS drive :: Py.split SEP (Py.strip SEPS subpath)
      else Py.split SEP (Py.strip SEPS subpath)
  end.

Definition strip_path (path : string) : string :=
  match altsep env with
  | None => Py.strip SEPS path
  | Some alt => Py.strip SEPS (Py.replace_char alt (sep env) path)
  end.

(** [abs_path].  On drive systems the drive split off a path that
    starts with the long-path prefix is not empty, so that [drive[-1]]
    is defined; the model gives the branch of a drive without final
    separator to the empty drive. *)
Definition abs_path (cwd path : string) : string :=
  match altsep env with
  | None =>
      if String.eqb path "" then ""
      else
        let resolved :=
          path_join env
            (if String.eqb cwd "" then cwd else path_normpath env cwd)
            [path] in
        if String.eqb resolved "" then ""
        else SEP +:+ Py.strip SEPS (path_normpath env resolved)
  | Some _ =>
      if String.eqb path "" then ""
      else
        let resolved :=
          if String.eqb cwd ""
          then match path with
               | String c _ =>
                   if Py.mem_char c (String backslash "/")
                   then path_abspath env path else path
               | EmptyString => path
               end
          else path_normpath env (path_join env cwd [path]) in
        let '(drive, subpath) :=
          path_splitdrive env (LONG_PREFIX +:+ Py.strip SEPS resolved) in
        if Py.truthy subpath then drive +:+ subpath
        else match Py.last_char drive with
             | Some c => if Ascii.eqb c (sep env) then drive
                         else drive +:+ SEP
             | None => drive +:+ SEP
             end
  end.

(** [list_path]: the [except] clause is the same on both platforms. *)
Definition list_path_handlers : list exn :=
  [OSError; FileNotFoundError; PermissionError; ValueError].

Definition list_path (path : string) : outcome (list string) :=
  if String.eqb path "" then Ok []
  else match listdir env path with
       | inl names => Ok names
       | inr e => if caught_by list_path_handlers e then Ok [] else Raise e
       end.

(** [glob_root] is a generator over a static file system; its yields
    are collected in order.  The first component of [glob_root_start]
    is what is yielded before an early [return]. *)
Definition glob_root_start (root nglob : string)
  : list string + string * string :=
  if String.eqb root "" then
    if String.eqb nglob "" then inl [DEFAULT_PATH]
    else if os_name_nt env then
      let '(drive, subpath) :=
        path_splitdrive env (LONG_PREFIX +:+ nglob) in
      let nroot := drive +:+ SEP in
      let nglob' := strip_path subpath in
      if String.eqb nglob' "" then inl [root] else inr (nroot, nglob')
    else inr (DEFAULT_PATH, nglob)
  else inr (root, nglob).

Definition glob_root (root rglob : string) (dirs_only : bool)
  : outcome (list string) :=
  if String.eqb rglob "" then Ok []
  else
    match glob_root_start root (strip_path rglob) with
    | inl yielded => Ok yielded
    | inr (nroot, nglob) =>
        if String.eqb nglob "" then Ok []
        else
          match Py.last_char nroot with
          | None => Raise IndexError
          | Some c =>
              let nroot :=
                if Ascii.eqb c (sep env) then nroot else nroot +:+ SEP in
              let gen :=
                if dirs_only
                then map Py.drop_last (iglob env (nglob +:+ SEP) nroot)
                else iglob env nglob nroot in
              if os_name_nt env && String.eqb root ""
              then Ok (map (String.append nroot) gen)
              else Ok gen
          end
    end.

End Util.

(** ** The store of tree nodes *)

Inductive node_class : Type := FileTreeNode | DistinctFileTreeNode.

(** A reference to a node object: its allocation index in the store. *)
Abbreviation ref := nat (only parsing).

(** The fields of a node.  [children] is a Python [dict]: keys are
    unique and iteration follows insertion order, so it is a list of
    pairs. *)
Record node : Type := {
  cls : node_class;
  parent : option ref;
  name : string;
  path : string;
  group : option string;
  visited : bool;
  expanded : bool;
  collapsed : bool;
  quasi : bool;
  prune_guard : Z;
  children : list (string * ref);
  weight : Z
}.

Abbreviation heap := (list node) (only parsing).

Definition set_group (g : option string) (n : node) : node :=
  {| cls := cls n; parent := parent n; name := name n; path := path n;
     group := g; visited := visited n; expanded := expanded n;
     collapsed := collapsed n; quasi := quasi n;
     prune_guard := prune_guard n; children := children n;
     weight := weight n |}.

Definition set_visited (b : bool) (n : node) : node :=
  {| cls := cls n; parent := parent n; name := name n; path := path n;
     group := group n; visited := b; expanded := expanded n;
     collapsed := collapsed n; quasi := quasi n;
     prune_guard := prune_guard n; children := children n;
     weight := weight n |}.

Definition set_expanded (b : bool) (n : node) : node :=
  {| cls := cls n; parent := parent n; name := name n; path := path n;
     group := group n; visited := visited n; expanded := b;
     collapsed := collapsed n; quasi := quasi n;
     prune_guard := prune_guard n; children := children n;
     weight := weight n |}.

Definition set_collapsed (b : bool) (n : node) : node :=
  {| cls := cls n; parent := parent n; name := name n; path := path n;
     group := group n; visited := visited n; expanded := expanded n;
     collapsed := b; quasi := quasi n;
     prune_guard := prune_guard n; children := children n;
     weight := weight n |}.

Definition set_quasi (b : bool) (n : node) : node :=
  {| cls := cls n; parent := parent n; name := name n; path := path n;
     group := group n; visited := visited n; expanded := expanded n;
     collapsed := collapsed n; quasi := b;
     prune_guard := prune_guard n; children := children n;
     weight := weight n |}.

Definition add_prune_guard (d : Z) (n : node) : node :=
  {| cls := cls n; parent := parent n; name := name n; path := path n;
     group := group n; visited := visited n; expanded := expanded n;
     collapsed := collapsed n; quasi := quasi n;
     prune_guard := (prune_guard n + d)%Z; children := children n;
     weight := weight n |}.

Definition set_children (f : list (string * ref) → list (string * ref))
    (n : node) : node :=
  {| cls := cls n; parent := parent n; name := name n; path := path n;
     group := group n; visited := visited n; expanded := expanded n;
     collapsed := collapsed n; quasi := quasi n;
     prune_guard := prune_guard n; children := f (children n);
     weight := weight n |}.

Definition add_weight (d : Z) (n : node) : node :=
  {| cls := cls n; parent := parent n; name := name n; path := path n;
     group := group n; visited := visited n; expanded := expanded n;
     collapsed := collapsed n; quasi := quasi n;
     prune_guard := prune_guard n; children := children n;
     weight := (weight n + d)%Z |}.

(** Insertion-ordered dictionaries with string keys. *)
Module Dict.

Fixpoint get {V} (k : string) (d : list (string * V)) : option V :=
  match d with
  | [] => None
  | (k', v) :: d' => if String.eqb k k' then Some v else get k d'
  end.

Definition has {V} (k : string) (d : list (string * V)) : bool :=
  match get k d with Some _ => true | None => false end.

(** [d[k] = v]: an existing key keeps its place. *)
Fixpoint set {V} (k : string) (v : V) (d : list (string * V))
  : list (string * V) :=
  match d with
  | [] => [(k, v)]
  | (k', v') :: d' =>
      if String.eqb k k' then (k, v) :: d' else (k', v') :: set k v d'
  end.

(** [del d[k]] for a key that is present. *)
Fixpoint del {V} (k : string) (d : list (string * V))
  : list (string * V) :=
  match d with
  | [] => []
  | (k', v') :: d' =>
      if String.eqb k k' then d' else (k', v') :: del k d'
  end.

End Dict.

(** Reading a field of the object behind a reference.  References come
    from the store, so the failure branch is never taken by the engine;
    it is Python's AttributeError on a missing object. *)
Definition get (h : heap) (r : ref) : outcome node :=
  match h !! r with
  | Some n => Ok n
  | None => Raise AttributeError
  end.

(** In-place update of the object behind a reference. *)
Definition modify (f : node → node) (r : ref) (h : heap) : heap :=
  alter f r h.

(** [for x in xs: body(x)] over an immutable sequence. *)
Fixpoint for_each {X S} (xs : list X) (body : X → S → outcome S) (s : S)
  : outcome S :=
  match xs with
  | [] => Ok s
  | x :: xs' => do s' <- body x s; for_each xs' body s'
  end.

(** [for child in self.children.values(): body(child)].  The dictionary
    is live: every step of the iterator, the last one included, raises
    RuntimeError when the dictionary has changed size since the loop
    started.  The entries are taken from the dictionary as it was at the
    start of the loop. *)
Section ForValues.
Context {A : Type}.
Variable self : ref.
Variable body : ref → A * heap → outcome (A * heap).

Fixpoint for_values (size : nat) (items : list (string * ref))
    (s : A * heap) : outcome (A * heap) :=
  do n <- get s.2 self;
  if negb (length (children n) =? size)%nat then Raise RuntimeError
  else match items with
       | [] => Ok s
       | (_, c) :: rest => do s' <- body c s; for_values size rest s'
       end.

Definition for_children (s : A * heap) : outcome (A * heap) :=
  do n <- get s.2 self;
  for_values (length (children n)) (children n) s.
End ForValues.

(** ** [filetree.py]: the operations of [FileTreeNode] *)

Section Tree.

Variable env : os_env.

(** [ancestors]: the walk up the parent links.  The budget is the
    number of objects in the store, which bounds every chain that
    ends. *)
Fixpoint ancestors_go (fuel : nat) (h : heap) (cursor : option ref)
  : outcome (list ref) :=
  match cursor with
  | None => Ok []
  | Some c =>
      match fuel with
      | O => Timeout
      | S f =>
          do n <- get h c;
          do rest <- ancestors_go f h (parent n);
          Ok (c :: rest)
      end
  end.

Definition ancestors (h : heap) (self : ref) : outcome (list ref) :=
  do n <- get h self;
  ancestors_go (length h) h (parent n).

(** [FileTreeNode.__init__]; [c] is the class being instantiated. *)
Definition new_node (c : node_class) (parent_ : option ref)
    (name_ : string) (group_ : option string) (quasi_ : bool) (h : heap)
  : outcome (ref * heap) :=
  do base <- match parent_ with
             | Some p => do pn <- get h p; Ok (path pn)
             | None => Ok (getcwd env)
             end;
  let self := length h in
  let is_grouped := match group_ with Some _ => true | None => false end in
  let n := {| cls := c; parent := parent_; name := name_;
              path := abs_path env base name_;
              group := group_; visited := is_grouped;
              expanded := is_grouped; collapsed := true;
              quasi := quasi_; prune_guard := 0%Z; children := [];
              weight := 0%Z |} in
  let h1 := (h ++ [n])%list in
  let h2 := match parent_ with
            | Some p => modify (set_children (Dict.set name_ self)) p h1
            | None => h1
            end in
  do anc <- ancestors h2 self;
  Ok (self, modify (add_weight (Z.of_nat (length anc))) self h2).

(** [prune] *)
Fixpoint prune_go (fuel : nat) (h : heap) (self : ref) : outcome heap :=
  match fuel with
  | O => Timeout
  | S f =>
      do n <- get h self;
      match parent n with
      | None => Ok h
      | Some p =>
          if (0 <? prune_guard n)%Z
             || negb (length (children n) =? 0)%nat
             || visited n
          then Ok h
          else
            let h1 := modify (add_weight (weight n)) p h in
            do pn <- get h1 p;
            if Dict.has (name n) (children pn)
            then prune_go f (modify (set_children (Dict.del (name n))) p h1) p
            else Ok h1
      end
  end.

Definition prune (h : heap) (self : ref) : outcome heap :=
  prune_go (length h) h self.

(** [get_child]; both classes have the same body, each instantiating
    its own class. *)
Definition get_child (h : heap) (self : ref) (name_ : string)
    (group_ : option string) (quasi_ : option bool)
  : outcome (ref * heap) :=
  do n <- get h self;
  match Dict.get name_ (children n) with
  | Some c => Ok (c, h)
  | None =>
      new_node (cls n) (Some self) name_ group_
        (match quasi_ with None => quasi n | Some q => q end) h
  end.

(** [locate] *)
Fixpoint locate (h : heap) (cursor : ref) (parts : list string)
  : outcome (option ref * heap) :=
  match parts with
  | [] => Ok (Some cursor, h)
  | part :: rest =>
      do (c, h1) <- get_child h cursor part None None;
      do cn <- get h1 c;
      if visited cn then Ok (None, h1) else locate h1 c rest
  end.

(** [glob_nodes], a generator: [body] is what the consumer does with
    each yielded node before the generator resumes. *)
Definition glob_nodes {A} (self : ref) (rglob : string) (dirs_only : bool)
    (body : ref → A * heap → outcome (A * heap)) (s : A * heap)
  : outcome (A * heap) :=
  do n <- get s.2 self;
  do paths <- glob_root env (path n) rglob dirs_only;
  for_each paths
    (fun p s =>
       do (r, h') <- locate s.2 self (split_path env p);
       match r with
       | Some nd => body nd (s.1, h')
       | None => Ok (s.1, h')
       end) s.

(** [observe] *)
Fixpoint observe_up (fuel : nat) (h : heap) (cursor : option ref)
  : outcome heap :=
  match cursor with
  | None => Ok h
  | Some c =>
      match fuel with
      | O => Timeout
      | S f =>
          do n <- get h c;
          if negb (quasi n) then Ok h
          else observe_up f (modify (set_quasi false) c h) (parent n)
      end
  end.

Definition observe (h : heap) (self : ref) : outcome heap :=
  do n <- get h self;
  if negb (quasi n) then Ok h
  else observe_up (length h) (modify (set_quasi false) self h) (parent n).

(** [collapse]; the loop runs over [list(self.children.items())], a
    copy taken before the first iteration. *)
Fixpoint collapse (fuel : nat) (h : heap) (self : ref) : outcome heap :=
  match fuel with
  | O => Timeout
  | S f =>
      do n <- get h self;
      if collapsed n || visited n then Ok h
      else
        do h1 <-
          for_each (children n)
            (fun '(name_, child) h =>
               do cn <- get h child;
               if quasi cn then
                 do sn <- get h self;
                 if Dict.has name_ (children sn)
                 then Ok (modify (set_children (Dict.del name_)) self
                            (modify (add_weight (weight cn)) self h))
                 else Raise KeyError
               else if negb (collapsed cn) then collapse f h child
               else Ok h) h;
        Ok (modify (set_collapsed true) self
              (modify (set_expanded false) self h1))
  end.

(** [ancestor] *)
Fixpoint ancestor_loop (h : heap) (self cursor : ref) (k : nat)
  : outcome ref :=
  match k with
  | O => Ok cursor
  | S k' =>
      do cn <- get h cursor;
      let cursor' := match parent cn with Some p => p | None => cursor end in
      if (cursor' =? self)%nat then Ok self
      else ancestor_loop h self cursor' k'
  end.

Definition ancestor (h : heap) (self : ref) (n : nat) : outcome ref :=
  if (n =? 1)%nat then
    do sn <- get h self;
    Ok (match parent sn with Some p => p | None => self end)
  else ancestor_loop h self self n.

(** [expand] *)
Fixpoint expand (fuel : nat) (h : heap) (self : ref) : outcome heap :=
  match fuel with
  | O => Timeout
  | S f =>
      do n <- get h self;
      if expanded n || visited n then Ok h
      else
        let isdir := path_isdir env (path n) in
        do h1 <-
          (if isdir then
             do names <- list_path env (path n);
             for_each names
               (fun name_ h =>
                  do (c, h') <- get_child h self name_ None (Some true);
                  expand f h' c) h
           else Ok h);
        let h2 := modify (set_expanded true) self h1 in
        do n2 <- get h2 self;
        if isdir && collapsed n2 then
          let h3 := modify (set_collapsed false) self h2 in
          do anc <- ancestors h3 self;
          Ok (foldl (fun h p => modify (set_collapsed false) p h) h3 anc)
        else Ok h2
  end.

(** [descendants], a generator.  The children are iterated live, the
    consumer running between two yields. *)
Fixpoint descendants (fuel : nat) {A} (self : ref) (exclude_leaves : bool)
    (body : ref → A * heap → outcome (A * heap)) (s : A * heap)
  : outcome (A * heap) :=
  match fuel with
  | O => Timeout
  | S f =>
      do n <- get s.2 self;
      if visited n then Ok s
      else
        do s1 <-
          (if negb exclude_leaves || negb (length (children n) =? 0)%nat
           then body self s else Ok s);
        for_children self
          (fun child s =>
             do cn <- get s.2 child;
             if visited cn then Ok s
             else descendants f child exclude_leaves body s) s1
  end.

(** Index of the first occurrence, [parts.index(x)]. *)
Fixpoint index_of (x : string) (parts : list string) : nat :=
  match parts with
  | [] => 0
  | y :: parts' => if String.eqb y x then 0 else S (index_of x parts')
  end.

(** Number of leading [".."] segments. *)
Fixpoint count_up (parts : list string) : nat :=
  match parts with
  | y :: parts' => if String.eqb y ".." then S (count_up parts') else 0
  | [] => 0
  end.

(** [set(...)] keeps one of each node; the order in which Python
    iterates over the set is not specified, the model takes first
    occurrences.  The order only shows between nodes whose paths are
    equal, as the sort that follows is stable. *)
Fixpoint dedup (l : list ref) : list ref :=
  match l with
  | [] => []
  | x :: l' => x :: filter (fun y => y ≠ x) (dedup l')
  end.

Definition path_key (h : heap) (r : ref) : list string :=
  match h !! r with
  | Some n => split_path env (path n)
  | None => []
  end.

(** The body of the loop of [glob_children] over the alternatives.
    [rec] is [glob_children] itself and [fuel] the budget of the calls
    made from here. *)
Section GlobAlternatives.
Variable rec : ∀ A : Type, ref → string → bool →
                 (ref → A * heap → outcome (A * heap)) →
                 A * heap → outcome (A * heap).
Variable fuel : nat.
Context {A : Type}.
Variable self : ref.
Variable dirs_only : bool.
Variable body : ref → A * heap → outcome (A * heap).

(** The branch taken when [".." in parts]. *)
Definition parent_branch (parts : list string) (s : A * heap)
  : outcome (A * heap) :=
  let pi := index_of ".." parts in
  do (sub_nodes, h1) <-
    (if (pi =? 0)%nat then Ok ([self], s.2)
     else rec (list ref) self (Py.join (SEP env) (take pi parts)) false
            (fun nd acc => Ok ((acc.1 ++ [nd])%list, acc.2)) ([], s.2));
  let n := S (count_up (drop (S pi) parts)) in
  let pi := (pi + n)%nat in
  do anc <- for_each sub_nodes
              (fun nd acc => do a <- ancestor h1 nd n;
                             Ok (acc ++ [a])%list) [];
  let parents := Py.sorted (path_key h1) (dedup anc) in
  let h2 := foldl (fun h p => modify (add_prune_guard 1) p h) h1 parents in
  do h3 <- for_each sub_nodes (fun nd h => prune h nd) h2;
  let h4 :=
    foldl (fun h p => modify (add_prune_guard (-1)) p h) h3 parents in
  let leftover := Py.join (SEP env) (drop pi parts) in
  if Py.truthy leftover
  then for_each parents
         (fun pnode s => rec A pnode leftover dirs_only body s) (s.1, h4)
  else for_each parents body (s.1, h4).

(** The branch taken when ["**" in parts]. *)
Definition recursive_branch (parts : list string) (s : A * heap)
  : outcome (A * heap) :=
  let pi := index_of "**" parts in
  let leftover := Py.join (SEP env) (drop (S pi) parts) in
  let each (nd : ref) (s : A * heap) : outcome (A * heap) :=
    do h' <- expand fuel s.2 nd;
    if Py.truthy leftover
    then descendants fuel nd false
           (fun d s => rec A d leftover dirs_only body s) (s.1, h')
    else descendants fuel nd dirs_only body (s.1, h') in
  if (pi =? 0)%nat then each self s
  else glob_nodes self (Py.join (SEP env) (take pi parts)) false each s.

Definition glob_parts (glob_part : string) : list string :=
  filter (fun i => i ≠ ".") (split_path env glob_part).

Definition has_part (x : string) (parts : list string) : bool :=
  existsb (String.eqb x) parts.

Fixpoint glob_alternatives (alternatives : list string) (s : A * heap)
  : outcome (A * heap) :=
  match alternatives with
  | [] => Ok s
  | glob_part :: rest =>
      let parts := glob_parts glob_part in
      match parts with
      | [] => body self s
      | _ :: _ =>
          if has_part ".." parts then parent_branch parts s
          else if has_part "**" parts then recursive_branch parts s
          else
            do s' <- glob_nodes self glob_part dirs_only body s;
            glob_alternatives rest s'
      end
  end.
End GlobAlternatives.

(** [glob_children], a generator. *)
Fixpoint glob_children (fuel : nat) (A : Type) (self : ref)
    (rglob : string) (dirs_only : bool)
    (body : ref → A * heap → outcome (A * heap)) (s : A * heap)
  : outcome (A * heap) :=
  match fuel with
  | O => Timeout
  | S f =>
      do _ <- get s.2 self;
      glob_alternatives (glob_children f) f self dirs_only body
        (Py.split ", " rglob) (s.1, modify (add_weight 1) self s.2)
  end.

End Tree.

(** ** [grouper.py] *)

(** The pattern map, [StrTree = dict[str, str | StrTree]]: the entries in
    insertion order, each value a group name or a nested map. *)
Inductive StrTree : Type :=
| Empty
| Entry (glob_key : string) (data : StrValue) (rest : StrTree)
with StrValue : Type :=
| GroupName (g : string)
| Nested (t : StrTree).

(** The fields of a [FileGrouper].  [overrides] is a reference to a
    dictionary object in the store of dictionaries. *)
Record grouper : Type := {
  tree : ref;
  absolute : bool;
  groups : list (string * list string);
  weights : list (string * Z);
  overrides : nat
}.

Definition set_groups (g : list (string * list string)) (gr : grouper)
  : grouper :=
  {| tree := tree gr; absolute := absolute gr; groups := g;
     weights := weights gr; overrides := overrides gr |}.

Definition set_weights (w : list (string * Z)) (gr : grouper) : grouper :=
  {| tree := tree gr; absolute := absolute gr; groups := groups gr;
     weights := w; overrides := overrides gr |}.

(** [a or b] on an optional string and a string. *)
Definition or_else (a : option string) (b : string) : string :=
  match a with
  | Some x => if Py.truthy x then x else b
  | None => b
  end.

(** The store of dictionary objects. *)
Abbreviation dict_store := (list (gmap string string)) (only parsing).

Section Grouper.

Variable env : os_env.

(** [add_to_group] *)
Definition add_to_group (group_ : string) (path_ : string)
    (s : grouper * heap) : outcome (grouper * heap) :=
  do root <- get s.2 (tree s.1);
  let path_ :=
    if Py.truthy (path root) && negb (absolute s.1)
    then path_relpath env path_ (path root) else path_ in
  let gs := groups s.1 in
  match Dict.get group_ gs with
  | Some paths =>
      Ok (set_groups (Dict.set group_ (paths ++ [path_])%list gs) s.1, s.2)
  | None => Ok (set_groups (Dict.set group_ [path_] gs) s.1, s.2)
  end.

(** [visit], dispatched on the class of the node: the body of
    [DistinctFileTreeNode.visit] or of [FileTreeNode.visit]. *)
Fixpoint visit (fuel : nat) (self : ref) (group_ : option string)
    (s : grouper * heap) : outcome (grouper * heap) :=
  match fuel with
  | O => Timeout
  | S f =>
      do n <- get s.2 self;
      match cls n with
      | DistinctFileTreeNode =>
          do h1 <- observe s.2 self;
          do h2 <- collapse f h1 self;
          do n2 <- get h2 self;
          match group n2 with
          | Some _ => Ok (s.1, h2)
          | None =>
              let g := or_else group_ DEFAULT_GROUP in
              add_to_group g (path n2)
                (s.1, modify (set_group (Some g)) self h2)
          end
      | FileTreeNode =>
          if visited n then Ok s
          else
            do h1 <- observe s.2 self;
            do h2 <- collapse f h1 self;
            do n2 <- get h2 self;
            let g := or_else group_ (or_else (group n2) DEFAULT_GROUP) in
            if (length (children n2) <=? 0)%nat then
              Ok (s.1, modify (set_group (Some g)) self
                         (modify (set_visited true) self h2))
            else
              do items <- list_path env (path n2);
              do s3 <-
                match items with
                | _ :: _ =>
                    for_each items
                      (fun name_ s =>
                         do (c, h') <- get_child env s.2 self name_
                                         (Some g) None;
                         visit f c (Some g) (s.1, h')) (s.1, h2)
                | [] =>
                    for_children self (fun child s => visit f child (Some g) s)
                      (s.1, h2)
                end;
              do _ <- get s3.2 self;
              Ok (s3.1,
                  modify (set_group None) self
                    (modify (set_collapsed true) self
                       (modify (set_expanded true) self
                          (modify (set_visited true) self s3.2))))
      end
  end.

(** [overrides.get(data, data)] *)
Definition override (ov : gmap string string) (data : string) : string :=
  match ov !! data with
  | Some g => g
  | None => data
  end.

(** [load].  [ov] is the content of [self.overrides], which nothing
    writes while the pattern map is being loaded. *)
Fixpoint load (fuel : nat) (ov : gmap string string) (parent_ : ref)
    (config : StrTree) (s : grouper * heap) {struct config}
  : outcome (grouper * heap) :=
  match config with
  | Empty => Ok s
  | Entry glob_key data rest =>
      do s1 <- load_entry fuel ov parent_ glob_key data s;
      load fuel ov parent_ rest s1
  end
with load_entry (fuel : nat) (ov : gmap string string) (parent_ : ref)
    (glob_key : string) (data : StrValue) (s : grouper * heap)
    {struct data} : outcome (grouper * heap) :=
  match data with
  | GroupName g =>
      glob_children env fuel grouper parent_ glob_key false
        (fun child s => visit fuel child (Some (override ov g)) s) s
  | Nested sub =>
      glob_children env fuel grouper parent_ glob_key true
        (fun child s =>
           do s' <- load fuel ov child sub s;
           visit fuel child (Some DEFAULT_GROUP) s') s
  end.

(** [walk] *)
Fixpoint walk (fuel : nat) (nd : ref) (s : grouper * heap)
  : outcome (grouper * heap) :=
  match fuel with
  | O => Timeout
  | S f =>
      do n <- get s.2 nd;
      do root <- get s.2 (tree s.1);
      let path_ :=
        if Py.truthy (path root) && negb (absolute s.1)
        then path_relpath env (path n) (path root) else path n in
      let s1 := (set_weights (Dict.set path_ (weight n) (weights s.1)) s.1,
                 s.2) in
      match group n with
      | None => for_children nd (fun child s => walk f child s) s1
      | Some g => add_to_group g (path n) s1
      end
  end.

(** The two default values of the [overrides] parameters are created
    once, when [grouper.py] is imported: one for [FileGrouper.__init__]
    and one for [group]. *)

Definition FileGrouper_default_overrides : nat := 0.
Definition group_default_overrides : nat := 1.

Definition module_dicts : dict_store := [∅; ∅].

(** [FileGrouper.__init__].  [overrides_] is [None] when the caller
    omits the argument.  The result is the new grouper with the store
    of nodes it owns, and the store of dictionaries. *)
Definition FileGrouper (fuel : nat) (root : string) (config : StrTree)
    (absolute_ distinct : bool) (overrides_ : option nat)
    (dicts : dict_store) : outcome (grouper * heap * dict_store) :=
  do (t, h) <- new_node env
                 (if distinct then DistinctFileTreeNode else FileTreeNode)
                 None root None false [];
  let ov_ref := match overrides_ with
                | Some r => r
                | None => FileGrouper_default_overrides
                end in
  let self := {| tree := t; absolute := absolute_; groups := [];
                 weights := []; overrides := ov_ref |} in
  match dicts !! ov_ref with
  | None => Raise AttributeError
  | Some ov =>
      let ov := <[DEFAULT_GROUP := DEFAULT_GROUP]> ov in
      let dicts := <[ov_ref := ov]> dicts in
      do s1 <- load fuel ov t config (self, h);
      do s2 <- (if negb distinct
                then do s' <- visit fuel t None s1; walk fuel t s'
                else Ok s1);
      let sorted_groups :=
        map (fun kv => (kv.1, Py.sorted (split_path env) kv.2))
          (groups s2.1) in
      Ok (set_groups sorted_groups s2.1, s2.2, dicts)
  end.

(** [group], the shorthand with a default dictionary of its own. *)
Definition group_ (fuel : nat) (root : string) (files : StrTree)
    (absolute_ distinct : bool) (overrides_ : option nat)
    (dicts : dict_store) : outcome (grouper * heap * dict_store) :=
  FileGrouper fuel root files absolute_ distinct
    (Some (match overrides_ with
           | Some r => r
           | None => group_default_overrides
           end)) dicts.

End Grouper.

(** ** A POSIX environment over a file system given as a tree

    The environment used by the examples: [posixpath] for the path
    functions, and a file system that is a finite tree of directories and
    files.  [iglob] covers the patterns whose segments are made of
    literal characters, [*] and [?]. *)

Module Posix.

#[warnings="-register-all"]
Inductive fs : Type :=
| File
| Dir (entries : list (string * fs)).

Definition slash : Ascii.ascii := Ascii.ascii_of_nat 47.

Definition starts_with_slash (p : string) : bool :=
  match p with
  | String c _ => Ascii.eqb c slash
  | EmptyString => false
  end.

Definition ends_with_slash (p : string) : bool :=
  match Py.last_char p with
  | Some c => Ascii.eqb c slash
  | None => false
  end.

(** [posixpath.join] *)
Definition posix_join (a : string) (ps : list string) : string :=
  foldl (fun acc b =>
           if starts_with_slash b then b
           else if negb (Py.truthy acc) || ends_with_slash acc
                then acc +:+ b
                else acc +:+ "/" +:+ b) a ps.

(** [posixpath.normpath] *)
Definition norm_step (initial : bool) (new_comps : list string)
    (comp : string) : list string :=
  if String.eqb comp "" || String.eqb comp "." then new_comps
  else if negb (String.eqb comp "..")
          || (negb initial && (length new_comps =? 0)%nat)
          || match last new_comps with
             | Some c => String.eqb c ".."
             | None => false
             end
       then (new_comps ++ [comp])%list
       else removelast new_comps.

Definition posix_normpath (p : string) : string :=
  if String.eqb p "" then "."
  else
    let initial := starts_with_slash p in
    let two := String.prefix "//" p && negb (String.prefix "///" p) in
    let comps := foldl (norm_step initial) [] (Py.split "/" p) in
    let body := Py.join "/" comps in
    let r := if initial then (if two then "//" else "/") +:+ body
             else body in
    if String.eqb r "" then "." else r.

Definition posix_abspath (cwd p : string) : string := posix_normpath (posix_join cwd [p]).

Fixpoint common_prefix_length (a b : list string) : nat :=
  match a, b with
  | x :: a', y :: b' =>
      if String.eqb x y then S (common_prefix_length a' b') else 0
  | _, _ => 0
  end.

(** [posixpath.relpath] *)
Definition posix_relpath (cwd p start : string) : string :=
  let segs q := filter (fun x => x ≠ "") (Py.split "/" (posix_abspath cwd q)) in
  let start_list := segs start in
  let path_list := segs p in
  let i := common_prefix_length start_list path_list in
  let rel_list :=
    (replicate (length start_list - i) ".." ++ drop i path_list)%list in
  match rel_list with
  | [] => "."
  | x :: xs => posix_join x xs
  end.

Fixpoint lookup_entry (k : string) (es : list (string * fs)) : option fs :=
  match es with
  | [] => None
  | (k', v) :: es' => if String.eqb k k' then Some v else lookup_entry k es'
  end.

(** The entry a list of segments leads to. *)
Fixpoint resolve (t : fs) (segs : list string) : option fs :=
  match segs with
  | [] => Some t
  | seg :: segs' =>
      match t with
      | File => None
      | Dir es =>
          match lookup_entry seg es with
          | Some t' => resolve t' segs'
          | None => None
          end
      end
  end.

Definition segments (cwd p : string) : list string :=
  filter (fun x => x ≠ "") (Py.split "/" (posix_abspath cwd p)).

Definition fs_isdir (root : fs) (cwd p : string) : bool :=
  match resolve root (segments cwd p) with
  | Some (Dir _) => true
  | _ => false
  end.

Definition fs_listdir (root : fs) (cwd p : string) : list string + exn :=
  match resolve root (segments cwd p) with
  | Some (Dir es) => inl (map fst es)
  | Some File => inr NotADirectoryError
  | None => inr FileNotFoundError
  end.

(** [fnmatch] on one segment, for [*] and [?]. *)
Fixpoint fnmatch (pat : list Ascii.ascii) : list Ascii.ascii → bool :=
  match pat with
  | [] => fun s => match s with [] => true | _ => false end
  | p :: pat' =>
      if Ascii.eqb p (Ascii.ascii_of_nat 42) then
        fix star (s : list Ascii.ascii) : bool :=
          fnmatch pat' s ||
          match s with [] => false | _ :: s' => star s' end
      else if Ascii.eqb p (Ascii.ascii_of_nat 63) then
        fun s => match s with [] => false | _ :: s' => fnmatch pat' s' end
      else
        fun s => match s with
                 | [] => false
                 | c :: s' => Ascii.eqb c p && fnmatch pat' s'
                 end
  end.

Definition seg_match (pat nm : string) : bool :=
  fnmatch (String.list_ascii_of_string pat) (String.list_ascii_of_string nm).

(** The paths below [t] that match the segments, relative to [t]. *)
Fixpoint glob_segs (fuel : nat) (t : fs) (pats : list string)
  : list (string * fs) :=
  match fuel with
  | O => []
  | S f =>
      match pats with
      | [] => []
      | pat :: pats' =>
          match t with
          | File => []
          | Dir es =>
              flat_map
                (fun e =>
                   if seg_match pat e.1 then
                     match pats' with
                     | [] => [e]
                     | _ :: _ =>
                         map (fun r => (e.1 +:+ "/" +:+ r.1, r.2))
                           (glob_segs f e.2 pats')
                     end
                   else []) es
          end
      end
  end.

Definition fs_iglob (root : fs) (cwd pattern root_dir : string)
  : list string :=
  match resolve root (segments cwd root_dir) with
  | None => []
  | Some t =>
      let dirs := ends_with_slash pattern in
      let pats := filter (fun x => x ≠ "") (Py.split "/" pattern) in
      let found := glob_segs (S (length pats)) t pats in
      if dirs
      then flat_map (fun r => match r.2 with
                              | Dir _ => [r.1 +:+ "/"]
                              | File => []
                              end) found
      else map fst found
  end.

Definition env (root : fs) (cwd : string) : os_env :=
  {| altsep := None;
     os_name_nt := false;
     sep := slash;
     getcwd := cwd;
     path_join := posix_join;
     path_normpath := posix_normpath;
     path_abspath := posix_abspath cwd;
     path_relpath := posix_relpath cwd;
     path_splitdrive := fun p => ("", p);
     path_isdir := fs_isdir root cwd;
     listdir := fs_listdir root cwd;
     iglob := fs_iglob root cwd |}.

End Posix.

(** ** Observations used by the statements *)

(** [list(self.glob_children(rglob, dirs_only))] *)
Definition glob_children_list (env : os_env) (fuel : nat) (h : heap)
    (self : ref) (rglob : string) (dirs_only : bool)
  : outcome (list ref * heap) :=
  glob_children env fuel (list ref) self rglob dirs_only
    (fun nd acc => Ok ((acc.1 ++ [nd])%list, acc.2)) ([], h).

(** The paths of the nodes a generator yielded. *)
Definition yielded_paths (o : outcome (list ref * heap))
  : outcome (list string) :=
  do (l, h) <- o;
  Ok (map (fun r => match h !! r with Some n => path n | None => "" end) l).

(** The store after a run that returns a store. *)
Definition store_of {X} (o : outcome (X * heap)) : heap :=
  match o with
  | Ok (_, h) => h
  | _ => []
  end.

Definition weight_of (h : heap) (r : ref) : Z :=
  match h !! r with
  | Some n => weight n
  | None => 0
  end.

(** The sum of the weights of the nodes reachable from [r] through the
    [children] dictionaries. *)
Fixpoint tree_weight (fuel : nat) (h : heap) (r : ref) : Z :=
  match fuel with
  | O => 0
  | S f =>
      match h !! r with
      | Some n =>
          (weight n
           + foldr (fun kc acc => tree_weight f h kc.2 + acc) 0 (children n))%Z
      | None => 0
      end
  end.

(** A node is a child of another when the latter's dictionary holds it;
    a descendant is a child of a child, and so on. *)
Definition child_of (h : heap) (p c : ref) : Prop :=
  ∃ n k, h !! p = Some n ∧ (k, c) ∈ children n.

Inductive descendant_of (h : heap) (p : ref) : ref → Prop :=
| descendant_child c : child_of h p c → descendant_of h p c
| descendant_step c d :
    descendant_of h p c → child_of h c d → descendant_of h p d.

Definition is_quasi (h : heap) (r : ref) : Prop :=
  ∃ n, h !! r = Some n ∧ quasi n = true.

(** The weights a run of the grouper returns. *)
Definition weights_of (o : outcome (grouper * heap * dict_store))
  : option (list (string * Z)) :=
  match o with
  | Ok (g, _, _) => Some (weights g)
  | _ => None
  end.

(** ** File systems of the examples *)

Module Examples.
Import Posix.

Definition files (names : list string) : list (string * fs) :=
  map (fun n => (n, File)) names.

(** [/w] holds the files [a] and [b]. *)
Definition fs_flat : fs := Dir [("w", Dir (files ["a"; "b"]))].

(** [/w] holds the directory [a], which holds the file [f]. *)
Definition fs_nested : fs := Dir [("w", Dir [("a", Dir (files ["f"]))])].

(** [/w] is an empty directory. *)
Definition fs_empty : fs := Dir [("w", Dir [])].

Definition env_flat : os_env := Posix.env fs_flat "/w".
Definition env_nested : os_env := Posix.env fs_nested "/w".
Definition env_empty : os_env := Posix.env fs_empty "/w".

(** The store after [FileTreeNode(None, ".")]. *)
Definition root_only (e : os_env) (c : node_class) : heap :=
  store_of (new_node e c None "." None false []).

(** The nodes [glob_children(pattern)] yields from the root over [/w]
    holding the files [a] and [b]. *)
Definition yields_flat (pattern : string) : outcome (list string) :=
  yielded_paths
    (glob_children_list env_flat 10 (root_only env_flat FileTreeNode) 0
       pattern false).

(** The run of the grouper over [/w] holding [a] and [b], with the
    pattern map [{"a": "first"}]. *)
Definition run_first : outcome (grouper * heap * list (gmap string string)) :=
  FileGrouper env_flat 10 "." (Entry "a" (GroupName "first") Empty)
    false false None module_dicts.

(** Over [/w/a/f]: the store after [list(root.glob_children("**/none"))],
    which expands the tree and matches nothing; node 0 is the root, node
    1 is [a] and node 2 is [f]. *)
Definition expanded_store : heap :=
  store_of
    (glob_children_list env_nested 10 (root_only env_nested FileTreeNode) 0
       "**/none" false).

Definition collapsed_store : heap :=
  match collapse 5 expanded_store 0 with
  | Ok h => h
  | _ => []
  end.

(** The same store with [a] guarded, as the parent branch does before
    it prunes, then after [f.prune()], then after a second
    [f.prune()]. *)
Definition guarded_store : heap :=
  modify (add_prune_guard 1) 1 expanded_store.

Definition pruned_once : heap :=
  match prune guarded_store 2 with
  | Ok h => h
  | _ => []
  end.

Definition pruned_twice : heap :=
  match prune pruned_once 2 with
  | Ok h => h
  | _ => []
  end.

(** The store after [list(root.glob_children("**/**/.."))]. *)
Definition twice_recursive_store : heap :=
  store_of
    (glob_children_list env_nested 10 (root_only env_nested FileTreeNode) 0
       "**/**/.." false).

(** Over the empty directory [/w]: the store after [root.expand()]. *)
Definition expanded_empty : heap :=
  match expand env_empty 5 (root_only env_empty FileTreeNode) 0 with
  | Ok h => h
  | _ => []
  end.

(** Over [/w/a/f]: the store after [list(root.glob_children("a"))];
    node 1 is [a], located and not yet expanded. *)
Definition located_store : heap :=
  store_of
    (glob_children_list env_nested 10 (root_only env_nested FileTreeNode) 0
       "a" false).

(** [/w/a/b/f] holds the file [x]. *)
Definition fs_deep : fs :=
  Dir [("w", Dir [("a", Dir [("b", Dir [("f", Dir (files ["x"]))])])])].

Definition env_deep : os_env := Posix.env fs_deep "/w".

(** The store after [list(root.glob_children("**/x/../../none"))], which
    expands the tree and prunes [x] and [f] below [b], followed by
    [list(root.glob_children("a/b/f/x"))], which locates [f] (node 5)
    and [x] (node 6) again below the quasi node [b]. *)
Definition relocated_store : heap :=
  store_of
    (glob_children_list env_deep 12
       (store_of
          (glob_children_list env_deep 12 (root_only env_deep FileTreeNode) 0
             "**/x/../../none" false))
       0 "a/b/f/x" false).

End Examples.

(** ** Statements of the specification *)

(** The statement of the specification for the empty pattern: nothing,
    or the sentinel root path once when the root is empty. *)
Definition empty_pattern_claim (env : os_env) (root : string)
    (dirs_only : bool) : Prop :=
  glob_root env root "" dirs_only =
    Ok (if String.eqb root "" then [DEFAULT_PATH env] else []).

(** What [os.listdir] raises on a [str] argument: an [OSError] (missing,
    unreadable, permission denied, not a directory, ...) or a
    [ValueError] (a path the system cannot take). *)
Definition listdir_error (e : exn) : Prop :=
  issubclass e OSError = true ∨ issubclass e ValueError = true.

(** The group names a call [visit(group)] can assign: [group or
    DEFAULT_GROUP] on a distinct node, [group or self.group or
    DEFAULT_GROUP] otherwise. *)
Definition assignable (group_ : option string) (name_ : string) : Prop :=
  ∃ y, name_ = or_else group_ (or_else y DEFAULT_GROUP).

(** A pattern map without nested maps. *)
Fixpoint flat (config : StrTree) : Prop :=
  match config with
  | Empty => True
  | Entry _ (GroupName _) rest => flat rest
  | Entry _ (Nested _) _ => False
  end.

(** The group names written in a flat pattern map. *)
Fixpoint group_names (config : StrTree) : list string :=
  match config with
  | Empty => []
  | Entry _ (GroupName g) rest => g :: group_names rest
  | Entry _ (Nested _) rest => group_names rest
  end.

(** The statement of the specification for distinct mode: the groups
    returned hold no entry for the default group. *)
Definition distinct_no_default_claim (env : os_env) (fuel : nat)
    (root : string) (config : StrTree) (absolute_ : bool)
    (arg : option nat) (dicts : dict_store) : Prop :=
  ∀ g h d,
    FileGrouper env fuel root config absolute_ true arg dicts = Ok (g, h, d) →
    Dict.get DEFAULT_GROUP (groups g) = None.

(** [keeps F h h']: every node of the store [h] is still in [h'], and
    [F] relates what it was to what it has become. *)
Definition keeps (F : node → node → Prop) (h h' : heap) : Prop :=
  ∀ r n, h !! r = Some n → ∃ n', h' !! r = Some n' ∧ F n n'.

(** The class of an object never changes. *)
Definition same_class (n n' : node) : Prop := cls n' = cls n.

(** What [collapse] leaves alone in every node. *)
Definition same_marks (n n' : node) : Prop :=
  cls n' = cls n ∧ quasi n' = quasi n ∧ group n' = group n ∧
  visited n' = visited n.

(** Once observed, a node stays observed. *)
Definition stays_observed (n n' : node) : Prop :=
  quasi n = false → quasi n' = false.

(** The statement of the specification on [collapsed], for a store. *)
Definition collapsed_iff_no_quasi_claim (h : heap) : Prop :=
  ∀ r n, h !! r = Some n →
    (collapsed n = true ↔ ∀ d, descendant_of h r d → ¬ is_quasi h d).

(** [ancestor_of h r a]: [a] is met on the walk up the parent links
    from [r]. *)
Inductive ancestor_of (h : heap) : ref → ref → Prop :=
| ancestor_parent r n p :
    h !! r = Some n → parent n = Some p → ancestor_of h r p
| ancestor_up r n p a :
    h !! r = Some n → parent n = Some p → ancestor_of h p a →
    ancestor_of h r a.

(** What [collapse] does to a node: the marks stay and the dictionary of
    children loses entries. *)
Definition shrinks (n n' : node) : Prop :=
  same_marks n n' ∧ sublist (children n') (children n).

(** What [expand] does to a node: the parent stays, and a node that is
    not collapsed stays so. *)
Definition uncollapses (n n' : node) : Prop :=
  parent n' = parent n ∧ (collapsed n = false → collapsed n' = false).

(** What a step that touches no [collapsed] flag does to a node. *)
Definition same_collapsed (n n' : node) : Prop :=
  parent n' = parent n ∧ collapsed n' = collapsed n.

(** Between two stores: whenever a node went from collapsed to not
    collapsed, all its ancestors are not collapsed in the second. *)
Definition uncollapse_closed (h h' : heap) : Prop :=
  ∀ r n n', h !! r = Some n → h' !! r = Some n' →
    collapsed n = true → collapsed n' = false →
    ∀ a, ancestor_of h r a → ∃ an, h' !! a = Some an ∧ collapsed an = false.

(** What the walk up from [cursor] meets. *)
Definition chain_from (h : heap) (cursor : option ref) (a : ref) : Prop :=
  match cursor with
  | Some c => a = c ∨ ancestor_of h c a
  | None => False
  end.

(** [grows h h']: what a call to [expand] does to the store. *)
Definition grows (h h' : heap) : Prop :=
  keeps uncollapses h h' ∧ uncollapse_closed h h'.

(** Objects are created after their parent: in a store built by the
    constructor every parent link points to an earlier object. *)
Definition parents_first (h : heap) : Prop :=
  ∀ i n q, h !! i = Some n → parent n = Some q → q < i.

(** ** Invariants of the store of nodes *)

(** What never changes in a node object, and what changes one way
    only. *)
Definition lifetime (n n' : node) : Prop :=
  cls n' = cls n ∧ parent n' = parent n ∧ name n' = name n ∧
  path n' = path n ∧
  (visited n = true → visited n' = true) ∧
  (quasi n = false → quasi n' = false).

(** The guard against pruning is where it was. *)
Definition same_guard (n n' : node) : Prop :=
  prune_guard n' = prune_guard n.

(** The shape of a tree of nodes of class [c]: one class, no guard, no
    visited node in a distinct tree; a parent is an earlier object and
    the path of a node is its parent's path joined with its name; the
    node a dictionary of children holds under a name bears that name and
    has the owner of the dictionary as its parent. *)
Definition well_formed (env : os_env) (c : node_class) (h : heap) : Prop :=
  ∀ r n, h !! r = Some n →
    cls n = c ∧ prune_guard n = 0%Z ∧
    (c = DistinctFileTreeNode → visited n = false) ∧
    (∀ p, parent n = Some p →
       p < r ∧
       ∃ pn, h !! p = Some pn ∧ path n = abs_path env (path pn) (name n)) ∧
    (∀ k ch, (k, ch) ∈ children n →
       ∃ cn, h !! ch = Some cn ∧ parent cn = Some r ∧ name cn = k).

(** A step that leaves the shape alone: the identity of the node stays,
    a distinct node is not marked visited, and no child is added. *)
Definition calm (c : node_class) (n n' : node) : Prop :=
  cls n' = cls n ∧ parent n' = parent n ∧ name n' = name n ∧
  path n' = path n ∧
  (c = DistinctFileTreeNode → visited n' = visited n) ∧
  (∀ x, x ∈ children n' → x ∈ children n).

(** ** Observations on the generators and on the output *)

(** Following the dictionaries of children down from a node, one name
    after the other, without creating anything. *)
Fixpoint follow (h : heap) (cursor : ref) (parts : list string)
  : option ref :=
  match parts with
  | [] => Some cursor
  | part :: rest =>
      match h !! cursor with
      | Some n =>
          match Dict.get part (children n) with
          | Some c => follow h c rest
          | None => None
          end
      | None => None
      end
  end.

(** What [get_child] leaves of a node: the mark [visited], and every
    child its dictionary holds. *)
Definition holds_children (n n' : node) : Prop :=
  visited n' = visited n ∧
  ∀ k v, Dict.get k (children n) = Some v →
         Dict.get k (children n') = Some v.


(** The order of two paths in the output: their lists of segments
    compare as Python compares lists. *)
Definition path_le (env : os_env) (a b : string) : Prop :=
  Py.list_leb (split_path env a) (split_path env b) = true.

(** ** [util.py]: [critical_err] *)

(** The result of a piece of code that may call [critical_err]: a
    value, the message handed to [critical_err], or another exception. *)
Inductive checked (A : Type) : Type :=
| Accepted (a : A)
| Critical (msg : string)
| Raised (e : exn).
Arguments Accepted {A} a.
Arguments Critical {A} msg.
Arguments Raised {A} e.

(** A string between double quotes, as in [f"\"{s}\""]. *)
Definition quoted (s : string) : string :=
  String (Ascii.ascii_of_nat 34) (s +:+ String (Ascii.ascii_of_nat 34) "").

(** ** [file.py] *)

(** What [yaml.safe_load] returns, as far as [file.py] tells values
    apart: [None], a [bool], a [str], a [dict] with its items in order, or
    a value of another type, known by the name of its type. *)
Inductive yaml : Type :=
| YNone
| YBool (b : bool)
| YStr (s : string)
| YDict (items : yaml_items)
| YOther (type_name : string)
with yaml_items : Type :=
| YEmpty
| YItem (k v : yaml) (rest : yaml_items).

(** [type(v).__name__] *)
Definition type_name (v : yaml) : string :=
  match v with
  | YNone => "NoneType"
  | YBool _ => "bool"
  | YStr _ => "str"
  | YDict _ => "dict"
  | YOther n => n
  end.

(** [check_file_tree] *)
Fixpoint check_file_tree (tree : yaml_items) (path : string)
  : checked unit :=
  match tree with
  | YEmpty => Accepted tt
  | YItem k v rest =>
      match k with
      | YStr ks =>
          if String.eqb ks "" || negb (forallb Py.truthy (Py.split ", " ks))
          then Critical ("invalid config: found empty glob at "
                         +:+ path +:+ " -> " +:+ ks)
          else
            match v with
            | YStr _ => check_file_tree rest path
            | YDict sub =>
                match check_file_tree sub (path +:+ " -> " +:+ ks) with
                | Accepted _ => check_file_tree rest path
                | failure => failure
                end
            | _ => Critical ("invalid config: value is not str or dict for key "
                             +:+ path +:+ " -> " +:+ ks)
            end
      | _ => Critical ("invalid config: found " +:+ quoted (type_name k)
                       +:+ " key in " +:+ path)
      end
  end.

(** The pattern map a checked [files] dictionary is. *)
Fixpoint to_StrTree (tree : yaml_items) : StrTree :=
  match tree with
  | YEmpty => Empty
  | YItem (YStr ks) (YStr g) rest => Entry ks (GroupName g) (to_StrTree rest)
  | YItem (YStr ks) (YDict sub) rest =>
      Entry ks (Nested (to_StrTree sub)) (to_StrTree rest)
  | YItem _ _ rest => to_StrTree rest
  end.

(** The items of a pattern map, and the pattern map of a list of
    items. *)
Fixpoint entries (t : StrTree) : list (string * StrValue) :=
  match t with
  | Empty => []
  | Entry k v rest => (k, v) :: entries rest
  end.

Definition of_entries (l : list (string * StrValue)) : StrTree :=
  foldr (fun kv t => Entry kv.1 kv.2 t) Empty l.

(** [config.get(key)] and [config.get(key, default)] for a [str] key. *)
Fixpoint yaml_get (key : string) (default_ : yaml) (d : yaml_items) : yaml :=
  match d with
  | YEmpty => default_
  | YItem (YStr k) v rest =>
      if String.eqb k key then v else yaml_get key default_ rest
  | YItem _ _ rest => yaml_get key default_ rest
  end.

Definition known_keys : list string :=
  ["overrides"; "root"; "files"; "config_relative_root"].

(** The keys left in [set(config.keys())] once the known ones are
    discarded. *)
Fixpoint unknown_keys (d : yaml_items) : list yaml :=
  match d with
  | YEmpty => []
  | YItem k _ rest =>
      match k with
      | YStr s =>
          if existsb (String.eqb s) known_keys then unknown_keys rest
          else k :: unknown_keys rest
      | _ => k :: unknown_keys rest
      end
  end.

Definition over_msg : string :=
  "invalid config: overrides must be a dictionary of string: string pairs".

(** The loop over [ooverrides.items()]. *)
Fixpoint config_overrides (d : yaml_items) (noverrides : gmap string string)
  : checked (gmap string string) :=
  match d with
  | YEmpty => Accepted noverrides
  | YItem (YStr k) (YStr v) rest =>
      config_overrides rest (<[k := v]> noverrides)
  | YItem _ _ _ => Critical over_msg
  end.

(** What [file.py] asks of the interpreter and of the file system:
    [safe_load path] is [yaml.safe_load] on the opened file, [repr_keys]
    is [', '.join(repr(key) for key in keys)] on a set of keys. *)
Inductive load_failure : Type :=
| ParserError
| ConfigNotFound
| LoadRaises (e : exn).

Record file_env : Type := {
  safe_load : string → yaml + load_failure;
  path_exists : string → bool;
  path_dirname : string → string;
  repr_keys : list yaml → string
}.

Definition and_then {A B} (m : checked A) (k : A → checked B) : checked B :=
  match m with
  | Accepted a => k a
  | Critical msg => Critical msg
  | Raised e => Raised e
  end.

Notation "'check' x <- m ; k" := (and_then m (fun x => k))
  (at level 10, x pattern, m at level 100, k at level 200, only parsing).

(** [# Load extra globs into file tree] *)
Definition merge_globs (extra_globs : list (string * string))
    (files : StrTree) : StrTree :=
  match extra_globs with
  | _ :: _ =>
      let nfiles :=
        foldl (fun nfiles eg => Dict.set eg.1 (GroupName eg.2) nfiles)
          [] extra_globs in
      of_entries
        (foldl (fun nfiles rd =>
                  if negb (Dict.has rd.1 nfiles)
                  then Dict.set rd.1 rd.2 nfiles else nfiles)
           nfiles (entries files))
  | [] => files
  end.

Section File.

Variable env : os_env.
Variable fenv : file_env.

(** The part of [group_from] that reads the configuration: the
    overrides of the file, the root and the [files] dictionary. *)
Definition read_config (config_path : string) (root : option string)
  : checked (yaml_items * string * gmap string string) :=
  match safe_load fenv config_path with
  | inr ParserError =>
      Critical "invalid config: config is not a valid yaml file"
  | inr ConfigNotFound =>
      Critical ("config file " +:+ quoted config_path +:+ " not found")
  | inr (LoadRaises e) => Raised e
  | inl (YDict config) =>
      match unknown_keys config with
      | _ :: _ as keys =>
          Critical ("invalid config: unknown keys: " +:+ repr_keys fenv keys)
      | [] =>
          check noverrides <-
            match yaml_get "overrides" YNone config with
            | YNone => Accepted ∅
            | YDict ooverrides => config_overrides ooverrides ∅
            | _ => Critical over_msg
            end;
          check root <-
            match root with
            | Some r => Accepted r
            | None =>
                match yaml_get "root" (YStr ".") config with
                | YStr r =>
                    match yaml_get "config_relative_root" (YBool false) config
                    with
                    | YBool true =>
                        Accepted
                          (abs_path env
                             (path_dirname fenv
                                (abs_path env (getcwd env) config_path)) r)
                    | YBool false => Accepted r
                    | _ =>
                        Critical "invalid config: config_relative_root must be true or false"
                    end
                | _ => Critical "invalid config: root filepath must be a string"
                end
            end;
          check files <-
            match yaml_get "files" YNone config with
            | YNone => Accepted YEmpty
            | YDict files =>
                check _ <- check_file_tree files "files"; Accepted files
            | _ => Critical "invalid config: files must be a dictionary"
            end;
          Accepted (files, root, noverrides)
      end
  | inl config =>
      Critical ("invalid config: must be a dictionary, parsed "
                +:+ quoted (type_name config) +:+ " instead")
  end.

(** [group_from].  [overrides] is the content of the dictionary given,
    which is only read; [noverrides] is a new dictionary object, put at
    the end of the store of dictionaries and handed to [group]. *)
Definition group_from (fuel : nat) (config_path root : option string)
    (absolute_ distinct : bool) (extra_globs : list (string * string))
    (overrides_ : gmap string string) (dicts : dict_store)
  : checked (outcome (grouper * heap * dict_store)) :=
  check (files, root, noverrides) <-
    match config_path with
    | None | Some EmptyString =>
        match extra_globs with
        | [] =>
            Critical "no globs given, provide some with -m or supply a config with -c."
        | _ :: _ =>
            Accepted (YEmpty, default "." root, ∅ : gmap string string)
        end
    | Some config_path => read_config config_path root
    end;
  let noverrides := overrides_ ∪ noverrides in
  let root := abs_path env (getcwd env) root in
  if negb (String.eqb root "") && negb (path_exists fenv root)
  then Critical ("root filepath " +:+ quoted root +:+ " not found")
  else
    let nfiles := merge_globs extra_globs (to_StrTree files) in
    Accepted (group_ env fuel root nfiles absolute_ distinct
                (Some (length dicts)) (dicts ++ [noverrides])%list).

End File.

(** ** [__init__.py]: the arguments of the command line *)

Module PyStr.

(** [s.rindex(c)] for a one-character [c]; [None] stands for the
    ValueError raised when [c] does not occur. *)
Fixpoint rindex (c : Ascii.ascii) (s : string) : option nat :=
  match s with
  | EmptyString => None
  | String x s' =>
      match rindex c s' with
      | Some i => Some (S i)
      | None => if Ascii.eqb x c then Some 0 else None
      end
  end.

(** [s[:n]] *)
Fixpoint upto (n : nat) (s : string) : string :=
  match n, s with
  | S k, String x s' => String x (upto k s')
  | _, _ => EmptyString
  end.

(** [s[n:]] *)
Fixpoint from (n : nat) (s : string) : string :=
  match n, s with
  | S k, String _ s' => from k s'
  | _, _ => s
  end.

End PyStr.

Definition colon : Ascii.ascii := Ascii.ascii_of_nat 58.

(** The body of the two loops of [main] that split an argument at its
    last colon. *)
Definition split_last_colon (what arg : string)
  : checked (string * string) :=
  if negb (Py.mem_char colon arg)
  then Critical ("invalid " +:+ what +:+ " " +:+ quoted arg)
  else match PyStr.rindex colon arg with
       | None => Raised ValueError
       | Some loc => Accepted (PyStr.upto loc arg, PyStr.from (loc + 1) arg)
       end.

(** [# Split overrides]: the dictionary of the [-o G:N] arguments, in
    insertion order. *)
Fixpoint split_overrides_loop (args : list string)
    (overrides : list (string * string)) : checked (list (string * string)) :=
  match args with
  | [] => Accepted overrides
  | over :: rest =>
      match split_last_colon "override" over with
      | Accepted (k, v) => split_overrides_loop rest (Dict.set k v overrides)
      | Critical msg => Critical msg
      | Raised e => Raised e
      end
  end.

Definition split_overrides (override_ : option (list string))
  : checked (list (string * string)) :=
  match override_ with
  | None => Accepted []
  | Some args =>
      if (length args <=? 0)%nat
      then Critical ("need at least one " +:+ quoted "G:N"
                     +:+ " argument for override")
      else split_overrides_loop args []
  end.

(** [# Split manuals]: the list of the [-m P:G] arguments. *)
Fixpoint split_manuals_loop (args : list string)
    (extra_globs : list (string * string))
  : checked (list (string * string)) :=
  match args with
  | [] => Accepted extra_globs
  | manual :: rest =>
      match split_last_colon "manual" manual with
      | Accepted pg => split_manuals_loop rest (extra_globs ++ [pg])%list
      | Critical msg => Critical msg
      | Raised e => Raised e
      end
  end.

Definition split_manuals (manual_ : option (list string))
  : checked (list (string * string)) :=
  match manual_ with
  | None => Accepted []
  | Some args =>
      if (length args <=? 0)%nat
      then Critical ("need at least one " +:+ quoted "P:G"
                     +:+ " argument for manual")
      else split_manuals_loop args []
  end.

(** An argument put together again. *)
Definition rejoin (pg : string * string) : string :=
  pg.1 +:+ String colon pg.2.

(** ** A configuration file for the examples *)

Module FileExamples.

(** [posixpath.dirname] *)
Definition posix_dirname (p : string) : string :=
  match PyStr.rindex Posix.slash p with
  | None => ""
  | Some i =>
      let head := PyStr.upto (i + 1) p in
      if forallb (Ascii.eqb Posix.slash) (String.list_ascii_of_string head)
      then head
      else String.string_of_list_ascii
             (rev (Py.lstrip_list "/"
                     (rev (String.list_ascii_of_string head))))
  end.

(** [repr] of a key, for the keys of the examples. *)
Definition repr (k : yaml) : string :=
  match k with
  | YStr s => "'" +:+ s +:+ "'"
  | YNone => "None"
  | YBool true => "True"
  | YBool false => "False"
  | _ => type_name k
  end.

(** The file [fgroup.yaml]:
    [overrides: {first: one}], [files: {a: first, "*": rest}]. *)
Definition config_first : yaml :=
  YDict
    (YItem (YStr "overrides")
       (YDict (YItem (YStr "first") (YStr "one") YEmpty))
       (YItem (YStr "files")
          (YDict (YItem (YStr "a") (YStr "first")
                    (YItem (YStr "*") (YStr "rest") YEmpty)))
          YEmpty)).

(** The directory [/w] holding the files [a] and [b], and the
    configuration file above, which is the only file that loads. *)
Definition fenv_flat : file_env :=
  {| safe_load := fun p =>
       if String.eqb p "fgroup.yaml" then inl config_first
       else inr ConfigNotFound;
     path_exists := fun p =>
       match Posix.resolve Examples.fs_flat (Posix.segments "/w" p) with
       | Some _ => true
       | None => false
       end;
     path_dirname := posix_dirname;
     repr_keys := fun keys => Py.join ", " (map repr keys) |}.

End FileExamples.

(** ** Statements on the configuration *)

(** A [files] dictionary that is a pattern map: every key is a string
    that is not empty and has no empty alternative, every value a group
    name or such a dictionary. *)
Fixpoint valid_tree (tree : yaml_items) : Prop :=
  match tree with
  | YEmpty => True
  | YItem k v rest =>
      (∃ ks, k = YStr ks ∧ ks ≠ "" ∧
             Forall (fun a => a ≠ "") (Py.split ", " ks)) ∧
      match v with
      | YStr _ => True
      | YDict sub => valid_tree sub
      | _ => False
      end ∧
      valid_tree rest
  end.

(** The dictionary a pattern map is. *)
Fixpoint of_StrTree (t : StrTree) : yaml_items :=
  match t with
  | Empty => YEmpty
  | Entry k v rest =>
      YItem (YStr k)
        (match v with
         | GroupName g => YStr g
         | Nested sub => YDict (of_StrTree sub)
         end)
        (of_StrTree rest)
  end.

(** ** Further observations *)

(** The key under which [walk] records the weight of a node. *)
Definition weight_key (env : os_env) (gr : grouper) (h : heap) (nd : ref)
  : option string :=
  match h !! nd, h !! tree gr with
  | Some n, Some root =>
      Some (if Py.truthy (path root) && negb (absolute gr)
            then path_relpath env (path n) (path root) else path n)
  | _, _ => None
  end.

(** A node that is not quasi hangs from a node that is not quasi. *)
Definition quasi_closed (h : heap) : Prop :=
  ∀ r n p, h !! r = Some n → parent n = Some p → quasi n = false →
    ∃ pn, h !! p = Some pn ∧ quasi pn = false.

(** The same while [observe] walks up: the node the walk has reached may
    still be quasi. *)
Definition quasi_closed_below (h : heap) (cursor : option ref) : Prop :=
  ∀ r n p, h !! r = Some n → parent n = Some p → quasi n = false →
    cursor = Some p ∨ ∃ pn, h !! p = Some pn ∧ quasi pn = false.

(** A step that leaves the parent and the mark [quasi] of a node. *)
Definition same_kin (n n' : node) : Prop :=
  parent n' = parent n ∧ quasi n' = quasi n.

(** [strip] on the list of the characters. *)
Definition strip_list (chars : string) (l : list Ascii.ascii)
  : list Ascii.ascii :=
  rev (Py.lstrip_list chars (rev (Py.lstrip_list chars l))).

(** The characters at the two ends of a string. *)
Definition first_char (s : string) : option Ascii.ascii :=
  match s with
  | String c _ => Some c
  | EmptyString => None
  end.

(** ** What the groups and the weights hold *)

(** What the output of a grouper reads in a node. *)
Definition same_output (n n' : node) : Prop :=
  group n' = group n ∧ path n' = path n.

(** Every path of every group is the output path of a node of the tree
    whose group is the name of the group. *)
Definition groups_sound (env : os_env) (gr : grouper) (h : heap) : Prop :=
  ∀ k paths p, Dict.get k (groups gr) = Some paths → p ∈ paths →
    ∃ r n, h !! r = Some n ∧ group n = Some k ∧
           weight_key env gr h r = Some p.

(** The invariant of the constructor: the tree has the shape of its
    class, the groups hold paths of the tree, and a tree of the default
    class has no groups before [walk]. *)
Definition grouping (env : os_env) (c : node_class) (gr : grouper)
    (h : heap) : Prop :=
  well_formed env c h ∧ groups_sound env gr h ∧
  (c = FileTreeNode → groups gr = []).


(** Every listed path has a recorded weight. *)
Definition listed_weighed (gr : grouper) : Prop :=
  ∀ k paths p, Dict.get k (groups gr) = Some paths → p ∈ paths →
    Dict.has p (weights gr) = true.

(** * Properties *)

(** ** Running a sequence of steps *)

Lemma bind_Ok {A B} (m : outcome A) (k : A → outcome B) (b : B) :
  bind m k = Ok b → ∃ a, m = Ok a ∧ k a = Ok b.
Proof. destruct m as [a| |]; simpl; [eauto | discriminate | discriminate]. Qed.

Lemma get_Ok (h : heap) (r : ref) (n : node) :
  get h r = Ok n ↔ h !! r = Some n.
Proof.
  unfold get. destruct (h !! r); split; intros H; congruence.
Qed.

Lemma modify_lookup (f : node → node) (r r' : ref) (h : heap) :
  modify f r h !! r' = if decide (r = r') then f <$> h !! r else h !! r'.
Proof. unfold modify. apply list_lookup_alter. Qed.

Lemma modify_lookup_eq (f : node → node) (r : ref) (h : heap) (n : node) :
  h !! r = Some n → modify f r h !! r = Some (f n).
Proof.
  intros H. rewrite modify_lookup. destruct (decide (r = r)); [| congruence].
  rewrite H. reflexivity.
Qed.

(** Splits a hypothesis [bind m k = Ok b] into its two steps. *)
Ltac inv_bind H :=
  let a := fresh "a" in
  let Ha := fresh "Hstep" in
  apply bind_Ok in H; destruct H as (a & Ha & H).

Tactic Notation "bind_inv" hyp(H) "as" simple_intropattern(x) ident(Hx) :=
  apply bind_Ok in H; destruct H as (x & Hx & H).

(** ** [util.py] *)

(** C8, the claim as stated fails: with an empty root and an empty
    pattern [glob_root] yields nothing, not the sentinel. *)
Lemma empty_pattern_claim_fails :
  ¬ empty_pattern_claim Examples.env_flat "" false.
Proof. unfold empty_pattern_claim. vm_compute. discriminate. Qed.

(** C8, amended: [glob_root] yields nothing for the empty pattern,
    whatever the root; with an empty root, a pattern that is not empty
    and consists of separator characters only yields [DEFAULT_PATH]
    exactly once. *)
Theorem glob_root_empty_pattern (env : os_env) (root rglob : string)
    (dirs_only : bool) :
  glob_root env root "" dirs_only = Ok [] ∧
  (rglob ≠ "" → strip_path env rglob = "" →
   glob_root env "" rglob dirs_only = Ok [DEFAULT_PATH env]).
Proof.
  split; [reflexivity |].
  intros Hne Hstrip. unfold glob_root, glob_root_start.
  destruct (String.eqb_spec rglob "") as [-> | _]; [congruence |].
  rewrite Hstrip. reflexivity.
Qed.

Lemma glob_root_empty_pattern_witness :
  glob_root Examples.env_flat "/w" "" true = Ok [] ∧
  glob_root Examples.env_flat "" "//" true =
    Ok [DEFAULT_PATH Examples.env_flat].
Proof.
  split.
  - apply (glob_root_empty_pattern Examples.env_flat "/w" "//" true).
  - apply (glob_root_empty_pattern Examples.env_flat "/w" "//" true).
    + discriminate.
    + reflexivity.
Defined.

(** C9: [list_path] never raises.  It returns the names [os.listdir]
    gives, in the order given, and the empty list when the path is empty
    or when [os.listdir] fails. *)
Theorem list_path_total (env : os_env) (p : string) :
  (∀ e, listdir env p = inr e → listdir_error e) →
  ∃ names, list_path env p = Ok names ∧
    (p = "" → names = []) ∧
    (∀ l, p ≠ "" → listdir env p = inl l → names = l) ∧
    (∀ e, listdir env p = inr e → names = []).
Proof.
  intros Herr. unfold list_path.
  destruct (String.eqb_spec p "") as [-> | Hp].
  - exists []. repeat split; auto. congruence.
  - destruct (listdir env p) as [l | e] eqn:Hl.
    + exists l. repeat split; auto; congruence.
    + assert (Hc : caught_by list_path_handlers e = true).
      { destruct (Herr e eq_refl) as [H | H];
          destruct e; simpl in H; try discriminate; reflexivity. }
      rewrite Hc. exists []. repeat split; auto; congruence.
Qed.

Lemma list_path_total_witness :
  ∃ names, list_path Examples.env_flat "/w/a" = Ok names ∧
    ("/w/a" = "" → names = []) ∧
    (∀ l, "/w/a" ≠ "" → listdir Examples.env_flat "/w/a" = inl l →
          names = l) ∧
    (∀ e, listdir Examples.env_flat "/w/a" = inr e → names = []).
Proof.
  apply (list_path_total Examples.env_flat "/w/a").
  intros e He. vm_compute in He.
  injection He as <-. left. reflexivity.
Defined.

(** ** What a generator leaves untouched

    The tree operations act on the store of nodes only: whatever the
    consumer of a generator keeps beside the store changes only when the
    consumer itself runs. *)

Section Preservation.

Variable env : os_env.

Lemma for_each_preserves {X S} (I : S → Prop) (body : X → S → outcome S)
    (xs : list X) :
  (∀ x s s', I s → body x s = Ok s' → I s') →
  ∀ s s', I s → for_each xs body s = Ok s' → I s'.
Proof.
  intros Hbody. induction xs as [| x xs IH]; intros s s' Hs H; simpl in H.
  - injection H as <-. exact Hs.
  - inv_bind H. eauto.
Qed.

Lemma for_values_preserves {A} (I : A * heap → Prop) (self : ref)
    (body : ref → A * heap → outcome (A * heap)) (size : nat)
    (items : list (string * ref)) :
  (∀ c s s', I s → body c s = Ok s' → I s') →
  ∀ s s', I s → for_values self body size items s = Ok s' → I s'.
Proof.
  intros Hbody.
  induction items as [| [k c] items IH]; intros s s' Hs H; simpl in H.
  - inv_bind H. destruct (negb _); [discriminate |].
    injection H as <-. exact Hs.
  - inv_bind H. destruct (negb _); [discriminate |].
    inv_bind H. eauto.
Qed.

Lemma for_children_preserves {A} (I : A * heap → Prop) (self : ref)
    (body : ref → A * heap → outcome (A * heap)) :
  (∀ c s s', I s → body c s = Ok s' → I s') →
  ∀ s s', I s → for_children self body s = Ok s' → I s'.
Proof.
  intros Hbody s s' Hs H. unfold for_children in H. inv_bind H.
  eapply for_values_preserves; eauto.
Qed.

Section Generators.
Context {A : Type}.
Variable P : A → Prop.
Variable body : ref → A * heap → outcome (A * heap).
Hypothesis body_preserves :
  ∀ nd s s', P s.1 → body nd s = Ok s' → P s'.1.

Lemma descendants_preserves (fuel : nat) :
  ∀ self exclude_leaves s s',
    P s.1 → descendants fuel self exclude_leaves body s = Ok s' → P s'.1.
Proof.
  induction fuel as [| f IH]; intros self ex s s' Hs H; simpl in H;
    [discriminate |].
  inv_bind H. destruct (visited a); [injection H as <-; exact Hs |].
  inv_bind H.
  assert (Ha0 : P a0.1).
  { destruct (negb ex || _).
    - eapply body_preserves; eauto.
    - injection Hstep0 as <-. exact Hs. }
  revert H. apply (for_children_preserves (fun s => P s.1)); [| exact Ha0].
  intros c t t' Ht H. inv_bind H.
  destruct (visited a1); [injection H as <-; exact Ht |]. eauto.
Qed.

Lemma glob_nodes_preserves (self : ref) (rglob : string)
    (dirs_only : bool) :
  ∀ s s', P s.1 → glob_nodes env self rglob dirs_only body s = Ok s' →
          P s'.1.
Proof.
  intros s s' Hs H. unfold glob_nodes in H.
  inv_bind H. inv_bind H.
  revert H. apply (for_each_preserves (fun s => P s.1)); [| exact Hs].
  intros p t t' Ht H. inv_bind H. destruct a1 as [[nd |] h'].
  - eapply body_preserves; [| exact H]. exact Ht.
  - injection H as <-. exact Ht.
Qed.
End Generators.

Lemma glob_alternatives_preserves {A} (P : A → Prop)
    (rec : ∀ A : Type, ref → string → bool →
             (ref → A * heap → outcome (A * heap)) →
             A * heap → outcome (A * heap))
    (fuel : nat) (dirs_only : bool)
    (body : ref → A * heap → outcome (A * heap)) :
  (∀ nd s s', P s.1 → body nd s = Ok s' → P s'.1) →
  (∀ self rglob s s',
     P s.1 → rec A self rglob dirs_only body s = Ok s' → P s'.1) →
  ∀ alternatives self s s',
    P s.1 →
    glob_alternatives env rec fuel self dirs_only body alternatives s
      = Ok s' →
    P s'.1.
Proof.
  intros Hbody Hrec alternatives self.
  induction alternatives as [| alt rest IH]; intros s s' Hs H; simpl in H.
  - injection H as <-. exact Hs.
  - destruct (glob_parts env alt) as [| part parts] eqn:Hparts.
    + eapply Hbody; eauto.
    + destruct (has_part ".." (part :: parts)).
      * unfold parent_branch in H.
        inv_bind H. destruct a as [sub_nodes h1].
        inv_bind H. inv_bind H.
        destruct (Py.truthy _).
        -- revert H. apply (for_each_preserves (fun s => P s.1));
             [| exact Hs].
           intros x t t' Ht H. eapply Hrec; eauto.
        -- revert H. apply (for_each_preserves (fun s => P s.1));
             [| exact Hs].
           intros x t t' Ht H. eapply Hbody; eauto.
      * destruct (has_part "**" (part :: parts)).
        -- unfold recursive_branch in H.
           assert (Heach : ∀ nd t t', P t.1 →
             (do h' <- expand env fuel t.2 nd;
              if Py.truthy
                   (Py.join (SEP env)
                      (drop (S (index_of "**" (part :: parts)))
                         (part :: parts)))
              then descendants fuel nd false
                     (fun d s =>
                        rec A d
                          (Py.join (SEP env)
                             (drop (S (index_of "**" (part :: parts)))
                                (part :: parts))) dirs_only body s)
                     (t.1, h')
              else descendants fuel nd dirs_only body (t.1, h')) = Ok t' →
             P t'.1).
           { intros nd t t' Ht Hrun. inv_bind Hrun.
             destruct (Py.truthy _).
             - revert Hrun. apply (descendants_preserves P); [| exact Ht].
               intros d u u' Hu Hd. eapply Hrec; eauto.
             - revert Hrun. apply (descendants_preserves P); [| exact Ht].
               exact Hbody. }
           destruct (index_of "**" (part :: parts) =? 0)%nat.
           ++ eapply Heach; eauto.
           ++ revert H. apply (glob_nodes_preserves P); [| exact Hs].
              exact Heach.
        -- inv_bind H. eapply IH; [| exact H].
           revert Hstep. apply (glob_nodes_preserves P); [| exact Hs].
           exact Hbody.
Qed.

Lemma glob_children_preserves (fuel : nat) :
  ∀ (A : Type) (P : A → Prop) (self : ref) (rglob : string)
    (dirs_only : bool) (body : ref → A * heap → outcome (A * heap)) s s',
    (∀ nd s s', P s.1 → body nd s = Ok s' → P s'.1) →
    P s.1 →
    glob_children env fuel A self rglob dirs_only body s = Ok s' →
    P s'.1.
Proof.
  induction fuel as [| f IH]; intros A P self rglob d body s s' Hbody Hs H;
    simpl in H; [discriminate |].
  inv_bind H.
  revert H. apply (glob_alternatives_preserves P); [exact Hbody | | exact Hs].
  intros self' rglob' t t' Ht H. eapply IH; eauto.
Qed.

End Preservation.

(** ** What the grouper keeps while the tree is visited *)

Lemma or_else_truthy (a : option string) (b : string) :
  Py.truthy b = true → Py.truthy (or_else a b) = true.
Proof.
  intros Hb. destruct a as [x |]; simpl; [| exact Hb].
  destruct (Py.truthy x) eqn:Hx; [exact Hx | exact Hb].
Qed.

Lemma or_else_Some_truthy (x b : string) :
  Py.truthy x = true → or_else (Some x) b = x.
Proof. intros Hx. simpl. rewrite Hx. reflexivity. Qed.

Lemma assignable_again (group_ : option string) (g n : string) :
  assignable group_ g → assignable (Some g) n → n = g.
Proof.
  intros [y ->] [z ->]. apply or_else_Some_truthy.
  apply or_else_truthy, or_else_truthy. reflexivity.
Qed.

Scheme StrTree_mutual := Induction for StrTree Sort Prop
  with StrValue_mutual := Induction for StrValue Sort Prop.

Section GrouperPreservation.

Variable env : os_env.
Variable P : grouper → Prop.
Variable allowed : string → Prop.
Hypothesis add_preserves :
  ∀ name_ path_ s s',
    allowed name_ → P s.1 → add_to_group env name_ path_ s = Ok s' → P s'.1.

Lemma visit_preserves (fuel : nat) :
  ∀ self group_ s s',
    (∀ n, assignable group_ n → allowed n) →
    P s.1 → visit env fuel self group_ s = Ok s' → P s'.1.
Proof.
  induction fuel as [| f IH]; intros self group_ s s' Hal Hs H; simpl in H;
    [discriminate |].
  bind_inv H as n Hn. destruct (cls n).
  - destruct (visited n); [injection H as <-; exact Hs |].
    bind_inv H as h1 Hobs. bind_inv H as h2 Hcol. bind_inv H as n2 Hn2.
    set (g := or_else group_ (or_else (group n2) DEFAULT_GROUP)) in *.
    assert (Hg : ∀ x, assignable (Some g) x → allowed x).
    { intros x Hx. assert (Hg : assignable group_ g) by (eexists; reflexivity).
      rewrite (assignable_again _ _ _ Hg Hx). auto. }
    destruct (length (children n2) <=? 0)%nat;
      [injection H as <-; exact Hs |].
    bind_inv H as items Hitems. bind_inv H as s3 Hloop.
    bind_inv H as n3 Hn3. injection H as <-. simpl.
    destruct items as [| item items].
    + revert Hloop.
      apply (for_children_preserves (fun s => P s.1)); [| exact Hs].
      intros c t t' Ht Hv. eapply IH; eauto.
    + revert Hloop.
      apply (for_each_preserves (fun s => P s.1)); [| exact Hs].
      intros x t t' Ht Hv. bind_inv Hv as [c h'] Hc.
      eapply IH; [exact Hg | | exact Hv]. exact Ht.
  - bind_inv H as h1 Hobs. bind_inv H as h2 Hcol. bind_inv H as n2 Hn2.
    destruct (group n2); [injection H as <-; exact Hs |].
    eapply add_preserves; [| | exact H].
    + apply Hal. exists None. reflexivity.
    + exact Hs.
Qed.

Lemma load_flat_preserves (fuel : nat) (ov : gmap string string) :
  ∀ config parent_ s s',
    flat config →
    (∀ g n, g ∈ group_names config →
            assignable (Some (override ov g)) n → allowed n) →
    P s.1 → load env fuel ov parent_ config s = Ok s' → P s'.1.
Proof.
  induction config as [| key data rest IH]; intros parent_ s s' Hflat Hal Hs H;
    simpl in H.
  - injection H as <-. exact Hs.
  - destruct data as [g | sub]; [| destruct Hflat].
    inv_bind H. simpl in Hflat, Hal.
    eapply IH; [exact Hflat | | | exact H].
    + intros g' n Hg'. apply Hal. right. exact Hg'.
    + revert Hstep. simpl.
      apply (glob_children_preserves env fuel grouper P); [| exact Hs].
      intros nd t t' Ht Hv. eapply visit_preserves; [| exact Ht | exact Hv].
      intros n Hn. eapply Hal; [left | exact Hn].
Qed.

Hypothesis all_allowed : ∀ n, allowed n.

Lemma load_preserves (fuel : nat) (ov : gmap string string) :
  ∀ config parent_ s s',
    P s.1 → load env fuel ov parent_ config s = Ok s' → P s'.1.
Proof.
  intros config.
  induction config using StrTree_mutual with
    (P0 := fun data => ∀ parent_ key s s',
             P s.1 → load_entry env fuel ov parent_ key data s = Ok s' →
             P s'.1);
    intros parent_.
  - intros s s' Hs H. simpl in H. injection H as <-. exact Hs.
  - intros s s' Hs H. simpl in H. inv_bind H. eauto.
  - intros key s s' Hs H. simpl in H.
    revert H. apply (glob_children_preserves env fuel grouper P); [| exact Hs].
    intros nd t t' Ht Hv. eapply visit_preserves; eauto.
  - intros key s s' Hs H. simpl in H.
    revert H. apply (glob_children_preserves env fuel grouper P); [| exact Hs].
    intros nd t t' Ht Hv. inv_bind Hv.
    eapply visit_preserves; [| | exact Hv]; eauto.
Qed.

Hypothesis weights_preserve : ∀ w g, P g → P (set_weights w g).

Lemma walk_preserves (fuel : nat) :
  ∀ nd s s', P s.1 → walk env fuel nd s = Ok s' → P s'.1.
Proof.
  induction fuel as [| f IH]; intros nd s s' Hs H; simpl in H;
    [discriminate |].
  bind_inv H as n Hn. bind_inv H as root Hroot. destruct (group n).
  - eapply add_preserves; [| | exact H]; simpl; auto.
  - revert H.
    apply (for_children_preserves (fun s => P s.1)); [| simpl; auto].
    intros c t t' Ht Hv. eauto.
Qed.

End GrouperPreservation.

(** ** [FileGrouper.__init__] and the dictionary of overrides *)

Lemma add_to_group_overrides (env : os_env) (name_ path_ : string)
    (s s' : grouper * heap) :
  add_to_group env name_ path_ s = Ok s' → overrides s'.1 = overrides s.1.
Proof.
  unfold add_to_group. intros H. bind_inv H as root Hroot.
  destruct (Dict.get name_ (groups s.1)); injection H as <-; reflexivity.
Qed.

Lemma FileGrouper_overrides (env : os_env) (fuel : nat) (root : string)
    (config : StrTree) (absolute_ distinct : bool) (arg : option nat)
    (dicts : dict_store) (g : grouper) (h : heap) (dicts' : dict_store) :
  FileGrouper env fuel root config absolute_ distinct arg dicts
    = Ok (g, h, dicts') →
  overrides g = default FileGrouper_default_overrides arg ∧
  ∃ ov, dicts !! default FileGrouper_default_overrides arg = Some ov ∧
    dicts' = <[default FileGrouper_default_overrides arg :=
                 <[DEFAULT_GROUP := DEFAULT_GROUP]> ov]> dicts.
Proof.
  intros H. unfold FileGrouper in H.
  bind_inv H as [t h0] Hnew.
  set (r := match arg with
            | Some r => r
            | None => FileGrouper_default_overrides
            end) in *.
  assert (Hr : r = default FileGrouper_default_overrides arg)
    by (destruct arg; reflexivity).
  rewrite <- Hr.
  destruct (dicts !! r) as [ov |] eqn:Hov; [| discriminate].
  bind_inv H as s1 Hload. bind_inv H as s2 Hrest.
  injection H as <- <- <-.
  split; [| eauto].
  set (P := fun gr : grouper => overrides gr = r).
  assert (Hadd : ∀ name_ path_ s s',
             True → P s.1 → add_to_group env name_ path_ s = Ok s' → P s'.1).
  { intros name_ path_ s s' _ Hs Ha. unfold P in *.
    rewrite (add_to_group_overrides _ _ _ _ _ Ha). exact Hs. }
  assert (H1 : P s1.1).
  { eapply (load_preserves env P (fun _ => True) Hadd); [auto | | exact Hload].
    reflexivity. }
  assert (H2 : P s2.1).
  { destruct distinct; simpl in Hrest.
    - injection Hrest as <-. exact H1.
    - bind_inv Hrest as s' Hvisit.
      eapply (walk_preserves env P (fun _ => True) Hadd); [auto | | | exact Hrest].
      + intros w gr Hgr. exact Hgr.
      + eapply (visit_preserves env P (fun _ => True) Hadd);
          [auto | exact H1 | exact Hvisit]. }
  exact H2.
Qed.

(** [group] hands its own default dictionary, or the one it was given,
    to the constructor, which writes into it in the same way. *)
Lemma group_overrides (env : os_env) (fuel : nat) (root : string)
    (files : StrTree) (absolute_ distinct : bool) (arg : option nat)
    (dicts : list (gmap string string)) (g : grouper) (h : heap)
    (dicts' : list (gmap string string)) :
  group_ env fuel root files absolute_ distinct arg dicts
    = Ok (g, h, dicts') →
  overrides g = default group_default_overrides arg ∧
  ∃ ov, dicts !! default group_default_overrides arg = Some ov ∧
    dicts' = <[default group_default_overrides arg :=
                 <[DEFAULT_GROUP := DEFAULT_GROUP]> ov]> dicts.
Proof.
  unfold group_. intros H.
  destruct (FileGrouper_overrides _ _ _ _ _ _ _ _ _ _ _ H) as (Hov & ov & Hd & ->).
  destruct arg; simpl in *; eauto.
Qed.

(** C10: the constructor writes [DEFAULT_GROUP -> DEFAULT_GROUP] into
    the very dictionary object it was given (no copy is made, every other
    dictionary is untouched) and keeps a reference to it; when the
    argument is omitted that object is the default value of the
    parameter, shared by all calls, so that a second construction that
    omits the argument starts from a dictionary that already holds the
    entry and refers to the same object. *)
Theorem FileGrouper_mutates_overrides (env : os_env) (fuel : nat)
    (root : string) (config : StrTree) (absolute_ distinct : bool)
    (arg : option nat) (dicts : dict_store)
    (g : grouper) (h : heap) (dicts' : dict_store) :
  FileGrouper env fuel root config absolute_ distinct arg dicts
    = Ok (g, h, dicts') →
  let r := default FileGrouper_default_overrides arg in
  overrides g = r ∧
  (∃ ov, dicts !! r = Some ov ∧
         dicts' = <[r := <[DEFAULT_GROUP := DEFAULT_GROUP]> ov]> dicts) ∧
  (∃ ov', dicts' !! r = Some ov' ∧
          ov' !! DEFAULT_GROUP = Some DEFAULT_GROUP) ∧
  (∀ fuel2 root2 config2 absolute2 distinct2 g2 h2 dicts2,
     arg = None →
     FileGrouper env fuel2 root2 config2 absolute2 distinct2 None dicts'
       = Ok (g2, h2, dicts2) →
     overrides g2 = overrides g ∧ dicts2 = dicts').
Proof.
  intros H r.
  destruct (FileGrouper_overrides _ _ _ _ _ _ _ _ _ _ _ H)
    as (Hov & ov & Hd & ->).
  fold r in Hov, Hd |- *.
  assert (Hlt : r < length dicts) by (eapply lookup_lt_Some; eauto).
  split; [exact Hov |]. split; [eauto |]. split.
  - exists (<[DEFAULT_GROUP := DEFAULT_GROUP]> ov). split.
    + apply list_lookup_insert_eq. exact Hlt.
    + apply lookup_insert_eq.
  - intros fuel2 root2 config2 absolute2 distinct2 g2 h2 dicts2 Harg H2.
    destruct (FileGrouper_overrides _ _ _ _ _ _ _ _ _ _ _ H2)
      as (Hov2 & ov2 & Hd2 & ->).
    subst arg. simpl in *. subst r. split; [congruence |].
    rewrite list_lookup_insert_eq in Hd2 by exact Hlt.
    injection Hd2 as <-.
    rewrite insert_insert_eq. rewrite list_insert_insert_eq. reflexivity.
Qed.

Lemma FileGrouper_mutates_overrides_witness :
  match FileGrouper Examples.env_flat 10 "."
          (Entry "a" (GroupName "first") Empty) false false None module_dicts
  with
  | Ok (g, h, dicts') =>
      overrides g = FileGrouper_default_overrides ∧
      (∃ ov, module_dicts !! FileGrouper_default_overrides = Some ov ∧
             dicts' = <[FileGrouper_default_overrides :=
                          <[DEFAULT_GROUP := DEFAULT_GROUP]> ov]> module_dicts) ∧
      (∃ ov', dicts' !! FileGrouper_default_overrides = Some ov' ∧
              ov' !! DEFAULT_GROUP = Some DEFAULT_GROUP) ∧
      (∀ fuel2 root2 config2 absolute2 distinct2 g2 h2 dicts2,
         @None nat = None →
         FileGrouper Examples.env_flat fuel2 root2 config2 absolute2
           distinct2 None dicts' = Ok (g2, h2, dicts2) →
         overrides g2 = overrides g ∧ dicts2 = dicts')
  | _ => False
  end.
Proof.
  destruct (FileGrouper Examples.env_flat 10 "."
              (Entry "a" (GroupName "first") Empty) false false None
              module_dicts) as [[[g h] dicts'] | e |] eqn:Hrun.
  - exact (FileGrouper_mutates_overrides _ _ _ _ _ _ _ _ _ _ _ Hrun).
  - vm_compute in Hrun. discriminate.
  - vm_compute in Hrun. discriminate.
Defined.

(** ** [glob_children] and the alternatives of a pattern *)

(** The loop over the alternatives ends with the first alternative that
    has no segment left, or a [..] segment, or a [**] segment: what
    follows it in the pattern plays no part. *)
Lemma glob_alternatives_return (env : os_env)
    (rec : ∀ A : Type, ref → string → bool →
             (ref → A * heap → outcome (A * heap)) →
             A * heap → outcome (A * heap))
    (fuel : nat) {A : Type} (self : ref) (dirs_only : bool)
    (body : ref → A * heap → outcome (A * heap))
    (alternative : string) (rest : list string) (s : A * heap) :
  glob_parts env alternative = [] ∨
  has_part ".." (glob_parts env alternative) = true ∨
  has_part "**" (glob_parts env alternative) = true →
  glob_alternatives env rec fuel self dirs_only body (alternative :: rest) s =
  glob_alternatives env rec fuel self dirs_only body [alternative] s.
Proof.
  intros H. simpl.
  destruct (glob_parts env alternative) as [| part parts]; [reflexivity |].
  destruct H as [H | [H | H]]; [discriminate | |].
  - rewrite H. reflexivity.
  - rewrite H. destruct (has_part ".." (part :: parts)); reflexivity.
Qed.

(** C1, evaluated: over a directory holding the files [a] and [b], the
    pattern [., a] yields the root only, [a/.., b] yields the root only
    and [**/a, b] yields [a] only, while the same alternatives written
    in the other order yield both nodes; two plain alternatives are both
    evaluated. *)
Theorem glob_children_drops_alternatives :
  Examples.yields_flat "., a" = Ok ["/w"] ∧
  Examples.yields_flat "a, ." = Ok ["/w/a"; "/w"] ∧
  Examples.yields_flat "a/.., b" = Ok ["/w"] ∧
  Examples.yields_flat "b, a/.." = Ok ["/w/b"; "/w"] ∧
  Examples.yields_flat "**/a, b" = Ok ["/w/a"] ∧
  Examples.yields_flat "b, **/a" = Ok ["/w/b"; "/w/a"] ∧
  Examples.yields_flat "a, b" = Ok ["/w/a"; "/w/b"].
Proof. repeat split; vm_compute; reflexivity. Qed.

(** ** [visit] and the flags of a leaf *)

(** C3, evaluated: with the pattern map [{"a": "first"}] over a
    directory holding the files [a] and [b], the run ends with the node
    of [a] visited and not expanded (it went through the branch of
    [visit] for nodes without children), next to the node of [b], visited
    and expanded (it was created with its group). *)
Theorem visit_leaf_not_expanded :
  match Examples.run_first with
  | Ok (g, h, _) =>
      groups g = [("first", ["a"]); ("unknown", ["b"])] ∧
      (path <$> h !! 1) = Some "/w/a" ∧
      (visited <$> h !! 1) = Some true ∧
      (expanded <$> h !! 1) = Some false ∧
      (path <$> h !! 2) = Some "/w/b" ∧
      (visited <$> h !! 2) = Some true ∧
      (expanded <$> h !! 2) = Some true
  | _ => False
  end.
Proof. vm_compute. repeat split; reflexivity. Qed.

(** ** Weights *)

(** [prune] on a leaf whose name is no longer a key of its parent: the
    weight goes to the parent once more and nothing else changes. *)
Lemma prune_detached (h : heap) (c p : ref) (n pn : node) :
  h !! c = Some n → parent n = Some p → h !! p = Some pn →
  (prune_guard n <= 0)%Z → children n = [] → visited n = false →
  Dict.has (name n) (children pn) = false →
  prune h c = Ok (modify (add_weight (weight n)) p h).
Proof.
  intros Hn Hp Hpn Hguard Hch Hv Hhas. unfold prune.
  assert (Hlen : c < length h) by (eapply lookup_lt_Some; eauto).
  destruct (length h) as [| k]; [lia |]. simpl.
  rewrite (proj2 (get_Ok _ _ _) Hn). simpl. rewrite Hp, Hch, Hv. simpl.
  replace (0 <? prune_guard n)%Z with false
    by (symmetry; apply Z.ltb_ge; exact Hguard).
  simpl. rewrite (proj2 (get_Ok _ _ _) (modify_lookup_eq _ _ _ _ Hpn)).
  simpl. rewrite Hhas. reflexivity.
Qed.

Lemma parents_first_modify (f : node → node) (r : ref) (h : heap) :
  (∀ n, parent (f n) = parent n) →
  parents_first h → parents_first (modify f r h).
Proof.
  intros Hf Hpf i n q Hi Hq. rewrite modify_lookup in Hi.
  destruct (decide (r = i)) as [-> |]; [| eauto].
  destruct (h !! i) as [n0 |] eqn:Hn0; [| discriminate].
  injection Hi as <-. rewrite Hf in Hq. eauto.
Qed.

(** The constructor keeps the store in creation order. *)
Lemma new_node_parents_first (env : os_env) (c : node_class)
    (parent_ : option ref) (name_ : string) (group_ : option string)
    (quasi_ : bool) (h : heap) (r : ref) (h' : heap) :
  parents_first h →
  new_node env c parent_ name_ group_ quasi_ h = Ok (r, h') →
  parents_first h'.
Proof.
  intros Hpf H. unfold new_node in H. bind_inv H as base Hbase.
  bind_inv H as anc Hanc. injection H as _ <-.
  apply parents_first_modify; [reflexivity |].
  assert (Happ : parents_first
            (h ++ [{| cls := c; parent := parent_; name := name_;
                      path := abs_path env base name_; group := group_;
                      visited := match group_ with
                                 | Some _ => true
                                 | None => false
                                 end;
                      expanded := match group_ with
                                  | Some _ => true
                                  | None => false
                                  end;
                      collapsed := true; quasi := quasi_;
                      prune_guard := 0; children := []; weight := 0 |}])%list).
  { intros i n q Hi Hq.
    destruct (decide (i < length h)%nat) as [Hlt | Hge].
    - rewrite lookup_app_l in Hi by exact Hlt. eauto.
    - rewrite lookup_app_r in Hi by lia.
      destruct (i - length h)%nat as [| k] eqn:Hk; [| destruct k; discriminate].
      injection Hi as <-. simpl in Hq. subst parent_.
      bind_inv Hbase as pn Hpn. apply get_Ok in Hpn.
      apply lookup_lt_Some in Hpn. lia. }
  destruct parent_ as [p |]; [| exact Happ].
  apply parents_first_modify; [reflexivity | exact Happ].
Qed.

(** [prune] returns: the walk up ends, as parents come first. *)
Lemma prune_go_total (fuel : nat) :
  ∀ h x, parents_first h → x < fuel → x < length h →
         ∃ h', prune_go fuel h x = Ok h'.
Proof.
  induction fuel as [| f IH]; intros h x Hpf Hfuel Hlen; [lia |]. simpl.
  destruct (lookup_lt_is_Some_2 h x Hlen) as [n Hn].
  rewrite (proj2 (get_Ok _ _ _) Hn). simpl.
  destruct (parent n) as [p |] eqn:Hp; [| eauto].
  destruct (_ || _ || _); [eauto |].
  pose proof (Hpf x n p Hn Hp) as Hlt.
  destruct (lookup_lt_is_Some_2 h p ltac:(lia)) as [pn Hpn].
  rewrite (proj2 (get_Ok _ _ _) (modify_lookup_eq _ _ _ _ Hpn)). simpl.
  destruct (Dict.has _ _); [| eauto].
  apply IH.
  - apply parents_first_modify; [reflexivity |].
    apply parents_first_modify; [reflexivity | exact Hpf].
  - lia.
  - unfold modify. rewrite !length_alter. lia.
Qed.

(** [prune] leaves the node it runs on, and every later object, as
    they are: it writes to ancestors only. *)
Lemma prune_go_above (fuel : nat) :
  ∀ h x h', parents_first h → prune_go fuel h x = Ok h' →
            ∀ j, (x ≤ j)%nat → h' !! j = h !! j.
Proof.
  induction fuel as [| f IH]; intros h x h' Hpf H j Hj; simpl in H;
    [discriminate |].
  bind_inv H as n Hn. apply get_Ok in Hn.
  destruct (parent n) as [p |] eqn:Hp; [| injection H as <-; reflexivity].
  destruct (_ || _ || _); [injection H as <-; reflexivity |].
  pose proof (Hpf x n p Hn Hp) as Hlt.
  bind_inv H as pn Hpn.
  assert (Hpf2 : parents_first
            (modify (set_children (Dict.del (name n))) p
               (modify (add_weight (weight n)) p h))).
  { apply parents_first_modify; [reflexivity |].
    apply parents_first_modify; [reflexivity | exact Hpf]. }
  destruct (Dict.has _ _).
  - rewrite (IH _ _ _ Hpf2 H j ltac:(lia)).
    rewrite !modify_lookup.
    destruct (decide (p = j)); [lia | reflexivity].
  - injection H as <-. rewrite modify_lookup.
    destruct (decide (p = j)); [lia | reflexivity].
Qed.

(** X8: the first half of the statement on pruning holds for every leaf
    that [prune] accepts, removed from its parent or not: in a store in
    creation order [prune] returns, and when it does the weight of the
    parent has grown by the weight of the leaf. *)
Lemma prune_parent_weight (h : heap) (c p : ref) (n pn : node) :
  parents_first h →
  h !! c = Some n → parent n = Some p → h !! p = Some pn →
  (prune_guard n <= 0)%Z → children n = [] → visited n = false →
  ∃ h' pn', prune h c = Ok h' ∧ h' !! p = Some pn' ∧
            weight pn' = (weight pn + weight n)%Z.
Proof.
  intros Hpf Hn Hp Hpn Hguard Hch Hv.
  assert (Hlen : c < length h) by (eapply lookup_lt_Some; eauto).
  destruct (prune_go_total (length h) h c Hpf Hlen Hlen) as [h' H].
  exists h'. unfold prune. rewrite H.
  destruct (length h) as [| f]; [lia |]. simpl in H.
  rewrite (proj2 (get_Ok _ _ _) Hn) in H. simpl in H.
  rewrite Hp, Hch, Hv in H.
  replace (0 <? prune_guard n)%Z with false in H
    by (symmetry; apply Z.ltb_ge; exact Hguard).
  simpl in H.
  rewrite (proj2 (get_Ok _ _ _) (modify_lookup_eq _ _ _ _ Hpn)) in H.
  simpl in H.
  assert (Hpf2 : parents_first
            (modify (set_children (Dict.del (name n))) p
               (modify (add_weight (weight n)) p h))).
  { apply parents_first_modify; [reflexivity |].
    apply parents_first_modify; [reflexivity | exact Hpf]. }
  destruct (Dict.has (name n) (children pn)).
  - eexists. split; [reflexivity |].
    rewrite (prune_go_above _ _ _ _ Hpf2 H p ltac:(lia)).
    split; [apply modify_lookup_eq, modify_lookup_eq; exact Hpn |].
    reflexivity.
  - injection H as <-. eexists. split; [reflexivity |].
    split; [apply modify_lookup_eq; exact Hpn | reflexivity].
Qed.

(** C5, evaluated: in the store where [a] (node 1) is guarded and holds
    the leaf [f] (node 2), the first [f.prune()] moves the weight of [f]
    into [a] and the weight of the tree stays 7; [f], now removed, still
    has its parent, no child, no guard and is not visited, and a second
    [f.prune()] adds its weight to [a] again: the tree weighs 10.  This is
    what the pattern [**/**/..] does, which yields [f] three times before
    the parent branch prunes: [a] ends with weight 2 + 3 * 3. *)
Theorem prune_twice_counts_twice :
  tree_weight 5 Examples.guarded_store 0 = 7%Z ∧
  weight_of Examples.guarded_store 2 = 3%Z ∧
  weight_of Examples.guarded_store 1 = 2%Z ∧
  weight_of Examples.pruned_once 1 = 5%Z ∧
  tree_weight 5 Examples.pruned_once 0 = 7%Z ∧
  (∃ n, Examples.pruned_once !! 2 = Some n ∧ parent n = Some 1 ∧
        prune_guard n = 0%Z ∧ children n = [] ∧ visited n = false) ∧
  weight_of Examples.pruned_twice 1 = 8%Z ∧
  tree_weight 5 Examples.pruned_twice 0 = 10%Z ∧
  weight_of Examples.twice_recursive_store 1 = 11%Z.
Proof.
  repeat split; try (vm_compute; reflexivity).
  eexists. vm_compute. repeat split; reflexivity.
Qed.

(** C6, evaluated: over [/w/a/f], after a recursive pattern has added
    the quasi nodes [a] (weight 2) and [f] (weight 3) below the root
    (weight 2), [collapse] on the root removes both and adds the weight
    of [a] only: the root weighs 4 and the 3 of [f] is gone.  The weights
    the grouper returns show it. *)
Theorem collapse_loses_nested_weight :
  weight_of Examples.expanded_store 0 = 2%Z ∧
  weight_of Examples.expanded_store 1 = 2%Z ∧
  weight_of Examples.expanded_store 2 = 3%Z ∧
  is_quasi Examples.expanded_store 1 ∧
  is_quasi Examples.expanded_store 2 ∧
  child_of Examples.expanded_store 0 1 ∧
  child_of Examples.expanded_store 1 2 ∧
  tree_weight 5 Examples.expanded_store 0 = 7%Z ∧
  (children <$> Examples.collapsed_store !! 0) = Some [] ∧
  weight_of Examples.collapsed_store 0 = 4%Z ∧
  tree_weight 5 Examples.collapsed_store 0 = 4%Z ∧
  weights_of
    (FileGrouper Examples.env_nested 10 "."
       (Entry "**/none" (GroupName "g") Empty) false false None module_dicts)
    = Some [(".", 4%Z)].
Proof.
  repeat split; try (vm_compute; reflexivity).
  - eexists. vm_compute. split; reflexivity.
  - eexists. vm_compute. split; reflexivity.
  - eexists _, "a". vm_compute. split; [reflexivity |]. apply list_elem_of_here.
  - eexists _, "f". vm_compute. split; [reflexivity |]. apply list_elem_of_here.
Qed.

(** ** Distinct mode and the default group *)

Lemma Dict_get_set_ne {V} (k k' : string) (v : V) (d : list (string * V)) :
  k ≠ k' → Dict.get k (Dict.set k' v d) = Dict.get k d.
Proof.
  intros Hne. induction d as [| [k0 v0] d IH]; simpl.
  - destruct (String.eqb_spec k k'); [contradiction | reflexivity].
  - destruct (String.eqb_spec k' k0) as [-> | Hk0]; simpl.
    + destruct (String.eqb_spec k k0); [contradiction | reflexivity].
    + destruct (String.eqb_spec k k0); [reflexivity | exact IH].
Qed.

Lemma Dict_get_map_values {V W} (f : V → W) (k : string)
    (d : list (string * V)) :
  Dict.get k (map (fun kv => (kv.1, f kv.2)) d) = f <$> Dict.get k d.
Proof.
  induction d as [| [k0 v0] d IH]; simpl; [reflexivity |].
  destruct (String.eqb k k0); [reflexivity | exact IH].
Qed.

Lemma add_to_group_other (env : os_env) (k name_ path_ : string)
    (s s' : grouper * heap) :
  name_ ≠ k → add_to_group env name_ path_ s = Ok s' →
  Dict.get k (groups s'.1) = Dict.get k (groups s.1).
Proof.
  intros Hne H. unfold add_to_group in H. bind_inv H as root Hroot.
  destruct (Dict.get name_ (groups s.1)); injection H as <-; simpl;
    apply Dict_get_set_ne; congruence.
Qed.

Lemma truthy_ne (x : string) : x ≠ "" → Py.truthy x = true.
Proof.
  intros H. unfold Py.truthy. destruct (String.eqb_spec x ""); [contradiction |].
  reflexivity.
Qed.

(** C2, the claim as stated fails: in distinct mode, with the pattern
    map [{"a": {}}] over [/w/a/f], the directory [a] matched by the key
    of the nested map is visited with the default group and lands in
    [unknown]. *)
Lemma distinct_no_default_claim_fails :
  ¬ distinct_no_default_claim Examples.env_nested 10 "."
      (Entry "a" (Nested Empty) Empty) false None module_dicts.
Proof.
  unfold distinct_no_default_claim. intros H.
  destruct (FileGrouper Examples.env_nested 10 "."
              (Entry "a" (Nested Empty) Empty) false true None module_dicts)
    as [[[g h] d] | e |] eqn:Hrun.
  - specialize (H g h d eq_refl). vm_compute in Hrun.
    injection Hrun as <- _ _. vm_compute in H. discriminate.
  - vm_compute in Hrun. discriminate.
  - vm_compute in Hrun. discriminate.
Qed.

(** C2, amended: in distinct mode, when the pattern map has no nested
    map and every group name written in it is not the default group and
    is, after the overrides, neither empty nor the default group, the
    groups returned hold no entry for the default group: nothing visits
    the paths that no pattern matched. *)
Theorem distinct_flat_no_default (env : os_env) (fuel : nat) (root : string)
    (config : StrTree) (absolute_ : bool) (arg : option nat)
    (dicts : list (gmap string string)) (ov : gmap string string)
    (g : grouper) (h : heap) (d : list (gmap string string)) :
  flat config →
  dicts !! default FileGrouper_default_overrides arg = Some ov →
  (∀ x, x ∈ group_names config →
        x ≠ DEFAULT_GROUP ∧ override ov x ≠ "" ∧
        override ov x ≠ DEFAULT_GROUP) →
  FileGrouper env fuel root config absolute_ true arg dicts = Ok (g, h, d) →
  Dict.get DEFAULT_GROUP (groups g) = None.
Proof.
  intros Hflat Hov Hnames H. unfold FileGrouper in H.
  bind_inv H as [t h0] Hnew.
  replace (match arg with
           | Some r => r
           | None => FileGrouper_default_overrides
           end) with (default FileGrouper_default_overrides arg) in H
    by (destruct arg; reflexivity).
  rewrite Hov in H.
  bind_inv H as s1 Hload. simpl in H. injection H as <- _ _.
  simpl. rewrite Dict_get_map_values.
  set (P := fun gr : grouper => Dict.get DEFAULT_GROUP (groups gr) = None).
  assert (H1 : P s1.1).
  { eapply (load_flat_preserves env P (fun n => n ≠ DEFAULT_GROUP));
      [| exact Hflat | | | exact Hload].
    - intros name_ path_ s s' Hne Hs Ha. unfold P in *.
      rewrite (add_to_group_other _ _ _ _ _ _ Hne Ha). exact Hs.
    - intros x n Hx Hn. destruct (Hnames x Hx) as (Hxd & Hne & Hnd).
      assert (Hsame : override (<[DEFAULT_GROUP := DEFAULT_GROUP]> ov) x
                      = override ov x).
      { unfold override. rewrite lookup_insert_ne by congruence. reflexivity. }
      rewrite Hsame in Hn. destruct Hn as [y ->].
      rewrite or_else_Some_truthy by (apply truthy_ne; exact Hne).
      exact Hnd.
    - reflexivity. }
  unfold P in H1. rewrite H1. reflexivity.
Qed.

Lemma distinct_flat_no_default_witness :
  match FileGrouper Examples.env_nested 10 "."
          (Entry "**/f" (GroupName "leaf") Empty) false true None module_dicts
  with
  | Ok (g, h, d) => Dict.get DEFAULT_GROUP (groups g) = None
  | _ => False
  end.
Proof.
  destruct (FileGrouper Examples.env_nested 10 "."
              (Entry "**/f" (GroupName "leaf") Empty) false true None
              module_dicts) as [[[g h] d] | e |] eqn:Hrun.
  - apply (distinct_flat_no_default Examples.env_nested 10 "."
             (Entry "**/f" (GroupName "leaf") Empty) false None module_dicts
             ∅ g h d).
    + exact I.
    + reflexivity.
    + intros x Hx. apply list_elem_of_singleton in Hx. subst x.
      repeat split; vm_compute; discriminate.
    + exact Hrun.
  - vm_compute in Hrun. discriminate.
  - vm_compute in Hrun. discriminate.
Defined.

(** ** What the operations keep of the nodes already in the store *)

Section Frame.

Variable env : os_env.

(** [F n n'] relates a node to what it has become. *)
Variable F : node → node → Prop.
Hypothesis F_refl : ∀ n, F n n.
Hypothesis F_trans : ∀ a b c, F a b → F b c → F a c.

Lemma keeps_refl (h : heap) : keeps F h h.
Proof. intros r n H. eauto. Qed.

Lemma keeps_trans (h1 h2 h3 : heap) :
  keeps F h1 h2 → keeps F h2 h3 → keeps F h1 h3.
Proof.
  intros H12 H23 r n H. destruct (H12 r n H) as (n2 & H2 & F2).
  destruct (H23 r n2 H2) as (n3 & H3 & F3). eauto.
Qed.

Lemma keeps_modify (f : node → node) (r : ref) (h : heap) :
  (∀ n, F n (f n)) → keeps F h (modify f r h).
Proof.
  intros Hf r' n H. rewrite modify_lookup.
  destruct (decide (r = r')) as [-> |]; [| eauto].
  rewrite H. simpl. eauto.
Qed.

Lemma keeps_app (h l : heap) : keeps F h (h ++ l).
Proof.
  intros r n H. exists n. split; [| apply F_refl].
  apply lookup_app_l_Some. exact H.
Qed.

Lemma keeps_foldl_modify (f : node → node) (rs : list ref) (h : heap) :
  (∀ n, F n (f n)) → keeps F h (foldl (fun h p => modify f p h) h rs).
Proof.
  intros Hf. revert h. induction rs as [| r rs IH]; intros h; simpl.
  - apply keeps_refl.
  - eapply keeps_trans; [apply keeps_modify; exact Hf | apply IH].
Qed.

Lemma for_each_keeps {X} (body : X → heap → outcome heap) (xs : list X) :
  (∀ x h h', body x h = Ok h' → keeps F h h') →
  ∀ h h', for_each xs body h = Ok h' → keeps F h h'.
Proof.
  intros Hbody h h' H.
  eapply (for_each_preserves (fun h1 => keeps F h h1) body xs);
    [| | exact H].
  - intros x h1 h2 H1 Hb. eapply keeps_trans; eauto.
  - apply keeps_refl.
Qed.

Hypothesis F_quasi : ∀ n, F n (set_quasi false n).
Hypothesis F_weight : ∀ d n, F n (add_weight d n).
Hypothesis F_set : ∀ k v n, F n (set_children (Dict.set k v) n).
Hypothesis F_del : ∀ k n, F n (set_children (Dict.del k) n).
Hypothesis F_unexpanded : ∀ n, F n (set_expanded false n).
Hypothesis F_collapsed : ∀ n, F n (set_collapsed true n).

Lemma observe_up_keeps (fuel : nat) :
  ∀ h cursor h', observe_up fuel h cursor = Ok h' → keeps F h h'.
Proof.
  induction fuel as [| f IH]; intros h cursor h' H;
    destruct cursor as [c |]; simpl in H; try discriminate.
  - injection H as <-. apply keeps_refl.
  - bind_inv H as n Hn. destruct (negb (quasi n)).
    + injection H as <-. apply keeps_refl.
    + eapply keeps_trans; [apply keeps_modify, F_quasi | eauto].
  - injection H as <-. apply keeps_refl.
Qed.

Lemma observe_keeps (h : heap) (self : ref) (h' : heap) :
  observe h self = Ok h' → keeps F h h'.
Proof.
  unfold observe. intros H. bind_inv H as n Hn. destruct (negb (quasi n)).
  - injection H as <-. apply keeps_refl.
  - eapply keeps_trans; [apply keeps_modify, F_quasi |].
    eapply observe_up_keeps; eauto.
Qed.

Lemma collapse_keeps (fuel : nat) :
  ∀ h self h', collapse fuel h self = Ok h' → keeps F h h'.
Proof.
  induction fuel as [| f IH]; intros h self h' H; simpl in H;
    [discriminate |].
  bind_inv H as n Hn. destruct (collapsed n || visited n).
  - injection H as <-. apply keeps_refl.
  - bind_inv H as h1 Hloop. injection H as <-.
    eapply keeps_trans; [| eapply keeps_trans;
      [apply keeps_modify, F_unexpanded
      | apply keeps_modify, F_collapsed]].
    revert Hloop. apply for_each_keeps.
    intros [name_ child] h0 h0' Hb. bind_inv Hb as cn Hcn.
    destruct (quasi cn).
    + bind_inv Hb as sn Hsn. destruct (Dict.has name_ (children sn));
        [| discriminate].
      injection Hb as <-.
      eapply keeps_trans; apply keeps_modify; auto.
    + destruct (negb (collapsed cn)); [eauto |].
      injection Hb as <-. apply keeps_refl.
Qed.

Lemma new_node_keeps (c : node_class) (parent_ : option ref) (name_ : string)
    (group_ : option string) (quasi_ : bool) (h : heap) (r : ref) (h' : heap) :
  new_node env c parent_ name_ group_ quasi_ h = Ok (r, h') → keeps F h h'.
Proof.
  unfold new_node. intros H. bind_inv H as base Hbase.
  bind_inv H as anc Hanc. injection H as _ <-.
  eapply keeps_trans; [| apply keeps_modify, F_weight].
  destruct parent_ as [p |].
  - eapply keeps_trans; [apply keeps_app | apply keeps_modify, F_set].
  - apply keeps_app.
Qed.

Lemma get_child_keeps (h : heap) (self : ref) (name_ : string)
    (group_ : option string) (quasi_ : option bool) (r : ref) (h' : heap) :
  get_child env h self name_ group_ quasi_ = Ok (r, h') → keeps F h h'.
Proof.
  unfold get_child. intros H. bind_inv H as n Hn.
  destruct (Dict.get name_ (children n)).
  - injection H as _ <-. apply keeps_refl.
  - eapply new_node_keeps; eauto.
Qed.

End Frame.

Lemma same_class_refl (n : node) : same_class n n.
Proof. reflexivity. Qed.

Lemma same_class_trans (a b c : node) :
  same_class a b → same_class b c → same_class a c.
Proof. unfold same_class. congruence. Qed.

Lemma same_marks_refl (n : node) : same_marks n n.
Proof. repeat split. Qed.

Lemma same_marks_trans (a b c : node) :
  same_marks a b → same_marks b c → same_marks a c.
Proof. unfold same_marks. intuition congruence. Qed.

Lemma add_to_group_heap (env : os_env) (name_ path_ : string)
    (s s' : grouper * heap) :
  add_to_group env name_ path_ s = Ok s' → s'.2 = s.2.
Proof.
  unfold add_to_group. intros H. bind_inv H as root Hroot.
  destruct (Dict.get name_ (groups s.1)); injection H as <-; reflexivity.
Qed.

Lemma observe_class (h : heap) (self : ref) (h' : heap) :
  observe h self = Ok h' → keeps same_class h h'.
Proof.
  apply observe_keeps;
    [exact same_class_refl | exact same_class_trans | reflexivity].
Qed.

Lemma collapse_marks (fuel : nat) (h : heap) (self : ref) (h' : heap) :
  collapse fuel h self = Ok h' → keeps same_marks h h'.
Proof.
  apply collapse_keeps;
    try exact same_marks_refl; try exact same_marks_trans;
    intros; repeat split.
Qed.

Lemma keeps_marks_class (h h' : heap) :
  keeps same_marks h h' → keeps same_class h h'.
Proof.
  intros H r n Hn. destruct (H r n Hn) as (n' & Hn' & Hc & _). eauto.
Qed.

Lemma get_child_class (env : os_env) (h : heap) (self : ref) (name_ : string)
    (group_ : option string) (quasi_ : option bool) (r : ref) (h' : heap) :
  get_child env h self name_ group_ quasi_ = Ok (r, h') →
  keeps same_class h h'.
Proof.
  apply get_child_keeps;
    [exact same_class_refl | exact same_class_trans | reflexivity
    | reflexivity].
Qed.

Lemma visit_class (env : os_env) (fuel : nat) :
  ∀ self group_ s s',
    visit env fuel self group_ s = Ok s' → keeps same_class s.2 s'.2.
Proof.
  pose proof same_class_refl as Hrefl. pose proof same_class_trans as Htrans.
  induction fuel as [| f IH]; intros self group_ s s' H; simpl in H;
    [discriminate |].
  bind_inv H as n Hn. destruct (cls n).
  - destruct (visited n); [injection H as <-; apply keeps_refl; auto |].
    bind_inv H as h1 Hobs. bind_inv H as h2 Hcol. bind_inv H as n2 Hn2.
    assert (H02 : keeps same_class s.2 h2).
    { eapply keeps_trans; [auto | eapply observe_class; eauto |].
      eapply keeps_marks_class, collapse_marks; eauto. }
    destruct (length (children n2) <=? 0)%nat.
    { injection H as <-. simpl.
      eapply keeps_trans; [auto | exact H02 |].
      do 2 (eapply keeps_trans; [auto | | apply keeps_modify; reflexivity]).
      apply keeps_refl; auto. }
    bind_inv H as items Hitems. bind_inv H as s3 Hloop.
    bind_inv H as n3 Hn3. injection H as <-. simpl.
    assert (H23 : keeps same_class h2 s3.2).
    { destruct items as [| item items].
      - eapply (for_children_preserves (fun t => keeps same_class h2 t.2));
          [| | exact Hloop].
        + intros c t t' Ht Hv.
          eapply keeps_trans; [auto | exact Ht | apply (IH _ _ _ _ Hv)].
        + apply keeps_refl; auto.
      - eapply (for_each_preserves (fun t => keeps same_class h2 t.2));
          [| | exact Hloop].
        + intros x t t' Ht Hv. bind_inv Hv as [c h'] Hc.
          eapply keeps_trans; [auto | exact Ht |].
          eapply keeps_trans; [auto | eapply get_child_class; eauto |].
          apply (IH _ _ _ _ Hv).
        + apply keeps_refl; auto. }
    eapply keeps_trans; [auto | exact H02 |].
    eapply keeps_trans; [auto | exact H23 |].
    do 4 (eapply keeps_trans; [auto | | apply keeps_modify; reflexivity]).
    apply keeps_refl; auto.
  - bind_inv H as h1 Hobs. bind_inv H as h2 Hcol. bind_inv H as n2 Hn2.
    assert (H02 : keeps same_class s.2 h2).
    { eapply keeps_trans; [auto | eapply observe_class; eauto |].
      eapply keeps_marks_class, collapse_marks; eauto. }
    destruct (group n2).
    + injection H as <-. exact H02.
    + rewrite (add_to_group_heap _ _ _ _ _ H). simpl.
      eapply keeps_trans; [auto | exact H02 |].
      apply keeps_modify; reflexivity.
Qed.

(** ** [visit] twice *)

Lemma observe_done (h : heap) (self : ref) (h' : heap) :
  observe h self = Ok h' → ∃ n', h' !! self = Some n' ∧ quasi n' = false.
Proof.
  unfold observe. intros H. bind_inv H as n Hn. apply get_Ok in Hn.
  destruct (quasi n) eqn:Hq; simpl in H.
  - assert (Hk : keeps stays_observed (modify (set_quasi false) self h) h').
    { eapply (observe_up_keeps stays_observed); [| | | exact H].
      - intros x Hx. exact Hx.
      - unfold stays_observed. intros a b c Hab Hbc Ha. auto.
      - intros x _. reflexivity. }
    destruct (Hk self _ (modify_lookup_eq _ _ _ _ Hn)) as (n' & Hn' & Hf).
    exists n'. split; [exact Hn' |]. apply Hf. reflexivity.
  - injection H as <-. eauto.
Qed.

Lemma collapse_done (fuel : nat) (h : heap) (self : ref) (h' : heap) :
  collapse fuel h self = Ok h' →
  ∃ n', h' !! self = Some n' ∧ collapsed n' || visited n' = true.
Proof.
  destruct fuel as [| f]; simpl; [discriminate |]. intros H.
  bind_inv H as n Hn. apply get_Ok in Hn.
  destruct (collapsed n || visited n) eqn:Hc.
  - injection H as <-. eauto.
  - bind_inv H as h1 Hloop. injection H as <-.
    assert (Hk : keeps same_class h h1).
    { revert Hloop. apply for_each_keeps;
        [exact same_class_refl | exact same_class_trans |].
      intros [name_ child] h0 h0' Hb. bind_inv Hb as cn Hcn.
      destruct (quasi cn).
      - bind_inv Hb as sn Hsn.
        destruct (Dict.has name_ (children sn)); [| discriminate].
        injection Hb as <-.
        eapply keeps_trans; [exact same_class_trans | |];
          apply keeps_modify; reflexivity.
      - destruct (negb (collapsed cn)).
        + eapply keeps_marks_class, collapse_marks; eauto.
        + injection Hb as <-. apply keeps_refl. exact same_class_refl. }
    destruct (Hk self n Hn) as (n1 & Hn1 & _).
    eexists. split.
    + apply modify_lookup_eq, modify_lookup_eq. exact Hn1.
    + reflexivity.
Qed.

Lemma observe_noop (h : heap) (self : ref) (n : node) :
  h !! self = Some n → quasi n = false → observe h self = Ok h.
Proof.
  intros Hn Hq. unfold observe. apply get_Ok in Hn. rewrite Hn. simpl.
  rewrite Hq. reflexivity.
Qed.

Lemma collapse_noop (fuel : nat) (h : heap) (self : ref) (n : node) :
  h !! self = Some n → collapsed n || visited n = true →
  collapse (S fuel) h self = Ok h.
Proof.
  intros Hn Hc. simpl. apply get_Ok in Hn. rewrite Hn. simpl.
  rewrite Hc. reflexivity.
Qed.

Lemma visit_again_distinct (env : os_env) (fuel : nat) (self : ref)
    (group_ : option string) (gr : grouper) (h : heap) (n : node) (x : string) :
  h !! self = Some n → cls n = DistinctFileTreeNode → quasi n = false →
  collapsed n || visited n = true → group n = Some x →
  visit env (S (S fuel)) self group_ (gr, h) = Ok (gr, h).
Proof.
  intros Hn Hc Hq Hcol Hg.
  cbn [visit]. cbn [snd fst]. rewrite (proj2 (get_Ok _ _ _) Hn). cbn [bind].
  rewrite Hc. rewrite (observe_noop _ _ _ Hn Hq). cbn [bind].
  rewrite (collapse_noop _ _ _ _ Hn Hcol). cbn [bind].
  rewrite (proj2 (get_Ok _ _ _) Hn). cbn [bind]. rewrite Hg. reflexivity.
Qed.

Lemma visit_again (env : os_env) (fuel : nat) (self : ref)
    (group_ : option string) (s s' : grouper * heap) :
  visit env fuel self group_ s = Ok s' →
  visit env fuel self group_ s' = Ok s'.
Proof.
  destruct fuel as [| f]; [discriminate |]. intros H.
  pose proof H as Hfirst. cbn [visit] in H.
  bind_inv H as n Hn. pose proof (proj1 (get_Ok _ _ _) Hn) as Hn0.
  destruct (cls n) eqn:Hcls.
  - (* FileTreeNode *)
    assert (Hdone : ∀ n', s'.2 !! self = Some n' → cls n' = FileTreeNode →
                          visited n' = true →
                          visit env (S f) self group_ s' = Ok s').
    { intros n' Hn' Hc' Hv'. cbn [visit].
      rewrite (proj2 (get_Ok _ _ _) Hn'). cbn [bind]. rewrite Hc', Hv'.
      reflexivity. }
    destruct (visited n) eqn:Hv.
    { injection H as <-. eapply Hdone; eauto. }
    destruct (visit_class _ _ _ _ _ _ Hfirst self n Hn0) as (n' & Hn' & Hc').
    unfold same_class in Hc'. rewrite Hcls in Hc'.
    apply (Hdone n' Hn' Hc').
    bind_inv H as h1 Hobs. bind_inv H as h2 Hcol. bind_inv H as n2 Hn2.
    apply get_Ok in Hn2.
    destruct (length (children n2) <=? 0)%nat.
    + injection H as <-. cbn [snd] in Hn'.
      rewrite (modify_lookup_eq _ _ _ _
                 (modify_lookup_eq _ _ _ _ Hn2)) in Hn'.
      injection Hn' as <-. reflexivity.
    + bind_inv H as items Hitems. bind_inv H as s3 Hloop.
      bind_inv H as n3 Hn3. apply get_Ok in Hn3. injection H as <-.
      cbn [snd] in Hn'.
      rewrite (modify_lookup_eq _ _ _ _ (modify_lookup_eq _ _ _ _
                 (modify_lookup_eq _ _ _ _
                    (modify_lookup_eq _ _ _ _ Hn3)))) in Hn'.
      injection Hn' as <-. reflexivity.
  - (* DistinctFileTreeNode *)
    bind_inv H as h1 Hobs. bind_inv H as h2 Hcol. bind_inv H as n2 Hn2.
    apply get_Ok in Hn2.
    destruct f as [| f']; [discriminate |].
    destruct (observe_done _ _ _ Hobs) as (n1 & Hn1 & Hq1).
    destruct (observe_class _ _ _ Hobs self n Hn0) as (n1' & Hn1' & Hc1).
    rewrite Hn1 in Hn1'. injection Hn1' as <-.
    destruct (collapse_marks _ _ _ _ Hcol self n1 Hn1)
      as (n2' & Hn2' & Hc2 & Hq2 & _).
    rewrite Hn2 in Hn2'. injection Hn2' as <-.
    destruct (collapse_done _ _ _ _ Hcol) as (n2' & Hn2' & Hdone).
    rewrite Hn2 in Hn2'. injection Hn2' as <-.
    assert (Hcls2 : cls n2 = DistinctFileTreeNode).
    { rewrite Hc2. unfold same_class in Hc1. congruence. }
    assert (Hquasi2 : quasi n2 = false) by congruence.
    destruct (group n2) as [x |] eqn:Hg.
    + injection H as <-. destruct s as [gr h]. cbn [fst snd] in *.
      eapply visit_again_distinct; eauto.
    + pose proof (add_to_group_heap _ _ _ _ _ H) as Hheap.
      destruct s' as [gr' h']. cbn [fst snd] in Hheap. subst h'.
      eapply (visit_again_distinct env f' self group_ gr' _
                (set_group (Some (or_else group_ DEFAULT_GROUP)) n2)).
      * apply modify_lookup_eq. exact Hn2.
      * exact Hcls2.
      * exact Hquasi2.
      * exact Hdone.
      * reflexivity.
Qed.

(** C7: calling [visit] twice in succession with the same argument is
    the same as calling it once, for a node of either class: the store of
    nodes and the grouper (its groups and weights) come out equal, and a
    first call that raises or does not return is all there is. *)
Theorem visit_idempotent (env : os_env) (fuel : nat) (self : ref)
    (group_ : option string) (s : grouper * heap) :
  (do s' <- visit env fuel self group_ s; visit env fuel self group_ s') =
  visit env fuel self group_ s.
Proof.
  destruct (visit env fuel self group_ s) as [s' | e |] eqn:H; simpl;
    [| reflexivity | reflexivity].
  exact (visit_again env fuel self group_ s s' H).
Qed.

(** Both classes do return on the examples: the root over [/w] holding
    [a] and [b], visited twice. *)
Example visit_twice_returns :
  ∀ c, ∃ s',
    visit Examples.env_flat 5 0 (Some "g")
      ({| tree := 0; absolute := false; groups := []; weights := [];
          overrides := 0 |}, Examples.root_only Examples.env_flat c) = Ok s' ∧
    visit Examples.env_flat 5 0 (Some "g") s' = Ok s'.
Proof.
  intros c. destruct c; eexists; (split; [vm_compute; reflexivity |]);
    vm_compute; reflexivity.
Qed.

(** ** The flag [collapsed] *)

(** C4, the claim as stated fails: after [expand] on the root of an
    empty directory the root is not collapsed, and it has no descendant
    at all. *)
Lemma collapsed_iff_no_quasi_claim_fails :
  ¬ collapsed_iff_no_quasi_claim Examples.expanded_empty.
Proof.
  intros H.
  assert (Hroot : ∃ n, Examples.expanded_empty !! 0 = Some n ∧
                       collapsed n = false ∧ children n = []).
  { eexists. vm_compute. repeat split; reflexivity. }
  destruct Hroot as (n & Hn & Hc & Hch).
  destruct (H 0 n Hn) as [_ Hback].
  rewrite Hback in Hc; [discriminate |].
  intros d Hd. exfalso.
  assert (Hnone : ∀ c, ¬ child_of Examples.expanded_empty 0 c).
  { intros c (n0 & k & Hn0 & Hin). rewrite Hn in Hn0. injection Hn0 as <-.
    rewrite Hch in Hin. inversion Hin. }
  induction Hd as [c Hc0 | c d Hd IH Hcd]; [eapply Hnone; eauto | exact IH].
Qed.

(** The other direction is not kept by [glob_children] either: a node
    located below a quasi node takes the [quasi] flag of its parent, and
    is created collapsed.  After the two patterns of [relocated_store] the
    node of [f] is collapsed and its child [x] is quasi. *)
Lemma collapsed_with_quasi_child :
  (∃ n, Examples.relocated_store !! 5 = Some n ∧ path n = "/w/a/b/f" ∧
        collapsed n = true ∧ children n = [("x", 6)]) ∧
  (∃ n, Examples.relocated_store !! 6 = Some n ∧ path n = "/w/a/b/f/x" ∧
        quasi n = true) ∧
  ¬ collapsed_iff_no_quasi_claim Examples.relocated_store.
Proof.
  assert (H5 : ∃ n, Examples.relocated_store !! 5 = Some n ∧
                    path n = "/w/a/b/f" ∧ collapsed n = true ∧
                    children n = [("x", 6)]).
  { eexists. vm_compute. repeat split; reflexivity. }
  assert (H6 : ∃ n, Examples.relocated_store !! 6 = Some n ∧
                    path n = "/w/a/b/f/x" ∧ quasi n = true).
  { eexists. vm_compute. repeat split; reflexivity. }
  split; [exact H5 |]. split; [exact H6 |].
  intros H. destruct H5 as (n5 & Hn5 & _ & Hc5 & Hch5).
  destruct H6 as (n6 & Hn6 & _ & Hq6).
  destruct (H 5 n5 Hn5) as [Hforward _].
  apply (Hforward Hc5 6).
  - apply descendant_child. exists n5, "x". split; [exact Hn5 |].
    rewrite Hch5. apply list_elem_of_here.
  - exists n6. split; [exact Hn6 | exact Hq6].
Qed.

Lemma Dict_del_sublist {V} (k : string) (d : list (string * V)) :
  sublist (Dict.del k d) d.
Proof.
  induction d as [| [k0 v0] d IH]; simpl; [constructor |].
  destruct (String.eqb k k0).
  - apply sublist_cons. reflexivity.
  - apply sublist_skip. exact IH.
Qed.

Lemma Dict_del_not_in {V} (k : string) (v : V) (d : list (string * V)) :
  NoDup d.*1 → (k, v) ∉ Dict.del k d.
Proof.
  induction d as [| [k0 v0] d IH]; simpl; intros Hnd Hin.
  - inversion Hin.
  - apply NoDup_cons in Hnd as [Hk0 Hnd].
    destruct (String.eqb_spec k k0) as [-> | Hne].
    + apply Hk0. apply list_elem_of_fmap. exists (k0, v). auto.
    + apply elem_of_cons in Hin as [Heq | Hin].
      * congruence.
      * exact (IH Hnd Hin).
Qed.

Lemma shrinks_refl (n : node) : shrinks n n.
Proof. split; [apply same_marks_refl | reflexivity]. Qed.

Lemma shrinks_trans (a b c : node) : shrinks a b → shrinks b c → shrinks a c.
Proof.
  intros [M1 S1] [M2 S2]. split.
  - eapply same_marks_trans; eauto.
  - etransitivity; eauto.
Qed.

Lemma collapse_shrinks (fuel : nat) (h : heap) (self : ref) (h' : heap) :
  collapse fuel h self = Ok h' → keeps shrinks h h'.
Proof.
  apply collapse_keeps;
    try exact shrinks_refl; try exact shrinks_trans;
    intros; (split; [repeat split | simpl; try reflexivity]).
  apply Dict_del_sublist.
Qed.

Lemma collapse_loop_post (fuel : nat) (self : ref) :
  ∀ (items : list (string * ref)) (h0 h1 : heap),
    for_each items
      (fun '(name_, child) h =>
         do cn <- get h child;
         if quasi cn then
           do sn <- get h self;
           if Dict.has name_ (children sn)
           then Ok (modify (set_children (Dict.del name_)) self
                      (modify (add_weight (weight cn)) self h))
           else Raise KeyError
         else if negb (collapsed cn) then collapse fuel h child
         else Ok h) h0 = Ok h1 →
    (∃ sn, h0 !! self = Some sn ∧ NoDup (children sn).*1) →
    keeps shrinks h0 h1 ∧
    ∀ k c, (k, c) ∈ items → ∀ sn1, h1 !! self = Some sn1 →
           (k, c) ∈ children sn1 →
           ∃ cn, h1 !! c = Some cn ∧ quasi cn = false.
Proof.
  induction items as [| [k c] rest IH]; intros h0 h1 H (sn & Hsn & Hnd);
    simpl in H.
  - injection H as <-. split.
    + apply keeps_refl, shrinks_refl.
    + intros k c Hin. inversion Hin.
  - bind_inv H as hm Hstep.
    assert (Hfacts : keeps shrinks h0 hm ∧
              ∀ snm, hm !! self = Some snm → (k, c) ∈ children snm →
                     ∃ cn, hm !! c = Some cn ∧ quasi cn = false).
    { bind_inv Hstep as cn Hcn. apply get_Ok in Hcn.
      destruct (quasi cn) eqn:Hq.
      - bind_inv Hstep as sn0 Hsn0. apply get_Ok in Hsn0.
        destruct (Dict.has k (children sn0)); [| discriminate].
        injection Hstep as <-. split.
        + eapply keeps_trans; [exact shrinks_trans | |];
            apply keeps_modify; intros x;
            (split; [repeat split | simpl; try reflexivity]).
          apply Dict_del_sublist.
        + intros snm Hsnm Hin. exfalso.
          rewrite (modify_lookup_eq _ _ _ _
                     (modify_lookup_eq _ _ _ _ Hsn0)) in Hsnm.
          injection Hsnm as <-. simpl in Hin.
          rewrite Hsn in Hsn0. injection Hsn0 as <-.
          exact (Dict_del_not_in _ _ _ Hnd Hin).
      - assert (Hk : keeps shrinks h0 hm).
        { destruct (negb (collapsed cn)).
          - eapply collapse_shrinks; eauto.
          - injection Hstep as <-. apply keeps_refl, shrinks_refl. }
        split; [exact Hk |]. intros snm Hsnm Hin.
        destruct (Hk c cn Hcn) as (cn' & Hcn' & (_ & Hq' & _) & _).
        exists cn'. split; [exact Hcn' | congruence]. }
    destruct Hfacts as [Hk0 Hpost].
    destruct (Hk0 self sn Hsn) as (snm & Hsnm & _ & Hsub).
    destruct (IH hm h1 H) as [Hk1 Hrest].
    { exists snm. split; [exact Hsnm |].
      eapply sublist_NoDup; [exact Hnd |]. apply fmap_sublist. exact Hsub. }
    split; [eapply keeps_trans; [exact shrinks_trans | eauto | eauto] |].
    intros k' c' Hin sn1 Hsn1 Hin1.
    apply elem_of_cons in Hin as [Heq | Hin]; [| eauto].
    injection Heq as -> ->.
    destruct (Hk1 self snm Hsnm) as (sn1' & Hsn1' & _ & Hsub1).
    rewrite Hsn1 in Hsn1'. injection Hsn1' as <-.
    destruct (Hpost snm Hsnm) as (cn & Hcn & Hq).
    { eapply elem_of_sublist; eauto. }
    destruct (Hk1 c cn Hcn) as (cn1 & Hcn1 & (_ & Hq1 & _) & _).
    exists cn1. split; [exact Hcn1 | congruence].
Qed.

(** After [collapse] has run on a node that was neither collapsed nor
    visited, the node is collapsed and none of its children is quasi. *)
Lemma collapse_post (fuel : nat) (h : heap) (self : ref) (n : node)
    (h' : heap) :
  h !! self = Some n → collapsed n = false → visited n = false →
  NoDup (children n).*1 →
  collapse fuel h self = Ok h' →
  ∃ n', h' !! self = Some n' ∧ collapsed n' = true ∧
        ∀ k c, (k, c) ∈ children n' →
               ∃ cn, h' !! c = Some cn ∧ quasi cn = false.
Proof.
  intros Hn Hc Hv Hnd H. destruct fuel as [| f]; [discriminate |].
  simpl in H. rewrite (proj2 (get_Ok _ _ _) Hn) in H. simpl in H.
  rewrite Hc, Hv in H. simpl in H.
  bind_inv H as h1 Hloop. injection H as <-.
  destruct (collapse_loop_post f self _ _ _ Hloop) as [Hk Hpost]; [eauto |].
  destruct (Hk self n Hn) as (n1 & Hn1 & _ & Hsub).
  eexists. split; [apply modify_lookup_eq, modify_lookup_eq; exact Hn1 |].
  split; [reflexivity |]. simpl. intros k c Hin.
  destruct (Hpost k c (elem_of_sublist _ _ _ Hin Hsub) n1 Hn1 Hin)
    as (cn & Hcn & Hq).
  assert (Hkeep : keeps same_marks h1
            (modify (set_collapsed true) self
               (modify (set_expanded false) self h1))).
  { eapply keeps_trans; [exact same_marks_trans | |];
      apply keeps_modify; intros x; repeat split. }
  destruct (Hkeep c cn Hcn) as (cn' & Hcn' & _ & Hq' & _).
  exists cn'. split; [exact Hcn' | congruence].
Qed.

Lemma ancestor_of_inv (h : heap) (r a : ref) :
  ancestor_of h r a →
  ∃ n p, h !! r = Some n ∧ parent n = Some p ∧ (a = p ∨ ancestor_of h p a).
Proof. intros H. inversion H; subst; eauto 6. Qed.

Lemma ancestor_of_trans (h : heap) (r a b : ref) :
  ancestor_of h r a → ancestor_of h a b → ancestor_of h r b.
Proof.
  intros Hra Hab. induction Hra as [r n p Hr Hp | r n p a Hr Hp Hpa IH].
  - eapply ancestor_up; eauto.
  - eapply ancestor_up; eauto.
Qed.

Lemma ancestors_go_spec (fuel : nat) :
  ∀ (h : heap) (cursor : option ref) (l : list ref),
    ancestors_go fuel h cursor = Ok l →
    ∀ a, (a ∈ l ↔ chain_from h cursor a) ∧
         (a ∈ l → ∃ an, h !! a = Some an).
Proof.
  induction fuel as [| f IH]; intros h cursor l H a;
    destruct cursor as [c |]; simpl in H; try discriminate.
  - injection H as <-. simpl. split; [| intros Hin; inversion Hin].
    split; [intros Hin; inversion Hin | tauto].
  - bind_inv H as n Hn. apply get_Ok in Hn. bind_inv H as rest Hrest.
    injection H as <-. destruct (IH _ _ _ Hrest a) as [Hiff Hex].
    split; [split |].
    + intros Hin. apply elem_of_cons in Hin as [-> | Hin]; [left; reflexivity |].
      right. apply Hiff in Hin. destruct (parent n) as [p |] eqn:Hp;
        [| destruct Hin].
      destruct Hin as [-> | Hin].
      * eapply ancestor_parent; eauto.
      * eapply ancestor_up; eauto.
    + intros [-> | Hanc]; [apply list_elem_of_here |].
      apply list_elem_of_further. apply Hiff.
      destruct (ancestor_of_inv _ _ _ Hanc) as (n0 & p & Hn0 & Hp & Hcase).
      rewrite Hn in Hn0. injection Hn0 as <-. rewrite Hp. exact Hcase.
    + intros Hin. apply elem_of_cons in Hin as [-> | Hin]; eauto.
  - injection H as <-. simpl. split; [| intros Hin; inversion Hin].
    split; [intros Hin; inversion Hin | tauto].
Qed.

Lemma ancestors_spec (h : heap) (self : ref) (l : list ref) :
  ancestors h self = Ok l →
  ∀ a, (a ∈ l ↔ ancestor_of h self a) ∧ (a ∈ l → ∃ an, h !! a = Some an).
Proof.
  unfold ancestors. intros H a. bind_inv H as n Hn. apply get_Ok in Hn.
  destruct (ancestors_go_spec _ _ _ _ H a) as [Hiff Hex].
  split; [| exact Hex]. rewrite Hiff.
  destruct (parent n) as [p |] eqn:Hp; simpl.
  - split.
    + intros [-> | Hanc]; [eapply ancestor_parent | eapply ancestor_up]; eauto.
    + intros Hanc.
      destruct (ancestor_of_inv _ _ _ Hanc) as (n0 & q & Hn0 & Hq & Hcase).
      rewrite Hn in Hn0. injection Hn0 as <-.
      rewrite Hp in Hq. injection Hq as <-. exact Hcase.
  - split; [tauto |]. intros Hanc.
    destruct (ancestor_of_inv _ _ _ Hanc) as (n0 & q & Hn0 & Hq & _).
    congruence.
Qed.

Lemma ancestor_of_keeps (F : node → node → Prop) (h h' : heap) :
  (∀ n n', F n n' → parent n' = parent n) →
  keeps F h h' → ∀ r a, ancestor_of h r a → ancestor_of h' r a.
Proof.
  intros HF Hk r a H.
  induction H as [r n p Hr Hp | r n p a Hr Hp Hpa IH];
    destruct (Hk r n Hr) as (n' & Hn' & HFn); apply HF in HFn.
  - apply (ancestor_parent h' r n' p); [exact Hn' | congruence].
  - apply (ancestor_up h' r n' p a); [exact Hn' | congruence | exact IH].
Qed.

Lemma foldl_uncollapse_lookup (l : list ref) :
  ∀ (h : heap) (r : ref),
    foldl (fun h p => modify (set_collapsed false) p h) h l !! r =
    if decide (r ∈ l) then set_collapsed false <$> h !! r else h !! r.
Proof.
  induction l as [| x l IH]; intros h r; simpl.
  - destruct (decide (r ∈ [])) as [Hin |]; [inversion Hin | reflexivity].
  - rewrite IH, modify_lookup.
    repeat case_decide; subst; try reflexivity;
      try (exfalso;
           match goal with
           | H : ?r ∉ ?x :: ?l |- _ =>
               apply H;
               first [apply list_elem_of_here
                     | apply list_elem_of_further; assumption]
           | H : ?r ∈ ?x :: ?l |- _ =>
               apply elem_of_cons in H as [? | ?]; congruence
           end).
    destruct (h !! r); reflexivity.
Qed.

Lemma uncollapses_refl (n : node) : uncollapses n n.
Proof. split; auto. Qed.

Lemma uncollapses_trans (a b c : node) :
  uncollapses a b → uncollapses b c → uncollapses a c.
Proof. intros [P1 C1] [P2 C2]. split; [congruence | auto]. Qed.

Lemma uncollapses_parent (n n' : node) :
  uncollapses n n' → parent n' = parent n.
Proof. intros [H _]. exact H. Qed.

Lemma same_collapsed_refl (n : node) : same_collapsed n n.
Proof. split; reflexivity. Qed.

Lemma same_collapsed_trans (a b c : node) :
  same_collapsed a b → same_collapsed b c → same_collapsed a c.
Proof. intros [P1 C1] [P2 C2]. split; congruence. Qed.

Lemma grows_refl (h : heap) : grows h h.
Proof.
  split; [apply keeps_refl, uncollapses_refl |].
  intros r n n' Hn Hn' Hc Hc'. rewrite Hn in Hn'. injection Hn' as <-.
  congruence.
Qed.

Lemma grows_trans (h1 h2 h3 : heap) : grows h1 h2 → grows h2 h3 → grows h1 h3.
Proof.
  intros [K12 C12] [K23 C23].
  split; [eapply keeps_trans; [exact uncollapses_trans | eauto | eauto] |].
  intros r n n3 Hn Hn3 Hc Hc3 a Ha.
  destruct (K12 r n Hn) as (n2 & Hn2 & _).
  destruct (collapsed n2) eqn:Hc2.
  - apply (C23 r n2 n3 Hn2 Hn3 Hc2 Hc3).
    eapply ancestor_of_keeps; [exact uncollapses_parent | exact K12 | exact Ha].
  - destruct (C12 r n n2 Hn Hn2 Hc Hc2 a Ha) as (an2 & Han2 & Hca2).
    destruct (K23 a an2 Han2) as (an3 & Han3 & _ & Hmono). eauto.
Qed.

Lemma grows_of_same (h h' : heap) : keeps same_collapsed h h' → grows h h'.
Proof.
  intros K. split.
  - intros r n Hn. destruct (K r n Hn) as (n' & Hn' & Hp & Hc).
    exists n'. split; [exact Hn' |]. split; [exact Hp | congruence].
  - intros r n n' Hn Hn' Hc Hc'.
    destruct (K r n Hn) as (n'' & Hn'' & _ & Hsame).
    rewrite Hn' in Hn''. injection Hn'' as <-. congruence.
Qed.

Lemma uncollapse_step_grows (h : heap) (self : ref) (n : node)
    (anc : list ref) :
  h !! self = Some n →
  ancestors (modify (set_collapsed false) self h) self = Ok anc →
  grows h (foldl (fun h p => modify (set_collapsed false) p h)
             (modify (set_collapsed false) self h) anc).
Proof.
  intros Hn Hanc.
  set (h3 := modify (set_collapsed false) self h) in *.
  assert (K3 : keeps uncollapses h h3).
  { apply keeps_modify; intros x;
      (split; [reflexivity | intros Hx; first [exact Hx | reflexivity]]). }
  assert (K : keeps uncollapses h3
                (foldl (fun h p => modify (set_collapsed false) p h) h3 anc)).
  { apply keeps_foldl_modify;
      [exact uncollapses_refl | exact uncollapses_trans |].
    intros x. split; [reflexivity | intros _; reflexivity]. }
  split; [eapply keeps_trans; [exact uncollapses_trans | eauto | eauto] |].
  intros r m m' Hm Hm' Hc Hc' a Ha.
  assert (Hself : ancestor_of h3 self a).
  { assert (Hra : ancestor_of h3 r a).
    { eapply ancestor_of_keeps; [exact uncollapses_parent | exact K3 | exact Ha]. }
    destruct (decide (r = self)) as [-> | Hne]; [exact Hra |].
    destruct (decide (r ∈ anc)) as [Hin | Hnin].
    - eapply ancestor_of_trans; [| exact Hra].
      apply (ancestors_spec _ _ _ Hanc r). exact Hin.
    - exfalso. rewrite foldl_uncollapse_lookup in Hm'.
      destruct (decide (r ∈ anc)); [contradiction |].
      unfold h3 in Hm'. rewrite modify_lookup in Hm'.
      destruct (decide (self = r)); [congruence |].
      rewrite Hm in Hm'. injection Hm' as <-. congruence. }
  destruct (ancestors_spec _ _ _ Hanc a) as [Hiff Hex].
  apply Hiff in Hself. destruct (Hex Hself) as (an & Han).
  exists (set_collapsed false an). split; [| reflexivity].
  rewrite foldl_uncollapse_lookup.
  destruct (decide (a ∈ anc)); [| contradiction].
  rewrite Han. reflexivity.
Qed.

Lemma get_child_same_collapsed (env : os_env) (h : heap) (self : ref)
    (name_ : string) (group_ : option string) (quasi_ : option bool)
    (r : ref) (h' : heap) :
  get_child env h self name_ group_ quasi_ = Ok (r, h') →
  keeps same_collapsed h h'.
Proof.
  apply get_child_keeps;
    [exact same_collapsed_refl | exact same_collapsed_trans
    | intros; split; reflexivity | intros; split; reflexivity].
Qed.

Lemma expand_grows (env : os_env) (fuel : nat) :
  ∀ h self h', expand env fuel h self = Ok h' → grows h h'.
Proof.
  induction fuel as [| f IH]; intros h self h' H; simpl in H;
    [discriminate |].
  bind_inv H as n Hn. apply get_Ok in Hn.
  destruct (expanded n || visited n); [injection H as <-; apply grows_refl |].
  bind_inv H as h1 Hloop. bind_inv H as n2 Hn2. apply get_Ok in Hn2.
  assert (G1 : grows h h1).
  { destruct (path_isdir env (path n)).
    - bind_inv Hloop as names Hnames.
      eapply (for_each_preserves (fun t => grows h t)); [| | exact Hloop].
      + intros x t t' Ht Hb. bind_inv Hb as [c hc] Hc.
        eapply grows_trans; [exact Ht |].
        eapply grows_trans; [| exact (IH _ _ _ Hb)].
        eapply grows_of_same, get_child_same_collapsed; eauto.
      + apply grows_refl.
    - injection Hloop as <-. apply grows_refl. }
  assert (G2 : grows h1 (modify (set_expanded true) self h1)).
  { apply grows_of_same, keeps_modify; intros x; split; reflexivity. }
  eapply grows_trans; [exact G1 |]. eapply grows_trans; [exact G2 |].
  destruct (path_isdir env (path n) && collapsed n2).
  - bind_inv H as anc Hanc. injection H as <-.
    eapply uncollapse_step_grows; eauto.
  - injection H as <-. apply grows_refl.
Qed.

(** After [expand] has run on a directory node that was neither
    expanded nor visited, the node is expanded and not collapsed; if it
    was collapsed, all its ancestors are not collapsed either. *)
Lemma expand_post (env : os_env) (fuel : nat) (h : heap) (self : ref)
    (n : node) (h' : heap) :
  h !! self = Some n → expanded n = false → visited n = false →
  path_isdir env (path n) = true →
  expand env fuel h self = Ok h' →
  ∃ n', h' !! self = Some n' ∧ expanded n' = true ∧ collapsed n' = false ∧
        (collapsed n = true →
         ∀ a, ancestor_of h self a →
              ∃ an, h' !! a = Some an ∧ collapsed an = false).
Proof.
  intros Hn He Hv Hdir H. pose proof (expand_grows _ _ _ _ _ H) as [_ Hclosed].
  assert (Hself : ∃ n', h' !! self = Some n' ∧ expanded n' = true ∧
                        collapsed n' = false).
  { destruct fuel as [| f]; [discriminate |]. simpl in H.
    rewrite (proj2 (get_Ok _ _ _) Hn) in H. simpl in H.
    rewrite He, Hv, Hdir in H. simpl in H.
    bind_inv H as h1 Hloop. bind_inv H as n2 Hn2. apply get_Ok in Hn2.
    assert (He2 : expanded n2 = true).
    { rewrite modify_lookup in Hn2.
      destruct (decide (self = self)); [| congruence].
      destruct (h1 !! self); [| discriminate].
      injection Hn2 as <-. reflexivity. }
    destruct (collapsed n2) eqn:Hc2.
    - bind_inv H as anc Hanc. injection H as <-.
      rewrite foldl_uncollapse_lookup.
      rewrite (modify_lookup_eq _ _ _ _ Hn2).
      destruct (decide (self ∈ anc)); eexists; (split; [reflexivity |]);
        split; auto.
    - injection H as <-. eauto. }
  destruct Hself as (n' & Hn' & He' & Hc').
  exists n'. repeat split; auto.
  intros Hc a Ha. eapply Hclosed; eauto.
Qed.

(** [get_child] leaves the flag [collapsed] of every node as it is; a
    child it creates takes the [quasi] flag given, or the one of the
    parent when none is given. *)
Lemma get_child_post (env : os_env) (h : heap) (self : ref) (n : node)
    (name_ : string) (group_ : option string) (quasi_ : option bool)
    (c : ref) (h' : heap) :
  h !! self = Some n →
  get_child env h self name_ group_ quasi_ = Ok (c, h') →
  keeps same_collapsed h h' ∧
  (Dict.get name_ (children n) = None →
   ∃ cn, h' !! c = Some cn ∧ parent cn = Some self ∧
         quasi cn = match quasi_ with None => quasi n | Some q => q end).
Proof.
  intros Hn H. split; [eapply get_child_same_collapsed; eauto |].
  intros Hnone. unfold get_child in H.
  rewrite (proj2 (get_Ok _ _ _) Hn) in H. simpl in H. rewrite Hnone in H.
  unfold new_node in H. bind_inv H as base Hbase. bind_inv H as anc Hanc.
  injection H as <- <-.
  assert (Hlt : self < length h) by (eapply lookup_lt_Some; eauto).
  eexists. split.
  - apply modify_lookup_eq. rewrite modify_lookup.
    destruct (decide (self = length h)); [lia |].
    rewrite lookup_app_r by lia. rewrite Nat.sub_diag. reflexivity.
  - split; reflexivity.
Qed.

(** C4, amended: [collapsed] is set by [collapse] and cleared by
    [expand], each for the node it runs on.  After [collapse] on a node
    that is neither collapsed nor visited, the node is collapsed and none
    of its children is quasi.  After [expand] on a directory node that is
    neither expanded nor visited, the node is expanded and not collapsed,
    whether or not a quasi child was added, and if it was collapsed every
    ancestor in the chain is not collapsed.  [get_child] changes no
    [collapsed] flag, also when the child it creates is quasi. *)
Theorem collapsed_after_collapse_and_expand (env : os_env) :
  (∀ fuel h self n h',
     h !! self = Some n → collapsed n = false → visited n = false →
     NoDup (children n).*1 →
     collapse fuel h self = Ok h' →
     ∃ n', h' !! self = Some n' ∧ collapsed n' = true ∧
           ∀ k c, (k, c) ∈ children n' →
                  ∃ cn, h' !! c = Some cn ∧ quasi cn = false) ∧
  (∀ fuel h self n h',
     h !! self = Some n → expanded n = false → visited n = false →
     path_isdir env (path n) = true →
     expand env fuel h self = Ok h' →
     ∃ n', h' !! self = Some n' ∧ expanded n' = true ∧
           collapsed n' = false ∧
           (collapsed n = true →
            ∀ a, ancestor_of h self a →
                 ∃ an, h' !! a = Some an ∧ collapsed an = false)) ∧
  (∀ h self n name_ group_ quasi_ c h',
     h !! self = Some n →
     get_child env h self name_ group_ quasi_ = Ok (c, h') →
     keeps same_collapsed h h' ∧
     (Dict.get name_ (children n) = None →
      ∃ cn, h' !! c = Some cn ∧ parent cn = Some self ∧
            quasi cn = match quasi_ with None => quasi n | Some q => q end)).
Proof.
  split; [| split].
  - intros. eapply collapse_post; eauto.
  - intros. eapply expand_post; eauto.
  - intros. eapply get_child_post; eauto.
Qed.

Lemma collapsed_after_collapse_and_expand_witness :
  (∃ n, Examples.expanded_store !! 0 = Some n ∧
     match collapse 5 Examples.expanded_store 0 with
     | Ok h' =>
         ∃ n', h' !! 0 = Some n' ∧ collapsed n' = true ∧
               ∀ k c, (k, c) ∈ children n' →
                      ∃ cn, h' !! c = Some cn ∧ quasi cn = false
     | _ => False
     end) ∧
  (∃ n, Examples.located_store !! 1 = Some n ∧
     match expand Examples.env_nested 5 Examples.located_store 1 with
     | Ok h' =>
         ∃ n', h' !! 1 = Some n' ∧ expanded n' = true ∧
               collapsed n' = false ∧
               (collapsed n = true →
                ∀ a, ancestor_of Examples.located_store 1 a →
                     ∃ an, h' !! a = Some an ∧ collapsed an = false)
     | _ => False
     end) ∧
  (∃ n, Examples.expanded_store !! 1 = Some n ∧
     match get_child Examples.env_nested Examples.expanded_store 1 "new"
             None None with
     | Ok (c, h') =>
         keeps same_collapsed Examples.expanded_store h' ∧
         (Dict.get "new" (children n) = None →
          ∃ cn, h' !! c = Some cn ∧ parent cn = Some 1 ∧
                quasi cn = quasi n)
     | _ => False
     end).
Proof.
  destruct (collapsed_after_collapse_and_expand Examples.env_nested)
    as (Hcollapse & Hexpand & Hchild).
  split; [| split].
  - eexists. split; [vm_compute; reflexivity |].
    destruct (collapse 5 Examples.expanded_store 0) as [h' | e |] eqn:Hrun.
    + eapply (Hcollapse 5 Examples.expanded_store 0 _ h');
        [vm_compute; reflexivity | reflexivity | reflexivity | | exact Hrun].
      apply NoDup_singleton.
    + vm_compute in Hrun. discriminate.
    + vm_compute in Hrun. discriminate.
  - eexists. split; [vm_compute; reflexivity |].
    destruct (expand Examples.env_nested 5 Examples.located_store 1)
      as [h' | e |] eqn:Hrun.
    + eapply (Hexpand 5 Examples.located_store 1 _ h');
        [vm_compute; reflexivity | reflexivity | reflexivity
        | vm_compute; reflexivity | exact Hrun].
    + vm_compute in Hrun. discriminate.
    + vm_compute in Hrun. discriminate.
  - eexists. split; [vm_compute; reflexivity |].
    destruct (get_child Examples.env_nested Examples.expanded_store 1 "new"
                None None) as [[c h'] | e |] eqn:Hrun.
    + eapply (Hchild Examples.expanded_store 1 _ "new" None None c h');
        [vm_compute; reflexivity | exact Hrun].
    + vm_compute in Hrun. discriminate.
    + vm_compute in Hrun. discriminate.
Defined.

(** * Further properties of the engine *)

(** ** Invariants of the store carried through the generators

    [J] is a property of the store of nodes that the steps of the
    engine keep; the generators, [visit] and [load] keep it too, whatever
    the consumer does with the nodes as long as the consumer keeps it. *)

Section EngineInvariant.

Variable env : os_env.
Variable J : heap → Prop.

Hypothesis J_count : ∀ r h, J h → J (modify (add_weight 1) r h).
Hypothesis J_locate :
  ∀ h cursor parts r h',
    J h → locate env h cursor parts = Ok (r, h') → J h'.
Hypothesis J_expand :
  ∀ fuel h self h', J h → expand env fuel h self = Ok h' → J h'.
Hypothesis J_prune :
  ∀ h parents sub_nodes h3,
    J h →
    for_each sub_nodes (fun nd h => prune h nd)
      (foldl (fun h p => modify (add_prune_guard 1) p h) h parents) = Ok h3 →
    J (foldl (fun h p => modify (add_prune_guard (-1)) p h) h3 parents).

Lemma descendants_invariant {A} (I : A * heap → Prop)
    (body : ref → A * heap → outcome (A * heap)) (fuel : nat) :
  (∀ nd s s', I s → body nd s = Ok s' → I s') →
  ∀ self exclude_leaves s s',
    I s → descendants fuel self exclude_leaves body s = Ok s' → I s'.
Proof.
  intros Hbody.
  induction fuel as [| f IH]; intros self ex s s' Hs H; simpl in H;
    [discriminate |].
  bind_inv H as n Hn. destruct (visited n); [injection H as <-; exact Hs |].
  bind_inv H as s1 Hs1.
  assert (H1 : I s1).
  { destruct (negb ex || _).
    - eapply Hbody; eauto.
    - injection Hs1 as <-. exact Hs. }
  revert H. apply (for_children_preserves I); [| exact H1].
  intros c t t' Ht H. bind_inv H as cn Hcn.
  destruct (visited cn); [injection H as <-; exact Ht |]. eauto.
Qed.

Lemma glob_nodes_invariant {A}
    (body : ref → A * heap → outcome (A * heap)) (self : ref)
    (rglob : string) (dirs_only : bool) :
  (∀ nd s s', J s.2 → body nd s = Ok s' → J s'.2) →
  ∀ s s', J s.2 → glob_nodes env self rglob dirs_only body s = Ok s' →
          J s'.2.
Proof.
  intros Hbody s s' Hs H. unfold glob_nodes in H.
  bind_inv H as n Hn. bind_inv H as paths Hpaths.
  revert H. apply (for_each_preserves (fun s => J s.2)); [| exact Hs].
  intros p t t' Ht H. bind_inv H as [r h'] Hloc.
  pose proof (J_locate _ _ _ _ _ Ht Hloc) as Hh'.
  destruct r as [nd |].
  - eapply Hbody; [| exact H]. exact Hh'.
  - injection H as <-. exact Hh'.
Qed.

Lemma glob_alternatives_invariant {A}
    (rec : ∀ A : Type, ref → string → bool →
             (ref → A * heap → outcome (A * heap)) →
             A * heap → outcome (A * heap))
    (fuel : nat) (dirs_only : bool)
    (body : ref → A * heap → outcome (A * heap)) :
  (∀ nd s s', J s.2 → body nd s = Ok s' → J s'.2) →
  (∀ B self rglob d (b : ref → B * heap → outcome (B * heap)) s s',
     (∀ nd s s', J s.2 → b nd s = Ok s' → J s'.2) →
     J s.2 → rec B self rglob d b s = Ok s' → J s'.2) →
  ∀ alternatives self s s',
    J s.2 →
    glob_alternatives env rec fuel self dirs_only body alternatives s
      = Ok s' →
    J s'.2.
Proof.
  intros Hbody Hrec alternatives self.
  induction alternatives as [| alt rest IH]; intros s s' Hs H; simpl in H.
  - injection H as <-. exact Hs.
  - destruct (glob_parts env alt) as [| part parts] eqn:Hparts.
    + eapply Hbody; eauto.
    + destruct (has_part ".." (part :: parts)).
      * unfold parent_branch in H.
        bind_inv H as [sub_nodes h1] Hsub.
        assert (H1 : J h1).
        { destruct (index_of ".." (part :: parts) =? 0)%nat.
          - injection Hsub as _ <-. exact Hs.
          - change (J (sub_nodes, h1).2).
            eapply (Hrec (list ref)); [| | exact Hsub]; [| exact Hs].
            intros nd t t' Ht Hb. simpl in Hb. injection Hb as <-.
            exact Ht. }
        bind_inv H as anc Hanc. bind_inv H as h3 Hprune.
        pose proof (J_prune _ _ _ _ H1 Hprune) as H4.
        destruct (Py.truthy _).
        -- revert H. apply (for_each_preserves (fun s => J s.2));
             [| exact H4].
           intros x t t' Ht H. eapply Hrec; eauto.
        -- revert H. apply (for_each_preserves (fun s => J s.2));
             [| exact H4].
           intros x t t' Ht H. eapply Hbody; eauto.
      * destruct (has_part "**" (part :: parts)).
        -- unfold recursive_branch in H.
           assert (Heach : ∀ nd t t', J t.2 →
             (do h' <- expand env fuel t.2 nd;
              if Py.truthy
                   (Py.join (SEP env)
                      (drop (S (index_of "**" (part :: parts)))
                         (part :: parts)))
              then descendants fuel nd false
                     (fun d s =>
                        rec A d
                          (Py.join (SEP env)
                             (drop (S (index_of "**" (part :: parts)))
                                (part :: parts))) dirs_only body s)
                     (t.1, h')
              else descendants fuel nd dirs_only body (t.1, h')) = Ok t' →
             J t'.2).
           { intros nd t t' Ht Hrun. bind_inv Hrun as h' Hexp.
             pose proof (J_expand _ _ _ _ Ht Hexp) as Hh'.
             destruct (Py.truthy _).
             - revert Hrun.
               apply (descendants_invariant (fun s => J s.2));
                 [| exact Hh'].
               intros d u u' Hu Hd. eapply Hrec; eauto.
             - revert Hrun.
               apply (descendants_invariant (fun s => J s.2));
                 [| exact Hh'].
               exact Hbody. }
           destruct (index_of "**" (part :: parts) =? 0)%nat.
           ++ eapply Heach; eauto.
           ++ revert H. apply glob_nodes_invariant; [| exact Hs].
              exact Heach.
        -- bind_inv H as s1 Hs1. eapply IH; [| exact H].
           revert Hs1. apply glob_nodes_invariant; [| exact Hs].
           exact Hbody.
Qed.

Lemma glob_children_invariant (fuel : nat) :
  ∀ (A : Type) (self : ref) (rglob : string) (dirs_only : bool)
    (body : ref → A * heap → outcome (A * heap)) s s',
    (∀ nd s s', J s.2 → body nd s = Ok s' → J s'.2) →
    J s.2 →
    glob_children env fuel A self rglob dirs_only body s = Ok s' →
    J s'.2.
Proof.
  induction fuel as [| f IH]; intros A self rglob d body s s' Hbody Hs H;
    simpl in H; [discriminate |].
  bind_inv H as n Hn.
  revert H. apply glob_alternatives_invariant; [exact Hbody | |].
  - intros B self' rglob' d' b t t' Hb Ht H. eapply IH; eauto.
  - simpl. apply J_count. exact Hs.
Qed.


Hypothesis J_observe : ∀ h self h', J h → observe h self = Ok h' → J h'.
Hypothesis J_collapse :
  ∀ fuel h self h', J h → collapse fuel h self = Ok h' → J h'.
Hypothesis J_group : ∀ g r h, J h → J (modify (set_group g) r h).
Hypothesis J_expanded : ∀ r h, J h → J (modify (set_expanded true) r h).
Hypothesis J_collapsed : ∀ r h, J h → J (modify (set_collapsed true) r h).
Hypothesis J_visited :
  ∀ h r n, J h → h !! r = Some n → cls n = FileTreeNode →
           J (modify (set_visited true) r h).
Hypothesis J_get_child :
  ∀ h self n name_ g c h',
    J h → h !! self = Some n → cls n = FileTreeNode →
    get_child env h self name_ (Some g) None = Ok (c, h') → J h'.

Lemma visit_invariant (fuel : nat) :
  ∀ self group_ s s',
    J s.2 → visit env fuel self group_ s = Ok s' → J s'.2.
Proof.
  pose proof same_class_refl as Hrefl. pose proof same_class_trans as Htrans.
  induction fuel as [| f IH]; intros self group_ s s' Hs H; simpl in H;
    [discriminate |].
  bind_inv H as n Hn. pose proof (proj1 (get_Ok _ _ _) Hn) as Hn0.
  destruct (cls n) eqn:Hcls.
  - destruct (visited n); [injection H as <-; exact Hs |].
    bind_inv H as h1 Hobs. bind_inv H as h2 Hcol. bind_inv H as n2 Hn2.
    apply get_Ok in Hn2.
    assert (J2 : J h2).
    { eapply J_collapse; [| exact Hcol]. eapply J_observe; eauto. }
    assert (H02 : keeps same_class s.2 h2).
    { eapply keeps_trans; [auto | eapply observe_class; eauto |].
      eapply keeps_marks_class, collapse_marks; eauto. }
    assert (Hc2 : cls n2 = FileTreeNode).
    { destruct (H02 self n Hn0) as (x & Hx & Hcx).
      unfold same_class in Hcx. congruence. }
    destruct (length (children n2) <=? 0)%nat.
    { injection H as <-. simpl. apply J_group. eapply J_visited; eauto. }
    bind_inv H as items Hitems. bind_inv H as s3 Hloop.
    bind_inv H as n3 Hn3. apply get_Ok in Hn3. injection H as <-. simpl.
    assert (H3 : J s3.2 ∧ keeps same_class h2 s3.2).
    { destruct items as [| item items].
      - eapply (for_children_preserves
                  (fun t => J t.2 ∧ keeps same_class h2 t.2));
          [| | exact Hloop].
        + intros c t t' [Ht Hk] Hv.
          split; [eapply IH; [exact Ht | exact Hv] |].
          eapply keeps_trans; [auto | exact Hk | apply (visit_class _ _ _ _ _ _ Hv)].
        + split; [exact J2 | apply keeps_refl; auto].
      - eapply (for_each_preserves
                  (fun t => J t.2 ∧ keeps same_class h2 t.2));
          [| | exact Hloop].
        + intros x t t' [Ht Hk] Hv. bind_inv Hv as [c h'] Hc.
          destruct (Hk self n2 Hn2) as (nt & Hnt & Hct).
          unfold same_class in Hct.
          split.
          * eapply IH; [| exact Hv]. simpl.
            eapply J_get_child; [exact Ht | exact Hnt | congruence | exact Hc].
          * eapply keeps_trans; [auto | exact Hk |].
            eapply keeps_trans; [auto | eapply get_child_class; eauto |].
            apply (visit_class _ _ _ _ _ _ Hv).
        + split; [exact J2 | apply keeps_refl; auto]. }
    destruct H3 as [J3 H23].
    apply J_group, J_collapsed, J_expanded.
    eapply J_visited; [exact J3 | exact Hn3 |].
    destruct (H23 self n2 Hn2) as (x & Hx & Hcx). unfold same_class in Hcx.
    congruence.
  - bind_inv H as h1 Hobs. bind_inv H as h2 Hcol. bind_inv H as n2 Hn2.
    assert (J2 : J h2).
    { eapply J_collapse; [| exact Hcol]. eapply J_observe; eauto. }
    destruct (group n2).
    + injection H as <-. exact J2.
    + rewrite (add_to_group_heap _ _ _ _ _ H). simpl.
      apply J_group. exact J2.
Qed.

Lemma load_invariant (fuel : nat) (ov : gmap string string) :
  ∀ config parent_ s s',
    J s.2 → load env fuel ov parent_ config s = Ok s' → J s'.2.
Proof.
  intros config.
  induction config as [| key data IHdata rest IHrest | g | sub IHsub]
    using StrTree_mutual with
    (P0 := fun data => ∀ parent_ key s s',
             J s.2 → load_entry env fuel ov parent_ key data s = Ok s' →
             J s'.2);
    intros parent_.
  - intros s s' Hs H. simpl in H. injection H as <-. exact Hs.
  - intros s s' Hs H. simpl in H. bind_inv H as s1 Hs1.
    eapply IHrest; [| exact H]. eapply IHdata; [exact Hs | exact Hs1].
  - intros key s s' Hs H. simpl in H.
    revert H. apply glob_children_invariant; [| exact Hs].
    intros nd t t' Ht Hv. eapply visit_invariant; [exact Ht | exact Hv].
  - intros key s s' Hs H. simpl in H.
    revert H. apply glob_children_invariant; [| exact Hs].
    intros nd t t' Ht Hv. bind_inv Hv as t1 Ht1.
    eapply visit_invariant; [| exact Hv].
    eapply IHsub; [exact Ht | exact Ht1].
Qed.

End EngineInvariant.

(** [walk] reads the tree and writes to the grouper only. *)
Lemma walk_heap (env : os_env) (fuel : nat) :
  ∀ nd s s', walk env fuel nd s = Ok s' → s'.2 = s.2.
Proof.
  induction fuel as [| f IH]; intros nd s s' H; simpl in H; [discriminate |].
  bind_inv H as n Hn. bind_inv H as root Hroot. destruct (group n).
  - rewrite (add_to_group_heap _ _ _ _ _ H). reflexivity.
  - revert H.
    apply (for_children_preserves (fun t => t.2 = s.2)); [| reflexivity].
    intros c t t' Ht Hv. rewrite (IH _ _ _ Hv). exact Ht.
Qed.

(** ** What the engine keeps of every node *)

Section EngineFrame.

Variable env : os_env.
Variable F : node → node → Prop.
Hypothesis F_refl : ∀ n, F n n.
Hypothesis F_trans : ∀ a b c, F a b → F b c → F a c.
Hypothesis F_quasi : ∀ n, F n (set_quasi false n).
Hypothesis F_weight : ∀ d n, F n (add_weight d n).
Hypothesis F_set : ∀ k v n, F n (set_children (Dict.set k v) n).
Hypothesis F_del : ∀ k n, F n (set_children (Dict.del k) n).
Hypothesis F_expanded : ∀ b n, F n (set_expanded b n).
Hypothesis F_collapsed : ∀ b n, F n (set_collapsed b n).
Hypothesis F_group : ∀ g n, F n (set_group g n).
Hypothesis F_visited : ∀ n, F n (set_visited true n).

Let ktrans := keeps_trans F F_trans.
Let krefl := keeps_refl F F_refl.
Let kmod := keeps_modify F F_refl.
Let kchild := get_child_keeps env F F_refl F_trans F_weight F_set.

Lemma prune_go_keeps (fuel : nat) :
  ∀ h self h', prune_go fuel h self = Ok h' → keeps F h h'.
Proof.
  induction fuel as [| f IH]; intros h self h' H; simpl in H;
    [discriminate |].
  bind_inv H as n Hn.
  destruct (parent n) as [p |];
    [| injection H as <-; apply krefl].
  destruct (_ || _ || _); [injection H as <-; apply krefl |].
  bind_inv H as pn Hpn.
  destruct (Dict.has _ _).
  - eapply ktrans; [apply kmod, F_weight |].
    eapply ktrans; [apply kmod, F_del |]. eauto.
  - injection H as <-. apply kmod, F_weight.
Qed.

Lemma prune_keeps (h : heap) (self : ref) (h' : heap) :
  prune h self = Ok h' → keeps F h h'.
Proof. apply prune_go_keeps. Qed.

Lemma locate_keeps :
  ∀ parts h cursor r h',
    locate env h cursor parts = Ok (r, h') → keeps F h h'.
Proof.
  induction parts as [| part rest IH]; intros h cursor r h' H; simpl in H.
  - injection H as _ <-. apply krefl.
  - bind_inv H as [c h1] Hc. bind_inv H as cn Hcn.
    assert (H1 : keeps F h h1).
    { eapply kchild; eauto. }
    destruct (visited cn).
    + injection H as _ <-. exact H1.
    + eapply ktrans; [exact H1 | eauto].
Qed.

Lemma expand_keeps (fuel : nat) :
  ∀ h self h', expand env fuel h self = Ok h' → keeps F h h'.
Proof.
  induction fuel as [| f IH]; intros h self h' H; simpl in H;
    [discriminate |].
  bind_inv H as n Hn.
  destruct (expanded n || visited n);
    [injection H as <-; apply krefl |].
  bind_inv H as h1 Hloop.
  assert (H1 : keeps F h h1).
  { destruct (path_isdir env (path n)).
    - bind_inv Hloop as names Hnames. revert Hloop.
      apply (for_each_keeps F F_refl F_trans).
      intros x h0 h0' Hb. bind_inv Hb as [c hc] Hc.
      eapply ktrans; [eapply kchild; exact Hc | eapply IH; exact Hb].
    - injection Hloop as <-. apply krefl. }
  bind_inv H as n2 Hn2.
  assert (H2 : keeps F h (modify (set_expanded true) self h1)).
  { eapply ktrans; [exact H1 | apply kmod, F_expanded]. }
  destruct (path_isdir env (path n) && collapsed n2).
  - bind_inv H as anc Hanc. injection H as <-.
    eapply ktrans; [exact H2 |].
    eapply ktrans; [apply kmod, F_collapsed |].
    apply keeps_foldl_modify; auto.
  - injection H as <-. exact H2.
Qed.

Hypothesis F_transaction :
  ∀ h parents sub_nodes h3,
    for_each sub_nodes (fun nd h => prune h nd)
      (foldl (fun h p => modify (add_prune_guard 1) p h) h parents) = Ok h3 →
    keeps F h (foldl (fun h p => modify (add_prune_guard (-1)) p h) h3 parents).

Lemma glob_children_keeps (fuel : nat) (A : Type) (self : ref)
    (rglob : string) (dirs_only : bool)
    (body : ref → A * heap → outcome (A * heap)) (s s' : A * heap) :
  (∀ nd s s', body nd s = Ok s' → keeps F s.2 s'.2) →
  glob_children env fuel A self rglob dirs_only body s = Ok s' →
  keeps F s.2 s'.2.
Proof.
  intros Hbody H.
  eapply (glob_children_invariant env (keeps F s.2)); [| | | | | | exact H].
  - intros r h Hh. eapply ktrans; [exact Hh |].
    apply kmod, F_weight.
  - intros h c parts r h' Hh Hl.
    eapply ktrans; [exact Hh | eapply locate_keeps; eauto].
  - intros f h x h' Hh He.
    eapply ktrans; [exact Hh | eapply expand_keeps; eauto].
  - intros h parents subs h3 Hh Hp.
    eapply ktrans; [exact Hh | eauto].
  - intros nd t t' Ht Hb.
    eapply ktrans; [exact Ht | eauto].
  - apply krefl.
Qed.

Lemma visit_keeps (fuel : nat) (self : ref) (group_ : option string)
    (s s' : grouper * heap) :
  visit env fuel self group_ s = Ok s' → keeps F s.2 s'.2.
Proof.
  intros H.
  eapply (visit_invariant env (keeps F s.2)); [| | | | | | | | exact H].
  - intros h x h' Hh Ho.
    eapply ktrans; [exact Hh |].
    eapply (observe_keeps F); eauto.
  - intros f h x h' Hh Hc.
    eapply ktrans; [exact Hh |].
    eapply (collapse_keeps F); eauto.
  - intros g r h Hh.
    eapply ktrans; [exact Hh | apply kmod, F_group].
  - intros r h Hh.
    eapply ktrans; [exact Hh | apply kmod, F_expanded].
  - intros r h Hh.
    eapply ktrans; [exact Hh | apply kmod, F_collapsed].
  - intros h r n Hh _ _.
    eapply ktrans; [exact Hh | apply kmod, F_visited].
  - intros h x n name_ g c h' Hh _ _ Hc.
    eapply ktrans; [exact Hh |].
    eapply kchild; eauto.
  - apply krefl.
Qed.

Lemma load_keeps (fuel : nat) (ov : gmap string string) (config : StrTree)
    (parent_ : ref) (s s' : grouper * heap) :
  load env fuel ov parent_ config s = Ok s' → keeps F s.2 s'.2.
Proof.
  intros H.
  eapply (load_invariant env (keeps F s.2));
    [| | | | | | | | | | | | exact H].
  - intros r h Hh. eapply ktrans; [exact Hh |].
    apply kmod, F_weight.
  - intros h c parts r h' Hh Hl.
    eapply ktrans; [exact Hh | eapply locate_keeps; eauto].
  - intros f h x h' Hh He.
    eapply ktrans; [exact Hh | eapply expand_keeps; eauto].
  - intros h parents subs h3 Hh Hp.
    eapply ktrans; [exact Hh | eauto].
  - intros h x h' Hh Ho.
    eapply ktrans; [exact Hh |].
    eapply (observe_keeps F); eauto.
  - intros f h x h' Hh Hc.
    eapply ktrans; [exact Hh |].
    eapply (collapse_keeps F); eauto.
  - intros g r h Hh.
    eapply ktrans; [exact Hh | apply kmod, F_group].
  - intros r h Hh.
    eapply ktrans; [exact Hh | apply kmod, F_expanded].
  - intros r h Hh.
    eapply ktrans; [exact Hh | apply kmod, F_collapsed].
  - intros h r n Hh _ _.
    eapply ktrans; [exact Hh | apply kmod, F_visited].
  - intros h x n name_ g c h' Hh _ _ Hc.
    eapply ktrans; [exact Hh |].
    eapply kchild; eauto.
  - apply krefl.
Qed.

End EngineFrame.





(** ** The life of a node object *)

Lemma lifetime_refl (n : node) : lifetime n n.
Proof. repeat split; auto. Qed.

Lemma lifetime_trans (a b c : node) :
  lifetime a b → lifetime b c → lifetime a c.
Proof.
  unfold lifetime. intros (? & ? & ? & ? & ? & ?) (? & ? & ? & ? & ? & ?).
  repeat split; try congruence; auto.
Qed.

Lemma prune_transaction_keeps (F : node → node → Prop) :
  (∀ n, F n n) → (∀ a b c, F a b → F b c → F a c) →
  (∀ d n, F n (add_weight d n)) →
  (∀ k n, F n (set_children (Dict.del k) n)) →
  (∀ d n, F n (add_prune_guard d n)) →
  ∀ h parents sub_nodes h3,
    for_each sub_nodes (fun nd h => prune h nd)
      (foldl (fun h p => modify (add_prune_guard 1) p h) h parents) = Ok h3 →
    keeps F h (foldl (fun h p => modify (add_prune_guard (-1)) p h) h3 parents).
Proof.
  intros Hrefl Htrans Hw Hd Hg h parents subs h3 H.
  apply (keeps_trans F Htrans h
           (foldl (fun h p => modify (add_prune_guard 1) p h) h parents)).
  { apply (keeps_foldl_modify F Hrefl Htrans (add_prune_guard 1) parents h).
    intros n. apply Hg. }
  apply (keeps_trans F Htrans _ h3).
  - revert H. apply (for_each_keeps F Hrefl Htrans).
    intros x h0 h0' Hp. eapply (prune_keeps F); eauto.
  - apply (keeps_foldl_modify F Hrefl Htrans (add_prune_guard (-1))).
    intros n. apply Hg.
Qed.

(** X1: while a pattern map is loaded, with all that it runs
    ([glob_children], [glob_nodes], [locate], [get_child], [expand],
    [descendants], [prune], [observe], [collapse], [visit]), no node
    object leaves the store; the class, the parent, the name and the path
    of a node never change; a visited node stays visited; a node that is
    not quasi never becomes quasi. *)
Theorem load_lifetime (env : os_env) (fuel : nat) (ov : gmap string string)
    (config : StrTree) (parent_ : ref) (s s' : grouper * heap) :
  load env fuel ov parent_ config s = Ok s' → keeps lifetime s.2 s'.2.
Proof.
  apply (load_keeps env lifetime lifetime_refl lifetime_trans);
    try (intros; repeat split; simpl; auto; fail).
  apply prune_transaction_keeps;
    try exact lifetime_refl; try exact lifetime_trans;
    intros; repeat split; auto.
Qed.





Lemma load_lifetime_witness :
  match load Examples.env_nested 10 ∅ 0
          (Entry "**" (GroupName "all") Empty)
          ({| tree := 0; absolute := false; groups := []; weights := [];
              overrides := 0 |},
           Examples.located_store)
  with
  | Ok s' => keeps lifetime Examples.located_store s'.2
  | _ => False
  end.
Proof.
  remember (load Examples.env_nested 10 ∅ 0
              (Entry "**" (GroupName "all") Empty)
              ({| tree := 0; absolute := false; groups := []; weights := [];
                  overrides := 0 |},
               Examples.located_store)) as run eqn:Hrun.
  pose proof Hrun as Hval. vm_compute in Hval.
  rewrite Hval in Hrun |- *.
  exact (load_lifetime _ _ _ _ _ _ _ (eq_sym Hrun)).
Defined.

(** ** The shape of the tree *)

Lemma calm_refl (c : node_class) (n : node) : calm c n n.
Proof. repeat split; auto. Qed.

Lemma calm_trans (c : node_class) (x y z : node) :
  calm c x y → calm c y z → calm c x z.
Proof.
  unfold calm. intros (? & ? & ? & ? & Hv1 & ?) (? & ? & ? & ? & Hv2 & ?).
  repeat split; try congruence; auto.
  intros Hc. rewrite (Hv2 Hc). auto.
Qed.

Lemma same_guard_refl (n : node) : same_guard n n.
Proof. reflexivity. Qed.

Lemma same_guard_trans (x y z : node) :
  same_guard x y → same_guard y z → same_guard x z.
Proof. unfold same_guard. congruence. Qed.

Lemma Dict_del_subset {V} (k : string) (d : list (string * V)) x :
  x ∈ Dict.del k d → x ∈ d.
Proof. intros H. eapply elem_of_sublist; [exact H | apply Dict_del_sublist]. Qed.

Lemma Dict_set_elem {V} (k : string) (v : V) (d : list (string * V)) x :
  x ∈ Dict.set k v d → x = (k, v) ∨ x ∈ d.
Proof.
  induction d as [| [k' v'] d IH]; simpl.
  - intros H. apply list_elem_of_singleton in H. auto.
  - destruct (String.eqb k k').
    + intros H. apply elem_of_cons in H as [-> | H]; [auto |].
      right. apply list_elem_of_further. exact H.
    + intros H. apply elem_of_cons in H as [-> | H].
      * right. apply list_elem_of_here.
      * destruct (IH H) as [-> | H']; [auto |].
        right. apply list_elem_of_further. exact H'.
Qed.

(** A store whose nodes moved calmly, with the guards where they were
    and no node added, is well formed if it was. *)
Lemma well_formed_calm (env : os_env) (c : node_class) (h h' : heap) :
  well_formed env c h → length h' = length h →
  keeps (calm c) h h' → keeps same_guard h h' →
  well_formed env c h'.
Proof.
  intros Hwf Hlen Hk Hg r n' Hn'.
  assert (Hr : r < length h)
    by (rewrite <- Hlen; eapply lookup_lt_Some; eauto).
  destruct (lookup_lt_is_Some_2 h r Hr) as [n Hn].
  destruct (Hk r n Hn) as (n1 & Hn1 & Hc & Hp & Hna & Hpa & Hv & Hch).
  destruct (Hg r n Hn) as (n2 & Hn2 & Hgu).
  assert (n1 = n') by congruence. assert (n2 = n') by congruence.
  subst n1 n2. unfold same_guard in Hgu.
  destruct (Hwf r n Hn) as (Wc & Wg & Wv & Wp & Wch).
  split; [congruence |]. split; [congruence |].
  split; [intros Hd; rewrite (Hv Hd); auto |]. split.
  - intros p Hpar. rewrite Hp in Hpar.
    destruct (Wp p Hpar) as (Hlt & pn & Hpn & Hpath).
    split; [exact Hlt |].
    destruct (Hk p pn Hpn) as (pn' & Hpn' & _ & _ & _ & Hpp & _).
    exists pn'. split; [exact Hpn' |]. congruence.
  - intros k ch Hin. apply Hch in Hin.
    destruct (Wch k ch Hin) as (cn & Hcn & Hcp & Hcnm).
    destruct (Hk ch cn Hcn) as (cn' & Hcn' & _ & Hp' & Hn'' & _).
    exists cn'. split; [exact Hcn' |]. split; congruence.
Qed.

Lemma well_formed_modify (env : os_env) (c : node_class) (f : node → node)
    (r : ref) (h : heap) :
  (∀ n, calm c n (f n)) → (∀ n, same_guard n (f n)) →
  well_formed env c h → well_formed env c (modify f r h).
Proof.
  intros Hc Hg Hwf. apply (well_formed_calm env c h); [exact Hwf | | |].
  - unfold modify. apply length_alter.
  - apply keeps_modify; [apply calm_refl | exact Hc].
  - apply keeps_modify; [apply same_guard_refl | exact Hg].
Qed.

Lemma length_foldl_modify (f : node → node) (l : list ref) (h : heap) :
  length (foldl (fun h p => modify f p h) h l) = length h.
Proof.
  revert h. induction l as [| x l IH]; intros h; simpl; [reflexivity |].
  rewrite IH. unfold modify. apply length_alter.
Qed.

Lemma for_each_length {X} (body : X → heap → outcome heap) (xs : list X) :
  (∀ x h h', body x h = Ok h' → length h' = length h) →
  ∀ h h', for_each xs body h = Ok h' → length h' = length h.
Proof.
  intros Hbody h h' H.
  eapply (for_each_preserves (fun h1 => length h1 = length h) body xs);
    [| | exact H]; [| reflexivity].
  intros x h1 h2 H1 Hb. rewrite (Hbody _ _ _ Hb). exact H1.
Qed.

Lemma prune_go_length (fuel : nat) :
  ∀ h self h', prune_go fuel h self = Ok h' → length h' = length h.
Proof.
  induction fuel as [| f IH]; intros h self h' H; simpl in H;
    [discriminate |].
  bind_inv H as n Hn.
  destruct (parent n) as [p |]; [| injection H as <-; reflexivity].
  destruct (_ || _ || _); [injection H as <-; reflexivity |].
  bind_inv H as pn Hpn.
  destruct (Dict.has _ _).
  - rewrite (IH _ _ _ H). unfold modify. rewrite !length_alter. reflexivity.
  - injection H as <-. unfold modify. apply length_alter.
Qed.

Lemma observe_up_length (fuel : nat) :
  ∀ h cursor h', observe_up fuel h cursor = Ok h' → length h' = length h.
Proof.
  induction fuel as [| f IH]; intros h cursor h' H;
    destruct cursor as [c |]; simpl in H; try discriminate.
  - injection H as <-. reflexivity.
  - bind_inv H as n Hn. destruct (negb (quasi n)).
    + injection H as <-. reflexivity.
    + rewrite (IH _ _ _ H). unfold modify. apply length_alter.
  - injection H as <-. reflexivity.
Qed.

Lemma observe_length (h : heap) (self : ref) (h' : heap) :
  observe h self = Ok h' → length h' = length h.
Proof.
  unfold observe. intros H. bind_inv H as n Hn. destruct (negb (quasi n)).
  - injection H as <-. reflexivity.
  - rewrite (observe_up_length _ _ _ _ H). unfold modify. apply length_alter.
Qed.

Lemma collapse_length (fuel : nat) :
  ∀ h self h', collapse fuel h self = Ok h' → length h' = length h.
Proof.
  induction fuel as [| f IH]; intros h self h' H; simpl in H;
    [discriminate |].
  bind_inv H as n Hn. destruct (collapsed n || visited n).
  - injection H as <-. reflexivity.
  - bind_inv H as h1 Hloop. injection H as <-.
    unfold modify. rewrite !length_alter.
    revert Hloop. apply for_each_length.
    intros [name_ child] h0 h0' Hb. bind_inv Hb as cn Hcn.
    destruct (quasi cn).
    + bind_inv Hb as sn Hsn. destruct (Dict.has name_ (children sn));
        [| discriminate].
      injection Hb as <-. unfold modify. rewrite !length_alter. reflexivity.
    + destruct (negb (collapsed cn)); [eauto |].
      injection Hb as <-. reflexivity.
Qed.

Ltac calm_field :=
  intros; repeat split; simpl; auto;
  try (intros ? ?; eapply Dict_del_subset; eassumption).

Section WellFormed.

Variable env : os_env.
Variable c : node_class.

Lemma observe_well_formed (h : heap) (self : ref) (h' : heap) :
  well_formed env c h → observe h self = Ok h' → well_formed env c h'.
Proof.
  intros Hwf H. apply (well_formed_calm env c h); [exact Hwf | | |].
  - eapply observe_length; eauto.
  - revert H. apply observe_keeps;
      [apply calm_refl | apply calm_trans | calm_field].
  - revert H. apply observe_keeps;
      [apply same_guard_refl | apply same_guard_trans | reflexivity].
Qed.

Lemma collapse_well_formed (fuel : nat) (h : heap) (self : ref) (h' : heap) :
  well_formed env c h → collapse fuel h self = Ok h' → well_formed env c h'.
Proof.
  intros Hwf H. apply (well_formed_calm env c h); [exact Hwf | | |].
  - eapply collapse_length; eauto.
  - revert H. apply collapse_keeps;
      [apply calm_refl | apply calm_trans | calm_field ..].
  - revert H. apply collapse_keeps;
      [apply same_guard_refl | apply same_guard_trans | reflexivity ..].
Qed.

Lemma prune_well_formed (h : heap) (self : ref) (h' : heap) :
  well_formed env c h → prune h self = Ok h' → well_formed env c h'.
Proof.
  intros Hwf H. apply (well_formed_calm env c h); [exact Hwf | | |].
  - eapply prune_go_length; eauto.
  - revert H. apply prune_keeps;
      [apply calm_refl | apply calm_trans | calm_field ..].
  - revert H. apply prune_keeps;
      [apply same_guard_refl | apply same_guard_trans | reflexivity ..].
Qed.

Lemma foldl_modify_lookup (f : node → node) (l : list ref) :
  ∀ h r, foldl (fun h p => modify f p h) h l !! r
         = Nat.iter (count_occ Nat.eq_dec l r) f <$> h !! r.
Proof.
  induction l as [| a l IH]; intros h r; simpl.
  - destruct (h !! r); reflexivity.
  - rewrite IH, modify_lookup.
    destruct (Nat.eq_dec a r) as [-> | Hne].
    + destruct (decide (r = r)); [| congruence].
      destruct (h !! r) as [n |]; simpl; [| reflexivity].
      f_equal. symmetry. apply Nat.iter_succ_r.
    + destruct (decide (a = r)); [congruence | reflexivity].
Qed.

Lemma prune_guard_iter (d : Z) (k : nat) (n : node) :
  prune_guard (Nat.iter k (add_prune_guard d) n)
  = (prune_guard n + Z.of_nat k * d)%Z.
Proof.
  induction k as [| k IH]; simpl; [lia |].
  rewrite IH. lia.
Qed.

(** The parent branch of [glob_children] guards the parents, prunes and
    takes the guards off again: the guards end where they were. *)
Lemma prune_transaction_guard (h : heap) (parents sub_nodes : list ref)
    (h3 : heap) :
  for_each sub_nodes (fun nd h => prune h nd)
    (foldl (fun h p => modify (add_prune_guard 1) p h) h parents) = Ok h3 →
  keeps same_guard h
    (foldl (fun h p => modify (add_prune_guard (-1)) p h) h3 parents).
Proof.
  intros H r n Hn.
  assert (H2 : foldl (fun h p => modify (add_prune_guard 1) p h) h parents
               !! r
               = Some (Nat.iter (count_occ Nat.eq_dec parents r)
                         (add_prune_guard 1) n)).
  { rewrite foldl_modify_lookup, Hn. reflexivity. }
  assert (Hk : keeps same_guard
            (foldl (fun h p => modify (add_prune_guard 1) p h) h parents) h3).
  { revert H.
    apply (for_each_keeps same_guard same_guard_refl same_guard_trans).
    intros x h0 h0' Hp. revert Hp.
    apply prune_keeps;
      [apply same_guard_refl | apply same_guard_trans | reflexivity ..]. }
  destruct (Hk r _ H2) as (n3 & Hn3 & Hg3). unfold same_guard in Hg3.
  eexists. split.
  - rewrite foldl_modify_lookup, Hn3. reflexivity.
  - unfold same_guard. rewrite prune_guard_iter, Hg3, prune_guard_iter. lia.
Qed.

Lemma prune_transaction_well_formed (h : heap) (parents sub_nodes : list ref)
    (h3 : heap) :
  well_formed env c h →
  for_each sub_nodes (fun nd h => prune h nd)
    (foldl (fun h p => modify (add_prune_guard 1) p h) h parents) = Ok h3 →
  well_formed env c
    (foldl (fun h p => modify (add_prune_guard (-1)) p h) h3 parents).
Proof.
  intros Hwf H. apply (well_formed_calm env c h); [exact Hwf | | |].
  - rewrite length_foldl_modify.
    rewrite (for_each_length _ _ (fun x h0 h0' Hp =>
               prune_go_length _ _ _ _ Hp) _ _ H).
    apply length_foldl_modify.
  - revert H. apply prune_transaction_keeps;
      [apply calm_refl | apply calm_trans | calm_field ..].
  - eapply prune_transaction_guard; eauto.
Qed.

Lemma new_node_well_formed (p : ref) (name_ : string)
    (group_ : option string) (quasi_ : bool) (h : heap) (r : ref) (h' : heap) :
  well_formed env c h →
  (c = DistinctFileTreeNode → group_ = None) →
  new_node env c (Some p) name_ group_ quasi_ h = Ok (r, h') →
  well_formed env c h'.
Proof.
  intros Hwf Hgr H. unfold new_node in H.
  bind_inv H as base Hbase. bind_inv Hbase as pn Hpn. apply get_Ok in Hpn.
  injection Hbase as <-.
  bind_inv H as anc Hanc. injection H as _ <-.
  apply well_formed_modify; [calm_field | reflexivity |].
  assert (Hp : p < length h) by (eapply lookup_lt_Some; eauto).
  set (n := {| cls := c; parent := Some p; name := name_;
               path := abs_path env (path pn) name_; group := group_;
               visited := match group_ with Some _ => true | None => false end;
               expanded := match group_ with Some _ => true | None => false end;
               collapsed := true; quasi := quasi_; prune_guard := 0;
               children := []; weight := 0 |}) in *.
  intros i x Hx. rewrite modify_lookup in Hx.
  assert (Hold : ∀ j y, h !! j = Some y →
            ∃ y', modify (set_children (Dict.set name_ (length h))) p
                    (h ++ [n])%list !! j = Some y' ∧
                  parent y' = parent y ∧ name y' = name y ∧
                  path y' = path y).
  { intros j y Hy. rewrite modify_lookup.
    rewrite (lookup_app_l_Some _ _ _ _ Hpn).
    rewrite (lookup_app_l_Some _ _ _ _ Hy).
    destruct (decide (p = j)) as [-> |]; simpl; eauto.
    assert (y = pn) by congruence. subst y. eauto. }
  assert (Hnew : modify (set_children (Dict.set name_ (length h))) p
                   (h ++ [n])%list !! length h = Some n).
  { rewrite modify_lookup. destruct (decide (p = length h)); [lia |].
    rewrite lookup_app_r by lia. rewrite Nat.sub_diag. reflexivity. }
  destruct (decide (i < length h)%nat) as [Hlt | Hge].
  - (* a node that was there *)
    destruct (lookup_lt_is_Some_2 h i Hlt) as [y Hy].
    destruct (Hwf i y Hy) as (Wc & Wg & Wv & Wp & Wch).
    assert (Hch_old : ∀ k ch, (k, ch) ∈ children y →
              ∃ cn, modify (set_children (Dict.set name_ (length h))) p
                      (h ++ [n])%list !! ch = Some cn ∧
                    parent cn = Some i ∧ name cn = k).
    { intros k ch Hin. destruct (Wch k ch Hin) as (cn & Hcn & Hcp & Hcnm).
      destruct (Hold ch cn Hcn) as (cn' & Hcn' & Hp' & Hn' & _).
      exists cn'. split; [exact Hcn' |]. split; congruence. }
    assert (Hpar_old : ∀ q, parent y = Some q →
              q < i ∧ ∃ qn, modify (set_children (Dict.set name_ (length h))) p
                              (h ++ [n])%list !! q = Some qn ∧
                            path y = abs_path env (path qn) (name y)).
    { intros q Hq. destruct (Wp q Hq) as (Hqi & qn & Hqn & Hpath).
      split; [exact Hqi |].
      destruct (Hold q qn Hqn) as (qn' & Hqn' & _ & _ & Hpp).
      exists qn'. split; [exact Hqn' |]. congruence. }
    rewrite (lookup_app_l_Some _ _ _ _ Hy) in Hx.
    destruct (decide (p = i)) as [-> |].
    + rewrite (lookup_app_l_Some _ _ _ _ Hy) in Hx. simpl in Hx.
      injection Hx as <-. simpl.
      split; [exact Wc |]. split; [exact Wg |]. split; [exact Wv |].
      split; [exact Hpar_old |].
      intros k ch Hin. apply Dict_set_elem in Hin as [Heq | Hin].
      * injection Heq as -> ->. exists n. split; [exact Hnew |].
        split; reflexivity.
      * apply Hch_old. exact Hin.
    + injection Hx as <-.
      split; [exact Wc |]. split; [exact Wg |]. split; [exact Wv |].
      split; [exact Hpar_old | exact Hch_old].
  - (* the new node *)
    assert (Hi : i = length h).
    { destruct (decide (p = i)) as [-> |].
      - destruct ((h ++ [n])%list !! i) eqn:E; [| discriminate].
        apply lookup_lt_Some in E. rewrite length_app in E. simpl in E. lia.
      - apply lookup_lt_Some in Hx. rewrite length_app in Hx. simpl in Hx.
        lia. }
    subst i. rewrite <- modify_lookup in Hx. rewrite Hnew in Hx.
    injection Hx as <-. simpl.
    split; [reflexivity |]. split; [reflexivity |].
    split; [intros Hd; rewrite (Hgr Hd); reflexivity |]. split.
    + intros q Hq. injection Hq as <-. split; [exact Hp |].
      destruct (Hold p pn Hpn) as (pn' & Hpn' & _ & _ & Hpp).
      exists pn'. split; [exact Hpn' |]. rewrite Hpp. reflexivity.
    + intros k ch Hin. apply elem_of_nil in Hin. destruct Hin.
Qed.

Lemma get_child_well_formed (h : heap) (self : ref) (name_ : string)
    (group_ : option string) (quasi_ : option bool) (r : ref) (h' : heap) :
  well_formed env c h →
  (c = DistinctFileTreeNode → group_ = None) →
  get_child env h self name_ group_ quasi_ = Ok (r, h') →
  well_formed env c h'.
Proof.
  intros Hwf Hgr H. unfold get_child in H. bind_inv H as n Hn.
  apply get_Ok in Hn.
  destruct (Dict.get name_ (children n)).
  - injection H as _ <-. exact Hwf.
  - destruct (Hwf self n Hn) as (Hc & _). rewrite Hc in H.
    eapply new_node_well_formed; eauto.
Qed.

Lemma locate_well_formed :
  ∀ parts h cursor r h',
    well_formed env c h → locate env h cursor parts = Ok (r, h') →
    well_formed env c h'.
Proof.
  induction parts as [| part rest IH]; intros h cursor r h' Hwf H;
    simpl in H.
  - injection H as _ <-. exact Hwf.
  - bind_inv H as [ch h1] Hc. bind_inv H as cn Hcn.
    assert (H1 : well_formed env c h1).
    { eapply get_child_well_formed; [exact Hwf | | exact Hc]. reflexivity. }
    destruct (visited cn).
    + injection H as _ <-. exact H1.
    + eauto.
Qed.

Lemma foldl_modify_well_formed (f : node → node) (l : list ref) (h : heap) :
  (∀ n, calm c n (f n)) → (∀ n, same_guard n (f n)) →
  well_formed env c h →
  well_formed env c (foldl (fun h p => modify f p h) h l).
Proof.
  intros Hc Hg. revert h. induction l as [| x l IH]; intros h Hwf; simpl.
  - exact Hwf.
  - apply IH. apply well_formed_modify; auto.
Qed.

Lemma expand_well_formed (fuel : nat) :
  ∀ h self h',
    well_formed env c h → expand env fuel h self = Ok h' →
    well_formed env c h'.
Proof.
  induction fuel as [| f IH]; intros h self h' Hwf H; simpl in H;
    [discriminate |].
  bind_inv H as n Hn.
  destruct (expanded n || visited n); [injection H as <-; exact Hwf |].
  bind_inv H as h1 Hloop.
  assert (H1 : well_formed env c h1).
  { destruct (path_isdir env (path n)).
    - bind_inv Hloop as names Hnames. revert Hloop.
      apply (for_each_preserves (well_formed env c)); [| exact Hwf].
      intros x h0 h0' H0 Hb. bind_inv Hb as [ch hc] Hc.
      eapply IH; [| exact Hb].
      eapply get_child_well_formed; [exact H0 | | exact Hc]. reflexivity.
    - injection Hloop as <-. exact Hwf. }
  bind_inv H as n2 Hn2.
  assert (H2 : well_formed env c (modify (set_expanded true) self h1)).
  { apply well_formed_modify; [calm_field | reflexivity | exact H1]. }
  destruct (path_isdir env (path n) && collapsed n2).
  - bind_inv H as anc Hanc. injection H as <-.
    apply foldl_modify_well_formed; [calm_field | reflexivity |].
    apply well_formed_modify; [calm_field | reflexivity | exact H2].
  - injection H as <-. exact H2.
Qed.

Lemma load_well_formed (fuel : nat) (ov : gmap string string)
    (config : StrTree) (parent_ : ref) (s s' : grouper * heap) :
  well_formed env c s.2 → load env fuel ov parent_ config s = Ok s' →
  well_formed env c s'.2.
Proof.
  apply (load_invariant env (well_formed env c)).
  - intros r h Hwf. apply well_formed_modify; [calm_field | reflexivity | auto].
  - intros h cursor parts r h' Hwf H. eapply locate_well_formed; eauto.
  - intros f h self h' Hwf H. eapply expand_well_formed; eauto.
  - intros h parents subs h3 Hwf H.
    eapply prune_transaction_well_formed; eauto.
  - intros h self h' Hwf H. eapply observe_well_formed; eauto.
  - intros f h self h' Hwf H. eapply collapse_well_formed; eauto.
  - intros g r h Hwf. apply well_formed_modify; [calm_field | reflexivity | auto].
  - intros r h Hwf. apply well_formed_modify; [calm_field | reflexivity | auto].
  - intros r h Hwf. apply well_formed_modify; [calm_field | reflexivity | auto].
  - intros h r n Hwf Hn Hc.
    destruct (Hwf r n Hn) as (Hcls & _).
    apply well_formed_modify; [| reflexivity | auto].
    intros x. repeat split; simpl; auto. intros Hd. congruence.
  - intros h self n name_ g ch h' Hwf Hn Hc H.
    destruct (Hwf self n Hn) as (Hcls & _).
    eapply get_child_well_formed; [exact Hwf | | exact H].
    intros Hd. congruence.
Qed.

Lemma visit_well_formed (fuel : nat) (self : ref) (group_ : option string)
    (s s' : grouper * heap) :
  well_formed env c s.2 → visit env fuel self group_ s = Ok s' →
  well_formed env c s'.2.
Proof.
  apply (visit_invariant env (well_formed env c)).
  - intros h x h' Hwf H. eapply observe_well_formed; eauto.
  - intros f h x h' Hwf H. eapply collapse_well_formed; eauto.
  - intros g r h Hwf. apply well_formed_modify; [calm_field | reflexivity | auto].
  - intros r h Hwf. apply well_formed_modify; [calm_field | reflexivity | auto].
  - intros r h Hwf. apply well_formed_modify; [calm_field | reflexivity | auto].
  - intros h r n Hwf Hn Hc.
    destruct (Hwf r n Hn) as (Hcls & _).
    apply well_formed_modify; [| reflexivity | auto].
    intros x. repeat split; simpl; auto. intros Hd. congruence.
  - intros h x n name_ g ch h' Hwf Hn Hc H.
    destruct (Hwf x n Hn) as (Hcls & _).
    eapply get_child_well_formed; [exact Hwf | | exact H].
    intros Hd. congruence.
Qed.

End WellFormed.

Lemma root_well_formed (env : os_env) (c : node_class) (root : string)
    (t : ref) (h : heap) :
  new_node env c None root None false [] = Ok (t, h) →
  t = 0 ∧ well_formed env c h.
Proof.
  intros H. unfold new_node in H. simpl in H.
  injection H as <- <-. split; [reflexivity |].
  intros r n Hn.
  destruct r as [| r]; [| discriminate].
  simpl in Hn. injection Hn as <-. simpl.
  repeat split; try discriminate.
  intros k ch Hin. apply elem_of_nil in Hin. destruct Hin.
Qed.

Lemma FileGrouper_well_formed (env : os_env) (fuel : nat) (root : string)
    (config : StrTree) (absolute_ distinct : bool) (arg : option nat)
    (dicts : dict_store) (g : grouper) (h : heap) (dicts' : dict_store) :
  FileGrouper env fuel root config absolute_ distinct arg dicts
    = Ok (g, h, dicts') →
  well_formed env
    (if distinct then DistinctFileTreeNode else FileTreeNode) h.
Proof.
  intros H. unfold FileGrouper in H.
  bind_inv H as [t h0] Hnew.
  destruct (root_well_formed _ _ _ _ _ Hnew) as [-> H0].
  destruct (dicts !! _) as [ov |]; [| discriminate].
  bind_inv H as s1 Hload. bind_inv H as s2 Hrest.
  injection H as _ <- _.
  assert (H1 : well_formed env
            (if distinct then DistinctFileTreeNode else FileTreeNode) s1.2).
  { eapply load_well_formed; [| exact Hload]. exact H0. }
  destruct distinct; simpl in Hrest.
  - injection Hrest as <-. exact H1.
  - bind_inv Hrest as s' Hvisit.
    rewrite (walk_heap _ _ _ _ _ Hrest).
    eapply visit_well_formed; eauto.
Qed.

(** ** Trees built by the constructor *)

Lemma well_formed_parents_first (env : os_env) (c : node_class) (h : heap) :
  well_formed env c h → parents_first h.
Proof.
  intros Hwf i n q Hi Hq.
  destruct (Hwf i n Hi) as (_ & _ & _ & Hp & _).
  destruct (Hp q Hq) as [Hlt _]. exact Hlt.
Qed.

Lemma ancestors_go_total (h : heap) :
  parents_first h →
  ∀ fuel cursor,
    (∀ c, cursor = Some c → c < fuel ∧ c < length h) →
    ∃ l, ancestors_go fuel h cursor = Ok l ∧
         ∀ a, a ∈ l → ∀ c, cursor = Some c → (a ≤ c)%nat.
Proof.
  intros Hpf. induction fuel as [| f IH]; intros cursor Hc.
  - destruct cursor as [c |].
    + destruct (Hc c eq_refl). lia.
    + exists []. split; [reflexivity |]. intros a Ha.
      apply elem_of_nil in Ha. destruct Ha.
  - destruct cursor as [c |]; simpl.
    + destruct (Hc c eq_refl) as [Hcf Hcl].
      destruct (lookup_lt_is_Some_2 h c Hcl) as [n Hn].
      rewrite (proj2 (get_Ok _ _ _) Hn). simpl.
      destruct (IH (parent n)) as (l & Hl & Hbound).
      { intros p Hp. pose proof (Hpf c n p Hn Hp). lia. }
      rewrite Hl. simpl. exists (c :: l). split; [reflexivity |].
      intros a Ha c' Hc'. injection Hc' as <-.
      apply elem_of_cons in Ha as [-> | Ha]; [lia |].
      destruct (parent n) as [p |] eqn:Hp.
      * pose proof (Hbound a Ha p eq_refl). pose proof (Hpf c n p Hn Hp). lia.
      * destruct f; simpl in Hl; injection Hl as <-;
          apply elem_of_nil in Ha; destruct Ha.
    + exists []. split; [reflexivity |]. intros a Ha.
      apply elem_of_nil in Ha. destruct Ha.
Qed.

(** X2: in a tree built by the constructor the walks up the parent links
    end: [ancestors] returns for every node, with nodes created before
    it, and so does [prune]. *)
Theorem FileGrouper_walks_up_end (env : os_env) (fuel : nat) (root : string)
    (config : StrTree) (absolute_ distinct : bool) (arg : option nat)
    (dicts : dict_store) (g : grouper) (h : heap) (dicts' : dict_store) :
  FileGrouper env fuel root config absolute_ distinct arg dicts
    = Ok (g, h, dicts') →
  ∀ r, (r < length h)%nat →
    (∃ l, ancestors h r = Ok l ∧ ∀ a, a ∈ l → (a < r)%nat) ∧
    (∃ h', prune h r = Ok h').
Proof.
  intros H r Hr.
  pose proof (well_formed_parents_first _ _ _
                (FileGrouper_well_formed _ _ _ _ _ _ _ _ _ _ _ H)) as Hpf.
  split.
  - destruct (lookup_lt_is_Some_2 h r Hr) as [n Hn].
    unfold ancestors. rewrite (proj2 (get_Ok _ _ _) Hn). simpl.
    destruct (ancestors_go_total h Hpf (length h) (parent n))
      as (l & Hl & Hbound).
    { intros p Hp. pose proof (Hpf r n p Hn Hp). lia. }
    exists l. split; [exact Hl |]. intros a Ha.
    destruct (parent n) as [p |] eqn:Hp.
    + pose proof (Hbound a Ha p eq_refl). pose proof (Hpf r n p Hn Hp). lia.
    + destruct (length h); simpl in Hl; injection Hl as <-;
        apply elem_of_nil in Ha; destruct Ha.
  - apply prune_go_total; auto.
Qed.

Lemma FileGrouper_walks_up_end_witness :
  match (FileGrouper Examples.env_nested 10 "."
           (Entry "a" (Nested (Entry "*" (GroupName "inner") Empty)) Empty)
           false false None module_dicts) with
  | Ok (g, h, dicts') =>
      ∀ r, (r < length h)%nat →
        (∃ l, ancestors h r = Ok l ∧ ∀ a, a ∈ l → (a < r)%nat) ∧
        (∃ h', prune h r = Ok h')
  | _ => False
  end.
Proof.
  remember (FileGrouper Examples.env_nested 10 "."
           (Entry "a" (Nested (Entry "*" (GroupName "inner") Empty)) Empty)
           false false None module_dicts) as run eqn:Hrun.
  pose proof Hrun as Hval. vm_compute in Hval.
  rewrite Hval in Hrun |- *.
  exact (FileGrouper_walks_up_end _ _ _ _ _ _ _ _ _ _ _ (eq_sym Hrun)).
Defined.

(** X3: the path of a node of a constructed tree is the path of its parent
    joined with its name, as [abs_path] joins them. *)
Theorem FileGrouper_paths (env : os_env) (fuel : nat) (root : string)
    (config : StrTree) (absolute_ distinct : bool) (arg : option nat)
    (dicts : dict_store) (g : grouper) (h : heap) (dicts' : dict_store) :
  FileGrouper env fuel root config absolute_ distinct arg dicts
    = Ok (g, h, dicts') →
  ∀ r n p, h !! r = Some n → parent n = Some p →
    ∃ pn, h !! p = Some pn ∧ path n = abs_path env (path pn) (name n).
Proof.
  intros H r n p Hn Hp.
  destruct (FileGrouper_well_formed _ _ _ _ _ _ _ _ _ _ _ H r n Hn)
    as (_ & _ & _ & Hpar & _).
  destruct (Hpar p Hp) as [_ Hex]. exact Hex.
Qed.

Lemma FileGrouper_paths_witness :
  match (FileGrouper Examples.env_nested 10 "."
           (Entry "a" (Nested (Entry "*" (GroupName "inner") Empty)) Empty)
           false false None module_dicts) with
  | Ok (g, h, dicts') =>
      ∀ r n p, h !! r = Some n → parent n = Some p →
        ∃ pn, h !! p = Some pn ∧
              path n = abs_path Examples.env_nested (path pn) (name n)
  | _ => False
  end.
Proof.
  remember (FileGrouper Examples.env_nested 10 "."
           (Entry "a" (Nested (Entry "*" (GroupName "inner") Empty)) Empty)
           false false None module_dicts) as run eqn:Hrun.
  pose proof Hrun as Hval. vm_compute in Hval.
  rewrite Hval in Hrun |- *.
  exact (FileGrouper_paths _ _ _ _ _ _ _ _ _ _ _ (eq_sym Hrun)).
Defined.

Lemma Dict_get_elem {V} (k : string) (v : V) (d : list (string * V)) :
  Dict.get k d = Some v → (k, v) ∈ d.
Proof.
  induction d as [| [k' v'] d IH]; simpl; [discriminate |].
  destruct (String.eqb_spec k k') as [-> | Hne].
  - intros [= ->]. apply list_elem_of_here.
  - intros H. apply list_elem_of_further. auto.
Qed.

(** X4: in a constructed tree the dictionaries of children agree with the
    parent links: the node stored under a name in [children] has that
    name and has the owner of the dictionary as its parent. *)
Theorem FileGrouper_children_linked (env : os_env) (fuel : nat)
    (root : string) (config : StrTree) (absolute_ distinct : bool)
    (arg : option nat) (dicts : dict_store)
    (g : grouper) (h : heap) (dicts' : dict_store) :
  FileGrouper env fuel root config absolute_ distinct arg dicts
    = Ok (g, h, dicts') →
  ∀ r n k ch, h !! r = Some n → Dict.get k (children n) = Some ch →
    ∃ cn, h !! ch = Some cn ∧ parent cn = Some r ∧ name cn = k.
Proof.
  intros H r n k ch Hn Hget.
  destruct (FileGrouper_well_formed _ _ _ _ _ _ _ _ _ _ _ H r n Hn)
    as (_ & _ & _ & _ & Hch).
  apply Hch, Dict_get_elem. exact Hget.
Qed.

Lemma FileGrouper_children_linked_witness :
  match (FileGrouper Examples.env_nested 10 "."
           (Entry "a" (Nested (Entry "*" (GroupName "inner") Empty)) Empty)
           false false None module_dicts) with
  | Ok (g, h, dicts') =>
      ∀ r n k ch, h !! r = Some n → Dict.get k (children n) = Some ch →
        ∃ cn, h !! ch = Some cn ∧ parent cn = Some r ∧ name cn = k
  | _ => False
  end.
Proof.
  remember (FileGrouper Examples.env_nested 10 "."
           (Entry "a" (Nested (Entry "*" (GroupName "inner") Empty)) Empty)
           false false None module_dicts) as run eqn:Hrun.
  pose proof Hrun as Hval. vm_compute in Hval.
  rewrite Hval in Hrun |- *.
  exact (FileGrouper_children_linked _ _ _ _ _ _ _ _ _ _ _ (eq_sym Hrun)).
Defined.

(** X5: every node of a constructed tree has the class of the root, and in
    distinct mode no node is ever marked visited. *)
Theorem FileGrouper_distinct_never_visits (env : os_env) (fuel : nat)
    (root : string) (config : StrTree) (absolute_ distinct : bool)
    (arg : option nat) (dicts : dict_store)
    (g : grouper) (h : heap) (dicts' : dict_store) :
  FileGrouper env fuel root config absolute_ distinct arg dicts
    = Ok (g, h, dicts') →
  ∀ r n, h !! r = Some n →
    cls n = (if distinct then DistinctFileTreeNode else FileTreeNode) ∧
    (distinct = true → visited n = false).
Proof.
  intros H r n Hn.
  destruct (FileGrouper_well_formed _ _ _ _ _ _ _ _ _ _ _ H r n Hn)
    as (Hc & _ & Hv & _).
  split; [exact Hc |]. intros ->. auto.
Qed.

Lemma FileGrouper_distinct_never_visits_witness :
  match FileGrouper Examples.env_nested 10 "."
          (Entry "**" (GroupName "all") (Entry "a" (GroupName "dir") Empty))
          false true None module_dicts
  with
  | Ok (g, h, dicts') =>
      ∀ r n, h !! r = Some n →
        cls n = DistinctFileTreeNode ∧ (true = true → visited n = false)
  | _ => False
  end.
Proof.
  remember (FileGrouper Examples.env_nested 10 "."
              (Entry "**" (GroupName "all")
                 (Entry "a" (GroupName "dir") Empty))
              false true None module_dicts) as run eqn:Hrun.
  pose proof Hrun as Hval. vm_compute in Hval.
  rewrite Hval in Hrun |- *.
  exact (FileGrouper_distinct_never_visits _ _ _ _ _ _ _ _ _ _ _ (eq_sym Hrun)).
Defined.

(** X6: when the constructor returns no node is guarded against pruning:
    every guard the parent branch of [glob_children] put on has been
    taken off. *)
Theorem FileGrouper_guards_released (env : os_env) (fuel : nat)
    (root : string) (config : StrTree) (absolute_ distinct : bool)
    (arg : option nat) (dicts : dict_store)
    (g : grouper) (h : heap) (dicts' : dict_store) :
  FileGrouper env fuel root config absolute_ distinct arg dicts
    = Ok (g, h, dicts') →
  ∀ r n, h !! r = Some n → prune_guard n = 0%Z.
Proof.
  intros H r n Hn.
  destruct (FileGrouper_well_formed _ _ _ _ _ _ _ _ _ _ _ H r n Hn)
    as (_ & Hg & _). exact Hg.
Qed.

Lemma FileGrouper_guards_released_witness :
  match FileGrouper Examples.env_nested 10 "."
          (Entry "a/f/.." (GroupName "up") Empty)
          false false None module_dicts
  with
  | Ok (g, h, dicts') => ∀ r n, h !! r = Some n → prune_guard n = 0%Z
  | _ => False
  end.
Proof.
  remember (FileGrouper Examples.env_nested 10 "."
              (Entry "a/f/.." (GroupName "up") Empty)
              false false None module_dicts) as run eqn:Hrun.
  pose proof Hrun as Hval. vm_compute in Hval.
  rewrite Hval in Hrun |- *.
  exact (FileGrouper_guards_released _ _ _ _ _ _ _ _ _ _ _ (eq_sym Hrun)).
Defined.

(** X7: [glob_children] leaves every guard where it was: the parent
    branch puts a guard on each parent before it prunes and takes it off
    afterwards, and nothing else writes [prune_guard]. *)
Theorem glob_children_restores_guards (env : os_env) (fuel : nat) (h : heap)
    (self : ref) (rglob : string) (dirs_only : bool)
    (l : list ref) (h' : heap) :
  glob_children_list env fuel h self rglob dirs_only = Ok (l, h') →
  keeps same_guard h h'.
Proof.
  unfold glob_children_list. intros H.
  change h with (([] : list ref, h).2). change h' with ((l, h').2).
  revert H.
  apply (glob_children_keeps env same_guard same_guard_refl same_guard_trans).
  - reflexivity.
  - reflexivity.
  - reflexivity.
  - reflexivity.
  - apply prune_transaction_guard.
  - intros nd s s' Hb. injection Hb as <-. intros r n Hn.
    exists n. split; [exact Hn | reflexivity].
Qed.

Lemma glob_children_restores_guards_witness :
  match glob_children_list Examples.env_nested 10 Examples.guarded_store 0
          "a/f/.." false
  with
  | Ok (l, h') => keeps same_guard Examples.guarded_store h'
  | _ => False
  end.
Proof.
  remember (glob_children_list Examples.env_nested 10 Examples.guarded_store
              0 "a/f/.." false) as run eqn:Hrun.
  pose proof Hrun as Hval. vm_compute in Hval.
  rewrite Hval in Hrun |- *.
  exact (glob_children_restores_guards _ _ _ _ _ _ _ _ (eq_sym Hrun)).
Defined.

Lemma prune_parent_weight_witness :
  ∃ n pn h' pn',
    Examples.expanded_store !! 2 = Some n ∧
    Examples.expanded_store !! 1 = Some pn ∧
    prune Examples.expanded_store 2 = Ok h' ∧ h' !! 1 = Some pn' ∧
    weight pn' = (weight pn + weight n)%Z.
Proof.
  remember Examples.expanded_store as h eqn:Hh.
  assert (Hpf : parents_first h).
  { assert (Hall : forallb (fun jy : nat * node =>
                      match parent jy.2 with
                      | Some q => (q <? jy.1)%nat
                      | None => true
                      end) (imap (fun j y => (j, y)) h) = true)
      by (subst h; vm_compute; reflexivity).
    rewrite forallb_forall in Hall.
    intros i x q Hi Hq. specialize (Hall (i, x)). simpl in Hall.
    rewrite Hq in Hall. apply Nat.ltb_lt, Hall.
    apply list_elem_of_In.
    apply (elem_of_lookup_imap_2 (fun j y => (j, y)) h x i Hi). }
  assert (Hn : ∃ n, h !! 2 = Some n ∧ parent n = Some 1 ∧
                    (prune_guard n <= 0)%Z ∧ children n = [] ∧
                    visited n = false).
  { subst h. vm_compute. eexists. split; [reflexivity |].
    repeat split. discriminate. }
  assert (Hp : ∃ pn, h !! 1 = Some pn).
  { subst h. vm_compute. eexists. reflexivity. }
  destruct Hn as (n & Hn & Hpar & Hguard & Hch & Hv).
  destruct Hp as (pn & Hpn).
  destruct (prune_parent_weight h 2 1 n pn Hpf Hn Hpar Hpn Hguard Hch Hv)
    as (h' & pn' & Hrun & Hpn' & Hw).
  exists n, pn, h', pn'. auto.
Defined.

(** ** The order of the output *)

Lemma list_leb_total (a b : list string) :
  Py.list_leb a b = false → Py.list_leb b a = true.
Proof.
  revert b. induction a as [| x a IH]; intros [| y b]; simpl; try discriminate;
    auto.
  rewrite (String.compare_antisym x y).
  destruct (y ?= x)%string; simpl; auto; discriminate.
Qed.

Lemma insert_by_sorted {A} (key : A → list string) (x : A) (l : list A) :
  Sorted (fun a b => Py.list_leb (key a) (key b) = true) l →
  Sorted (fun a b => Py.list_leb (key a) (key b) = true)
    (Py.insert_by key x l).
Proof.
  induction l as [| y l IH]; intros Hs; simpl.
  - constructor; constructor.
  - destruct (Py.list_leb (key x) (key y)) eqn:Hxy.
    + constructor; [exact Hs |]. constructor. exact Hxy.
    + inversion Hs as [| ? ? Hl Hhd]; subst.
      constructor; [apply IH; exact Hl |].
      destruct l as [| z l]; simpl.
      * constructor. apply list_leb_total. exact Hxy.
      * destruct (Py.list_leb (key x) (key z)).
        -- constructor. apply list_leb_total. exact Hxy.
        -- inversion Hhd; subst. constructor. assumption.
Qed.

Lemma sorted_Sorted {A} (key : A → list string) (l : list A) :
  Sorted (fun a b => Py.list_leb (key a) (key b) = true) (Py.sorted key l).
Proof.
  induction l as [| x l IH]; simpl; [constructor |].
  apply insert_by_sorted. exact IH.
Qed.



Lemma Dict_get_map_Some {V W} (f : string * V → W) (k : string)
    (d : list (string * V)) (w : W) :
  Dict.get k (map (fun kv => (kv.1, f kv)) d) = Some w →
  ∃ v, (k, v) ∈ d ∧ w = f (k, v).
Proof.
  induction d as [| [k' v'] d IH]; simpl; [discriminate |].
  destruct (String.eqb_spec k k') as [-> | Hne].
  - intros [= <-]. exists v'. split; [apply list_elem_of_here | reflexivity].
  - intros H. destruct (IH H) as (v & Hin & ->).
    exists v. split; [apply list_elem_of_further; exact Hin | reflexivity].
Qed.

(** X9: every group of paths the constructor returns is sorted by the
    segments of the paths, as [group.sort(key=split_path)] leaves it. *)
Theorem FileGrouper_groups_sorted (env : os_env) (fuel : nat) (root : string)
    (config : StrTree) (absolute_ distinct : bool) (arg : option nat)
    (dicts : dict_store) (g : grouper) (h : heap) (dicts' : dict_store) :
  FileGrouper env fuel root config absolute_ distinct arg dicts
    = Ok (g, h, dicts') →
  ∀ name_ paths, Dict.get name_ (groups g) = Some paths →
    Sorted (path_le env) paths.
Proof.
  intros H name_ paths Hget. unfold FileGrouper in H.
  bind_inv H as [t h0] Hnew.
  destruct (dicts !! _) as [ov |]; [| discriminate].
  bind_inv H as s1 Hload. bind_inv H as s2 Hrest.
  injection H as <- _ _. simpl in Hget.
  apply (Dict_get_map_Some (fun kv => Py.sorted (split_path env) kv.2))
    in Hget as (v & _ & ->).
  apply sorted_Sorted.
Qed.

Lemma FileGrouper_groups_sorted_witness :
  match FileGrouper Examples.env_flat 10 "."
          (Entry "b, a" (GroupName "both") Empty)
          false false None module_dicts
  with
  | Ok (g, h, dicts') =>
      ∀ name_ paths, Dict.get name_ (groups g) = Some paths →
        Sorted (path_le Examples.env_flat) paths
  | _ => False
  end.
Proof.
  remember (FileGrouper Examples.env_flat 10 "."
              (Entry "b, a" (GroupName "both") Empty)
              false false None module_dicts) as run eqn:Hrun.
  pose proof Hrun as Hval. vm_compute in Hval.
  rewrite Hval in Hrun |- *.
  exact (FileGrouper_groups_sorted _ _ _ _ _ _ _ _ _ _ _ (eq_sym Hrun)).
Defined.

(** ** [locate] and the generators built on it *)

Lemma holds_children_refl (n : node) : holds_children n n.
Proof. split; auto. Qed.

Lemma holds_children_trans (a b c : node) :
  holds_children a b → holds_children b c → holds_children a c.
Proof. intros [Hv1 H1] [Hv2 H2]. split; [congruence | auto]. Qed.

Lemma Dict_get_set_eq {V} (k : string) (v : V) (d : list (string * V)) :
  Dict.get k (Dict.set k v d) = Some v.
Proof.
  induction d as [| [k' v'] d IH]; simpl.
  - rewrite String.eqb_refl. reflexivity.
  - destruct (String.eqb k k') eqn:E; simpl.
    + rewrite String.eqb_refl. reflexivity.
    + rewrite E. exact IH.
Qed.

(** [get_child] returns the node that the dictionary of [self] holds
    under the name when it returns, and takes nothing away. *)
Lemma get_child_found (env : os_env) (h : heap) (self : ref) (name_ : string)
    (group_ : option string) (quasi_ : option bool) (c : ref) (h' : heap) :
  get_child env h self name_ group_ quasi_ = Ok (c, h') →
  keeps holds_children h h' ∧
  ∃ n', h' !! self = Some n' ∧ Dict.get name_ (children n') = Some c.
Proof.
  unfold get_child. intros H. bind_inv H as n Hn. apply get_Ok in Hn.
  destruct (Dict.get name_ (children n)) as [c0 |] eqn:Hget.
  - injection H as <- <-. split; [| eauto].
    apply keeps_refl, holds_children_refl.
  - unfold new_node in H. bind_inv H as base Hbase.
    bind_inv H as anc Hanc. injection H as <- <-.
    assert (Hself : self < length h) by (eapply lookup_lt_Some; eauto).
    split.
    + intros r x Hx. rewrite !modify_lookup.
      assert (Hr : r < length h) by (eapply lookup_lt_Some; eauto).
      destruct (decide (length h = r)); [lia |].
      destruct (decide (self = r)) as [-> |].
      * rewrite (lookup_app_l_Some _ _ _ _ Hx). simpl.
        eexists. split; [reflexivity |]. split; [reflexivity |].
        intros k v Hk. simpl.
        assert (x = n) by congruence. subst x.
        rewrite Dict_get_set_ne; [exact Hk |]. congruence.
      * rewrite (lookup_app_l_Some _ _ _ _ Hx).
        eexists. split; [reflexivity |]. apply holds_children_refl.
    + rewrite !modify_lookup.
      destruct (decide (length h = self)); [lia |].
      destruct (decide (self = self)); [| congruence].
      rewrite (lookup_app_l_Some _ _ _ _ Hn). simpl.
      eexists. split; [reflexivity |]. simpl. apply Dict_get_set_eq.
Qed.

Lemma locate_holds_children (env : os_env) :
  ∀ parts h cursor r h',
    locate env h cursor parts = Ok (r, h') → keeps holds_children h h'.
Proof.
  induction parts as [| part rest IH]; intros h cursor r h' H; simpl in H.
  - injection H as _ <-. apply keeps_refl, holds_children_refl.
  - bind_inv H as [c h1] Hc. bind_inv H as cn Hcn.
    destruct (get_child_found _ _ _ _ _ _ _ _ Hc) as [H1 _].
    destruct (visited cn).
    + injection H as _ <-. exact H1.
    + eapply keeps_trans; [exact holds_children_trans | exact H1 |].
      eapply IH; eauto.
Qed.

(** X10: [locate] is a get-or-create.  The node it returns is the one
    reached from the cursor through the dictionaries of children along
    the path; it is not visited unless the path is empty; and a second
    call with the same path returns the same node and leaves the store
    as it is. *)
Theorem locate_found (env : os_env) :
  ∀ parts h cursor r h',
    locate env h cursor parts = Ok (Some r, h') →
    follow h' cursor parts = Some r ∧
    (parts ≠ [] → ∃ n, h' !! r = Some n ∧ visited n = false) ∧
    locate env h' cursor parts = Ok (Some r, h').
Proof.
  induction parts as [| part rest IH]; intros h cursor r h' H; simpl in H.
  - injection H as <- <-. split; [reflexivity |].
    split; [congruence | reflexivity].
  - bind_inv H as [c h1] Hc. bind_inv H as cn Hcn. apply get_Ok in Hcn.
    destruct (visited cn) eqn:Hv; [discriminate |].
    destruct (get_child_found _ _ _ _ _ _ _ _ Hc) as [_ (n1 & Hn1 & Hget1)].
    pose proof (locate_holds_children _ _ _ _ _ _ H) as Hk.
    destruct (Hk cursor n1 Hn1) as (n' & Hn' & _ & Hch).
    destruct (Hk c cn Hcn) as (cn' & Hcn' & Hv' & _).
    destruct (IH _ _ _ _ H) as (Hfollow & Hunv & Hagain).
    split; [| split].
    + simpl. rewrite Hn', (Hch _ _ Hget1). exact Hfollow.
    + intros _. destruct rest as [| part2 rest].
      * simpl in H. injection H as <- <-. exists cn. auto.
      * apply Hunv. discriminate.
    + simpl. unfold get_child.
      rewrite (proj2 (get_Ok _ _ _) Hn'). simpl.
      rewrite (Hch _ _ Hget1). simpl.
      rewrite (proj2 (get_Ok _ _ _) Hcn'). simpl.
      rewrite Hv', Hv. exact Hagain.
Qed.

Lemma locate_found_witness :
  match locate Examples.env_nested
          (Examples.root_only Examples.env_nested FileTreeNode) 0 ["a"; "f"]
  with
  | Ok (Some r, h') =>
      follow h' 0 ["a"; "f"] = Some r ∧
      (["a"; "f"] ≠ [] → ∃ n, h' !! r = Some n ∧ visited n = false) ∧
      locate Examples.env_nested h' 0 ["a"; "f"] = Ok (Some r, h')
  | _ => False
  end.
Proof.
  remember (locate Examples.env_nested
              (Examples.root_only Examples.env_nested FileTreeNode) 0
              ["a"; "f"]) as run eqn:Hrun.
  pose proof Hrun as Hval. vm_compute in Hval.
  rewrite Hval in Hrun |- *.
  exact (locate_found _ _ _ _ _ _ (eq_sym Hrun)).
Defined.









(** ** [__init__.py]: splitting the arguments *)

Lemma rindex_mem (c : Ascii.ascii) (s : string) :
  Py.mem_char c s = true → ∃ i, PyStr.rindex c s = Some i.
Proof.
  unfold Py.mem_char. induction s as [| x s IH]; simpl; [discriminate |].
  intros H. apply orb_true_iff in H as [H | H].
  - destruct (PyStr.rindex c s); [eauto |].
    rewrite Ascii.eqb_sym, H. eauto.
  - destruct (IH H) as [i ->]. eauto.
Qed.

Lemma rindex_None (c : Ascii.ascii) (s : string) :
  PyStr.rindex c s = None → Py.mem_char c s = false.
Proof.
  intros H. destruct (Py.mem_char c s) eqn:E; [| reflexivity].
  destruct (rindex_mem _ _ E) as [i Hi]. congruence.
Qed.

Lemma rindex_split (c : Ascii.ascii) :
  ∀ s i, PyStr.rindex c s = Some i →
    PyStr.upto i s +:+ String c (PyStr.from (S i) s) = s ∧
    Py.mem_char c (PyStr.from (S i) s) = false.
Proof.
  induction s as [| x s IH]; intros i H; simpl in H; [discriminate |].
  destruct (PyStr.rindex c s) as [j |] eqn:Hj.
  - injection H as <-. destruct (IH j eq_refl) as [Heq Hno].
    split; [| exact Hno].
    change (String x (PyStr.upto j s +:+ String c (PyStr.from (S j) s))
            = String x s).
    rewrite Heq. reflexivity.
  - destruct (Ascii.eqb_spec x c) as [-> | Hne]; [| discriminate].
    injection H as <-. split; [reflexivity |].
    change (PyStr.from 1 (String c s)) with s.
    apply rindex_None. exact Hj.
Qed.

Lemma split_last_colon_spec (what arg : string) :
  match split_last_colon what arg with
  | Accepted pg => rejoin pg = arg ∧ Py.mem_char colon pg.2 = false
  | Critical _ => Py.mem_char colon arg = false
  | Raised _ => False
  end.
Proof.
  unfold split_last_colon.
  destruct (Py.mem_char colon arg) eqn:Hm; simpl; [| reflexivity].
  destruct (rindex_mem _ _ Hm) as [i Hi]. rewrite Hi.
  rewrite Nat.add_1_r. apply rindex_split. exact Hi.
Qed.

Lemma split_manuals_loop_spec :
  ∀ args acc,
    match split_manuals_loop args acc with
    | Accepted l =>
        ∃ l', l = (acc ++ l')%list ∧ map rejoin l' = args ∧
              Forall (fun pg => Py.mem_char colon pg.2 = false) l'
    | Critical _ => Exists (fun a => Py.mem_char colon a = false) args
    | Raised _ => False
    end.
Proof.
  induction args as [| a args IH]; intros acc; simpl.
  - exists []. rewrite app_nil_r. auto.
  - pose proof (split_last_colon_spec "manual" a) as Ha.
    destruct (split_last_colon "manual" a) as [pg | msg | e]; [| | exact Ha].
    + specialize (IH (acc ++ [pg])%list).
      destruct (split_manuals_loop args (acc ++ [pg])%list) as [l | msg | e];
        [| | exact IH].
      * destruct IH as (l' & -> & Hmap & Hall). destruct Ha as [Hj Hno].
        exists (pg :: l'). rewrite <- app_assoc. simpl.
        repeat split; [congruence | constructor; auto].
      * apply Exists_cons_tl. exact IH.
    + apply Exists_cons_hd. exact Ha.
Qed.

(** X12: the [-m P:G] arguments are split at their last colon.  When the
    arguments are accepted there is at least one, each pair put together
    again with a colon is the argument it came from, in order, and no
    group name holds a colon; they are refused, through [critical_err],
    exactly when the list is empty or an argument has no colon; and
    [rindex] never raises. *)
Theorem split_manuals_round_trip (args : list string) :
  match split_manuals (Some args) with
  | Accepted l =>
      args ≠ [] ∧ map rejoin l = args ∧
      Forall (fun pg => Py.mem_char colon pg.2 = false) l
  | Critical _ =>
      args = [] ∨ Exists (fun a => Py.mem_char colon a = false) args
  | Raised _ => False
  end.
Proof.
  unfold split_manuals. destruct args as [| a args]; [simpl; auto |].
  change (length (a :: args) <=? 0)%nat with false. cbv iota.
  pose proof (split_manuals_loop_spec (a :: args) []) as H.
  destruct (split_manuals_loop (a :: args) []) as [l | msg | e];
    [| auto | exact H].
  destruct H as (l' & -> & Hmap & Hall). simpl. auto.
Qed.

Lemma Dict_get_app {V} (k : string) (l1 l2 : list (string * V)) :
  Dict.get k (l1 ++ l2)
  = match Dict.get k l1 with Some v => Some v | None => Dict.get k l2 end.
Proof.
  induction l1 as [| [k' v'] l1 IH]; simpl; [reflexivity |].
  destruct (String.eqb k k'); [reflexivity | exact IH].
Qed.

Lemma split_overrides_loop_spec :
  ∀ args acc_o acc_m,
    match split_overrides_loop args acc_o, split_manuals_loop args acc_m with
    | Accepted d, Accepted l =>
        ∃ l', l = (acc_m ++ l')%list ∧
          ∀ k, Dict.get k d
               = match Dict.get k (rev l') with
                 | Some v => Some v
                 | None => Dict.get k acc_o
                 end
    | Critical _, Critical _ => True
    | _, _ => False
    end.
Proof.
  induction args as [| a args IH]; intros acc_o acc_m; simpl.
  - exists []. rewrite app_nil_r. split; [reflexivity |]. reflexivity.
  - unfold split_last_colon.
    destruct (Py.mem_char colon a) eqn:Hm; simpl; [| exact I].
    destruct (rindex_mem _ _ Hm) as [i Hi]. rewrite Hi.
    set (p := PyStr.upto i a). set (v := PyStr.from (i + 1) a).
    specialize (IH (Dict.set p v acc_o) (acc_m ++ [(p, v)])%list).
    destruct (split_overrides_loop args (Dict.set p v acc_o)) as [d | m | e];
      destruct (split_manuals_loop args (acc_m ++ [(p, v)])%list)
        as [l | m' | e']; try contradiction; [| exact I].
    destruct IH as (l' & -> & Hget).
    exists ((p, v) :: l'). rewrite <- app_assoc. split; [reflexivity |].
    intros k. rewrite Hget. simpl. rewrite Dict_get_app. simpl.
    destruct (Dict.get k (rev l')); [reflexivity |].
    destruct (String.eqb_spec k p) as [-> | Hne].
    + apply Dict_get_set_eq.
    + apply Dict_get_set_ne. exact Hne.
Qed.

(** X13: the [-o G:N] arguments are split in the same way and go into a
    dictionary: they are accepted exactly when the same list is accepted
    as [-m] arguments, and the dictionary then maps each key to the value
    of the last argument that has that key. *)
Theorem split_overrides_last_wins (args : list string) :
  match split_overrides (Some args) with
  | Accepted d =>
      ∃ l, split_manuals (Some args) = Accepted l ∧
           ∀ k, Dict.get k d = Dict.get k (rev l)
  | Critical _ => ∃ msg, split_manuals (Some args) = Critical msg
  | Raised _ => False
  end.
Proof.
  unfold split_overrides, split_manuals.
  destruct args as [| a args]; [simpl; eauto |].
  change (length (a :: args) <=? 0)%nat with false. cbv iota.
  pose proof (split_overrides_loop_spec (a :: args) [] []) as H.
  destruct (split_overrides_loop (a :: args) []) as [d | m | e];
    destruct (split_manuals_loop (a :: args) []) as [l | m' | e'];
    try contradiction; [| eauto].
  destruct H as (l' & -> & Hget). exists l'. split; [reflexivity |].
  intros k. rewrite Hget. destruct (Dict.get k (rev l')); reflexivity.
Qed.

(** ** [file.py]: the configuration *)

Scheme yaml_mutual := Induction for yaml Sort Prop
  with yaml_items_mutual := Induction for yaml_items Sort Prop.

Lemma forallb_truthy (l : list string) :
  forallb Py.truthy l = true ↔ Forall (fun a => a ≠ "") l.
Proof.
  induction l as [| a l IH]; simpl.
  - split; auto.
  - rewrite andb_true_iff, IH. unfold Py.truthy.
    split.
    + intros [Ha Hl]. constructor; [| exact Hl].
      apply negb_true_iff in Ha. apply String.eqb_neq. exact Ha.
    + intros H. inversion H; subst. split; [| assumption].
      apply negb_true_iff, String.eqb_neq. assumption.
Qed.

(** X14: [check_file_tree] accepts a dictionary exactly when every key,
    at every depth, is a string that is not empty and whose alternatives
    (separated by a comma and a space) are not empty, and every value is
    a string or a dictionary of the same kind; it refuses the others
    through [critical_err] and raises nothing else.  An accepted
    dictionary is a pattern map: taken as a [StrTree] and back it is the
    same dictionary. *)
Theorem check_file_tree_accepts (tree : yaml_items) :
  ∀ path,
    match check_file_tree tree path with
    | Accepted _ => valid_tree tree ∧ of_StrTree (to_StrTree tree) = tree
    | Critical _ => ¬ valid_tree tree
    | Raised _ => False
    end.
Proof.
  induction tree as [| | | sub IHsub | | | k IHk v IHv rest IHrest]
    using yaml_items_mutual with
    (P := fun v => match v with
                   | YDict sub =>
                       ∀ path,
                         match check_file_tree sub path with
                         | Accepted _ =>
                             valid_tree sub ∧
                             of_StrTree (to_StrTree sub) = sub
                         | Critical _ => ¬ valid_tree sub
                         | Raised _ => False
                         end
                   | _ => True
                   end); try exact I.
  - exact IHsub.
  - intros path. simpl. auto.
  - intros path. simpl.
    destruct k as [| b | ks | d | n];
      try (intros [(ks' & Hk & _) _]; discriminate).
    destruct (String.eqb ks "" || negb (forallb Py.truthy (Py.split ", " ks)))
      eqn:Hbad.
    + intros [(ks' & Hk & Hne & Hall) _]. injection Hk as <-.
      apply orb_true_iff in Hbad as [Hbad | Hbad].
      * apply String.eqb_eq in Hbad. contradiction.
      * apply negb_true_iff in Hbad. apply forallb_truthy in Hall. congruence.
    + apply orb_false_iff in Hbad as [Hne Hall].
      apply String.eqb_neq in Hne. apply negb_false_iff in Hall.
      apply forallb_truthy in Hall.
      assert (Hkey : ∃ ks', YStr ks = YStr ks' ∧ ks' ≠ "" ∧
                            Forall (fun a => a ≠ "") (Py.split ", " ks'))
        by eauto.
      destruct v as [| b | g | sub | n];
        try (intros (_ & Hv & _); exact Hv).
      * specialize (IHrest path).
        destruct (check_file_tree rest path) as [u | msg | e];
          [| | exact IHrest].
        -- destruct IHrest as [Hval Hrt]. simpl. rewrite Hrt. auto.
        -- intros (_ & _ & Hr). auto.
      * specialize (IHv (path +:+ " -> " +:+ ks)). simpl in IHv.
        destruct (check_file_tree sub (path +:+ " -> " +:+ ks))
          as [u | msg | e]; [| | exact IHv].
        -- specialize (IHrest path).
           destruct (check_file_tree rest path) as [u' | msg | e];
             [| | exact IHrest].
           ++ destruct IHv as [Hv Hrtv]. destruct IHrest as [Hr Hrtr].
              simpl. rewrite Hrtv, Hrtr. auto.
           ++ intros (_ & _ & Hr). auto.
        -- intros (_ & Hv & _). auto.
Qed.








Lemma and_then_Accepted {A B} (m : checked A) (k : A → checked B) (b : B) :
  and_then m k = Accepted b → ∃ a, m = Accepted a ∧ k a = Accepted b.
Proof. destruct m; simpl; [eauto | discriminate | discriminate]. Qed.

(** X16: [group_from] never writes to a dictionary it was given or to a
    default one: the overrides go into a dictionary of its own, the only
    object the run adds to the dictionaries, and the grouper returned
    refers to it.  In that dictionary the default group is mapped to
    itself, and every other override given as an argument is there as
    given, whatever the configuration file says for the same group. *)
Theorem group_from_own_overrides (env : os_env) (fenv : file_env)
    (fuel : nat) (config_path root : option string)
    (absolute_ distinct : bool) (extra_globs : list (string * string))
    (overrides_ : gmap string string) (dicts : dict_store)
    (g : grouper) (h : heap) (dicts' : dict_store) :
  group_from env fenv fuel config_path root absolute_ distinct extra_globs
    overrides_ dicts = Accepted (Ok (g, h, dicts')) →
  overrides g = length dicts ∧
  ∃ noverrides,
    dicts' = (dicts ++ [noverrides])%list ∧
    noverrides !! DEFAULT_GROUP = Some DEFAULT_GROUP ∧
    ∀ k v, k ≠ DEFAULT_GROUP → overrides_ !! k = Some v →
           noverrides !! k = Some v.
Proof.
  unfold group_from. intros H.
  apply and_then_Accepted in H as ([[files root'] nov] & _ & H).
  destruct (negb _ && negb _); [discriminate |].
  injection H as H.
  destruct (group_overrides _ _ _ _ _ _ _ _ _ _ _ H) as (Hov & ov & Hd & ->).
  simpl in Hov, Hd |- *. split; [exact Hov |].
  rewrite lookup_app_r in Hd by lia. rewrite Nat.sub_diag in Hd.
  injection Hd as <-.
  exists (<[DEFAULT_GROUP := DEFAULT_GROUP]> (overrides_ ∪ nov)).
  split; [| split].
  - rewrite insert_app_r_alt by lia. rewrite Nat.sub_diag. reflexivity.
  - apply lookup_insert_eq.
  - intros k v Hk Hget. rewrite lookup_insert_ne by congruence.
    apply lookup_union_Some_l. exact Hget.
Qed.

Lemma group_from_own_overrides_witness :
  ∃ g h dicts',
    group_from Examples.env_flat FileExamples.fenv_flat 10
      (Some "fgroup.yaml") None false false []
      {["first" := "uno"; "unknown" := "other"]} module_dicts
    = Accepted (Ok (g, h, dicts')) ∧
    overrides g = length module_dicts ∧
    ∃ noverrides,
      dicts' = (module_dicts ++ [noverrides])%list ∧
      noverrides !! DEFAULT_GROUP = Some DEFAULT_GROUP ∧
      ∀ k v, k ≠ DEFAULT_GROUP →
             ({["first" := "uno"; "unknown" := "other"]}
                : gmap string string) !! k = Some v →
             noverrides !! k = Some v.
Proof.
  assert (Hrun : ∃ g h dicts',
            group_from Examples.env_flat FileExamples.fenv_flat 10
              (Some "fgroup.yaml") None false false []
              {["first" := "uno"; "unknown" := "other"]} module_dicts
            = Accepted (Ok (g, h, dicts'))).
  { vm_compute. do 3 eexists. reflexivity. }
  destruct Hrun as (g & h & dicts' & Hrun).
  exists g, h, dicts'. split; [exact Hrun |].
  exact (group_from_own_overrides _ _ _ _ _ _ _ _ _ _ _ _ _ Hrun).
Defined.

Lemma read_config_root (env : os_env) (fenv : file_env)
    (config_path r : string) (files : yaml_items) (root0 : string)
    (nov : gmap string string) :
  read_config env fenv config_path (Some r) = Accepted (files, root0, nov) →
  root0 = r.
Proof.
  unfold read_config. intros Hread.
  destruct (safe_load fenv _) as [[| | | config |] | [| |]];
    try discriminate.
  destruct (unknown_keys config); [| discriminate].
  apply and_then_Accepted in Hread as (nov1 & _ & Hread).
  simpl in Hread.
  apply and_then_Accepted in Hread as (fs & _ & Hread).
  injection Hread as _ <- _. reflexivity.
Qed.

(** X17: when [group_from] gets as far as [group], the root it hands
    over is the empty path or a path that exists; a root given as an
    argument is used as [abs_path(os.getcwd(), root)], whatever the
    configuration file says, and without a configuration file and without
    a root the root is the current directory. *)
Theorem group_from_root (env : os_env) (fenv : file_env)
    (fuel : nat) (config_path root : option string)
    (absolute_ distinct : bool) (extra_globs : list (string * string))
    (overrides_ : gmap string string) (dicts : dict_store)
    (run : outcome (grouper * heap * dict_store)) :
  group_from env fenv fuel config_path root absolute_ distinct extra_globs
    overrides_ dicts = Accepted run →
  ∃ root' nfiles noverrides,
    run = group_ env fuel root' nfiles absolute_ distinct
            (Some (length dicts)) (dicts ++ [noverrides])%list ∧
    (root' = "" ∨ path_exists fenv root' = true) ∧
    (∀ r, root = Some r → root' = abs_path env (getcwd env) r) ∧
    (root = None → (config_path = None ∨ config_path = Some "") →
     root' = abs_path env (getcwd env) ".").
Proof.
  unfold group_from. intros H.
  apply and_then_Accepted in H as ([[files root0] nov] & Hread & H).
  assert (Hroot : (∀ r, root = Some r → root0 = r) ∧
                  (root = None →
                   config_path = None ∨ config_path = Some "" →
                   root0 = ".")).
  { destruct config_path as [[| c cp] |].
    - destruct extra_globs; [discriminate |]. injection Hread as _ <- _.
      split; [intros r ->; reflexivity | intros ->; reflexivity].
    - split; [| intros _ [? | ?]; discriminate].
      intros r ->. eapply read_config_root. exact Hread.
    - destruct extra_globs; [discriminate |]. injection Hread as _ <- _.
      split; [intros r ->; reflexivity | intros ->; reflexivity]. }
  destruct Hroot as [Hgiven Hdefault].
  assert (Hok : abs_path env (getcwd env) root0 = "" ∨
                path_exists fenv (abs_path env (getcwd env) root0) = true).
  { destruct (String.eqb_spec (abs_path env (getcwd env) root0) "");
      [auto |].
    destruct (path_exists fenv (abs_path env (getcwd env) root0));
      [auto | discriminate]. }
  assert (Hgo : negb (abs_path env (getcwd env) root0 =? "")
                && negb (path_exists fenv (abs_path env (getcwd env) root0))
                = false).
  { destruct Hok as [-> | ->]; [reflexivity | apply andb_false_r]. }
  rewrite Hgo in H. injection H as <-.
  do 3 eexists. split; [reflexivity |]. split; [exact Hok |]. split.
  - intros r Hr. rewrite (Hgiven r Hr). reflexivity.
  - intros Hn Hc. rewrite (Hdefault Hn Hc). reflexivity.
Qed.

Lemma group_from_root_witness :
  ∃ run,
    group_from Examples.env_flat FileExamples.fenv_flat 10
      (Some "fgroup.yaml") (Some ".") false false [("b", "second")]
      ∅ module_dicts = Accepted run ∧
    ∃ root' nfiles noverrides,
      run = group_ Examples.env_flat 10 root' nfiles false false
              (Some (length module_dicts))
              (module_dicts ++ [noverrides])%list ∧
      (root' = "" ∨ path_exists FileExamples.fenv_flat root' = true) ∧
      (∀ r, Some "." = Some r →
            root' = abs_path Examples.env_flat
                      (getcwd Examples.env_flat) r) ∧
      (Some "." = None →
       (Some "fgroup.yaml" = None ∨ Some "fgroup.yaml" = Some "") →
       root' = abs_path Examples.env_flat (getcwd Examples.env_flat) ".").
Proof.
  assert (Hrun : ∃ run,
            group_from Examples.env_flat FileExamples.fenv_flat 10
              (Some "fgroup.yaml") (Some ".") false false [("b", "second")]
              ∅ module_dicts = Accepted run).
  { vm_compute. eexists. reflexivity. }
  destruct Hrun as (run & Hrun).
  exists run. split; [exact Hrun |].
  exact (group_from_root _ _ _ _ _ _ _ _ _ _ _ Hrun).
Defined.

(** ** The weights of a grouper *)


Lemma Dict_has_set {V} (k k' : string) (v : V) (d : list (string * V)) :
  Dict.has k d = true → Dict.has k (Dict.set k' v d) = true.
Proof.
  unfold Dict.has. destruct (String.eqb_spec k k') as [-> | Hne].
  - rewrite Dict_get_set_eq. reflexivity.
  - rewrite Dict_get_set_ne by exact Hne. auto.
Qed.





(** ** [ancestor] and [ancestors] *)

Lemma ancestor_loop_nth (h : heap) (self : ref) :
  parents_first h →
  ∀ k c cn lc fuel,
    (c ≤ self)%nat → h !! c = Some cn →
    ancestors_go fuel h (parent cn) = Ok lc →
    ancestor_loop h self c k
    = Ok (nth (min k (length lc)) (c :: lc) c).
Proof.
  intros Hpf. induction k as [| k IH]; intros c cn lc fuel Hle Hc Hanc.
  - reflexivity.
  - simpl ancestor_loop. rewrite (proj2 (get_Ok _ _ _) Hc). simpl.
    destruct (parent cn) as [p |] eqn:Hp.
    + destruct fuel as [| f]; simpl in Hanc; [discriminate |].
      bind_inv Hanc as pn Hpn. apply get_Ok in Hpn.
      bind_inv Hanc as lp Hlp. injection Hanc as <-.
      pose proof (Hpf c cn p Hc Hp) as Hlt.
      destruct (Nat.eqb_spec p self) as [-> | Hne]; [lia |].
      rewrite (IH p pn lp f ltac:(lia) Hpn Hlp). f_equal.
      apply nth_indep. cbn [length].
      apply Nat.lt_succ_r, Nat.le_min_r.
    + assert (lc = []) as ->.
      { destruct fuel; simpl in Hanc; injection Hanc as <-; reflexivity. }
      destruct (Nat.eqb_spec c self) as [-> | Hne]; [reflexivity |].
      rewrite (IH c cn [] fuel Hle Hc).
      * simpl. rewrite Nat.min_0_r. reflexivity.
      * rewrite Hp. destruct fuel; reflexivity.
Qed.

(** X19: [ancestor(n)] is the [n]-th node of the walk up the tree that
    [ancestors] makes, the node itself being number 0, or the last node
    of that walk, the root, when the walk is shorter. *)
Theorem ancestor_nth (h : heap) (self : ref) (n : nat) (l : list ref) :
  parents_first h → ancestors h self = Ok l →
  ancestor h self n = Ok (nth (min n (length l)) (self :: l) self).
Proof.
  intros Hpf H. unfold ancestors in H. bind_inv H as sn Hsn.
  apply get_Ok in Hsn. unfold ancestor.
  destruct (Nat.eqb_spec n 1) as [-> | Hn].
  - rewrite (proj2 (get_Ok _ _ _) Hsn). simpl.
    destruct (parent sn) as [p |] eqn:Hp.
    + destruct (length h) as [| f]; simpl in H; [discriminate |].
      bind_inv H as pn Hpn. bind_inv H as lp Hlp. injection H as <-.
      reflexivity.
    + destruct (length h); simpl in H; injection H as <-; reflexivity.
  - eapply ancestor_loop_nth; eauto.
Qed.

Lemma ancestor_nth_witness :
  ∃ l, ancestors Examples.expanded_store 2 = Ok l ∧
       ancestor Examples.expanded_store 2 5
       = Ok (nth (min 5 (length l)) (2 :: l) 2).
Proof.
  remember Examples.expanded_store as h eqn:Hh.
  assert (Hpf : parents_first h).
  { assert (Hall : forallb (fun jy : nat * node =>
                      match parent jy.2 with
                      | Some q => (q <? jy.1)%nat
                      | None => true
                      end) (imap (fun j y => (j, y)) h) = true)
      by (subst h; vm_compute; reflexivity).
    rewrite forallb_forall in Hall.
    intros i x q Hi Hq. specialize (Hall (i, x)). simpl in Hall.
    rewrite Hq in Hall. apply Nat.ltb_lt, Hall.
    apply list_elem_of_In.
    apply (elem_of_lookup_imap_2 (fun j y => (j, y)) h x i Hi). }
  assert (Hl : ∃ l, ancestors h 2 = Ok l).
  { subst h. vm_compute. eexists. reflexivity. }
  destruct Hl as [l Hl]. exists l. split; [exact Hl |].
  exact (ancestor_nth h 2 5 l Hpf Hl).
Defined.

(** ** Quasi nodes *)

Lemma same_kin_refl (n : node) : same_kin n n.
Proof. split; reflexivity. Qed.

Lemma same_kin_trans (a b c : node) :
  same_kin a b → same_kin b c → same_kin a c.
Proof. unfold same_kin. intros [] []. split; congruence. Qed.

Lemma quasi_closed_kin (h h' : heap) :
  quasi_closed h → length h' = length h → keeps same_kin h h' →
  quasi_closed h'.
Proof.
  intros Hq Hlen Hk r n' p Hn' Hp Hnq.
  assert (Hr : r < length h)
    by (rewrite <- Hlen; eapply lookup_lt_Some; eauto).
  destruct (lookup_lt_is_Some_2 h r Hr) as [n Hn].
  destruct (Hk r n Hn) as (n1 & Hn1 & Hpar & Hqu).
  assert (n1 = n') by congruence. subst n1.
  destruct (Hq r n p Hn ltac:(congruence) ltac:(congruence))
    as (pn & Hpn & Hpq).
  destruct (Hk p pn Hpn) as (pn' & Hpn' & _ & Hqu').
  exists pn'. split; [exact Hpn' | congruence].
Qed.

Lemma quasi_closed_modify (f : node → node) (r : ref) (h : heap) :
  (∀ n, same_kin n (f n)) → quasi_closed h → quasi_closed (modify f r h).
Proof.
  intros Hf Hq. apply (quasi_closed_kin h); [exact Hq | |].
  - unfold modify. apply length_alter.
  - apply keeps_modify; [apply same_kin_refl | exact Hf].
Qed.

Lemma observe_up_quasi_closed (fuel : nat) :
  ∀ h cursor h',
    quasi_closed_below h cursor → observe_up fuel h cursor = Ok h' →
    quasi_closed h'.
Proof.
  induction fuel as [| f IH]; intros h cursor h' Hq H;
    destruct cursor as [c |]; simpl in H; try discriminate.
  - injection H as <-. intros r n p Hn Hp Hnq.
    destruct (Hq r n p Hn Hp Hnq) as [? | ?]; [discriminate | assumption].
  - bind_inv H as cn Hcn. apply get_Ok in Hcn.
    destruct (quasi cn) eqn:Hcq; simpl in H.
    + eapply IH; [| exact H].
      intros r n p Hn Hp Hnq. rewrite modify_lookup in Hn.
      destruct (decide (c = r)) as [-> |].
      * rewrite Hcn in Hn. injection Hn as <-. simpl in Hp. left. exact Hp.
      * right. destruct (Hq r n p Hn Hp Hnq) as [[= ->] | (pn & Hpn & Hpq)].
        -- exists (set_quasi false cn). split; [| reflexivity].
           apply modify_lookup_eq. exact Hcn.
        -- rewrite modify_lookup. destruct (decide (c = p)) as [-> |].
           ++ rewrite Hpn. simpl. eauto.
           ++ eauto.
    + injection H as <-. intros r n p Hn Hp Hnq.
      destruct (Hq r n p Hn Hp Hnq) as [[= ->] | ?]; [eauto | assumption].
  - injection H as <-. intros r n p Hn Hp Hnq.
    destruct (Hq r n p Hn Hp Hnq) as [? | ?]; [discriminate | assumption].
Qed.

Lemma observe_quasi_closed (h : heap) (self : ref) (h' : heap) :
  quasi_closed h → observe h self = Ok h' → quasi_closed h'.
Proof.
  intros Hq H. unfold observe in H. bind_inv H as sn Hsn.
  apply get_Ok in Hsn. destruct (quasi sn) eqn:Hsq; simpl in H.
  - eapply observe_up_quasi_closed; [| exact H].
    intros r n p Hn Hp Hnq. rewrite modify_lookup in Hn.
    destruct (decide (self = r)) as [-> |].
    + rewrite Hsn in Hn. injection Hn as <-. left. exact Hp.
    + right. destruct (Hq r n p Hn Hp Hnq) as (pn & Hpn & Hpq).
      rewrite modify_lookup. destruct (decide (self = p)) as [-> |].
      * rewrite Hpn. simpl. eauto.
      * eauto.
  - injection H as <-. exact Hq.
Qed.

Ltac kin_field := intros; split; reflexivity.

Lemma collapse_quasi_closed (fuel : nat) (h : heap) (self : ref)
    (h' : heap) :
  quasi_closed h → collapse fuel h self = Ok h' → quasi_closed h'.
Proof.
  intros Hq H. apply (quasi_closed_kin h); [exact Hq | |].
  - eapply collapse_length; eauto.
  - revert H. apply collapse_keeps;
      [apply same_kin_refl | apply same_kin_trans | kin_field ..].
Qed.

Lemma prune_transaction_quasi_closed (h : heap)
    (parents sub_nodes : list ref) (h3 : heap) :
  quasi_closed h →
  for_each sub_nodes (fun nd h => prune h nd)
    (foldl (fun h p => modify (add_prune_guard 1) p h) h parents) = Ok h3 →
  quasi_closed
    (foldl (fun h p => modify (add_prune_guard (-1)) p h) h3 parents).
Proof.
  intros Hq H. apply (quasi_closed_kin h); [exact Hq | |].
  - rewrite length_foldl_modify.
    rewrite (for_each_length _ _ (fun x h0 h0' Hp =>
               prune_go_length _ _ _ _ Hp) _ _ H).
    apply length_foldl_modify.
  - revert H. apply prune_transaction_keeps;
      [apply same_kin_refl | apply same_kin_trans | kin_field ..].
Qed.

Lemma get_child_quasi_closed (env : os_env) (h : heap) (self : ref)
    (name_ : string) (group_ : option string) (quasi_ : option bool)
    (c : ref) (h' : heap) :
  quasi_ ≠ Some false →
  quasi_closed h → get_child env h self name_ group_ quasi_ = Ok (c, h') →
  quasi_closed h'.
Proof.
  intros Hqa Hq H.
  assert (Hk : keeps same_kin h h').
  { revert H. apply get_child_keeps;
      [apply same_kin_refl | apply same_kin_trans | kin_field ..]. }
  unfold get_child in H. bind_inv H as sn Hsn. apply get_Ok in Hsn.
  destruct (Dict.get name_ (children sn)).
  { injection H as _ <-. exact Hq. }
  unfold new_node in H. bind_inv H as base Hbase.
  bind_inv H as anc Hanc. injection H as _ <-.
  intros r n p Hn Hp Hnq.
  destruct (decide (r < length h)%nat) as [Hlt | Hge].
  - destruct (lookup_lt_is_Some_2 h r Hlt) as [n0 Hn0].
    destruct (Hk r n0 Hn0) as (n1 & Hn1 & Hpar & Hqu).
    assert (n1 = n) by congruence. subst n1.
    destruct (Hq r n0 p Hn0 ltac:(congruence) ltac:(congruence))
      as (pn & Hpn & Hpq).
    destruct (Hk p pn Hpn) as (pn' & Hpn' & _ & Hqu').
    exists pn'. split; [exact Hpn' | congruence].
  - rewrite !modify_lookup in Hn.
    assert (Hself : self < length h) by (eapply lookup_lt_Some; eauto).
    assert (Hr : r = length h).
    { destruct (decide (length h = r)) as [<- |]; [reflexivity |].
      destruct (decide (self = r)); [lia |].
      apply lookup_lt_Some in Hn. rewrite length_app in Hn. simpl in Hn.
      lia. }
    subst r. destruct (decide (length h = length h)); [| congruence].
    destruct (decide (self = length h)); [lia |].
    rewrite lookup_app_r in Hn by lia. rewrite Nat.sub_diag in Hn.
    simpl in Hn. injection Hn as <-. simpl in Hp, Hnq.
    injection Hp as <-.
    destruct (Hk self sn Hsn) as (sn' & Hsn' & _ & Hqu').
    exists sn'. split; [exact Hsn' |]. rewrite Hqu'.
    destruct quasi_ as [[|] |]; [discriminate | congruence | exact Hnq].
Qed.

Section QuasiClosed.

Variable env : os_env.

Lemma locate_quasi_closed :
  ∀ parts h cursor r h',
    quasi_closed h → locate env h cursor parts = Ok (r, h') →
    quasi_closed h'.
Proof.
  induction parts as [| part rest IH]; intros h cursor r h' Hq H;
    simpl in H.
  - injection H as _ <-. exact Hq.
  - bind_inv H as [ch h1] Hc. bind_inv H as cn Hcn.
    assert (H1 : quasi_closed h1).
    { eapply get_child_quasi_closed; [| exact Hq | exact Hc]. discriminate. }
    destruct (visited cn).
    + injection H as _ <-. exact H1.
    + eauto.
Qed.

Lemma foldl_modify_quasi_closed (f : node → node) (l : list ref)
    (h : heap) :
  (∀ n, same_kin n (f n)) → quasi_closed h →
  quasi_closed (foldl (fun h p => modify f p h) h l).
Proof.
  intros Hf. revert h. induction l as [| x l IH]; intros h Hq; simpl.
  - exact Hq.
  - apply IH. apply quasi_closed_modify; auto.
Qed.

Lemma expand_quasi_closed (fuel : nat) :
  ∀ h self h',
    quasi_closed h → expand env fuel h self = Ok h' → quasi_closed h'.
Proof.
  induction fuel as [| f IH]; intros h self h' Hq H; simpl in H;
    [discriminate |].
  bind_inv H as n Hn.
  destruct (expanded n || visited n); [injection H as <-; exact Hq |].
  bind_inv H as h1 Hloop.
  assert (H1 : quasi_closed h1).
  { destruct (path_isdir env (path n)).
    - bind_inv Hloop as names Hnames. revert Hloop.
      apply (for_each_preserves quasi_closed); [| exact Hq].
      intros x h0 h0' H0 Hb. bind_inv Hb as [ch hc] Hc.
      eapply IH; [| exact Hb].
      eapply get_child_quasi_closed; [| exact H0 | exact Hc]. discriminate.
    - injection Hloop as <-. exact Hq. }
  bind_inv H as n2 Hn2.
  assert (H2 : quasi_closed (modify (set_expanded true) self h1)).
  { apply quasi_closed_modify; [kin_field | exact H1]. }
  destruct (path_isdir env (path n) && collapsed n2).
  - bind_inv H as anc Hanc. injection H as <-.
    apply foldl_modify_quasi_closed; [kin_field |].
    apply quasi_closed_modify; [kin_field | exact H2].
  - injection H as <-. exact H2.
Qed.

Lemma load_quasi_closed (fuel : nat) (ov : gmap string string)
    (config : StrTree) (parent_ : ref) (s s' : grouper * heap) :
  quasi_closed s.2 → load env fuel ov parent_ config s = Ok s' →
  quasi_closed s'.2.
Proof.
  apply (load_invariant env quasi_closed).
  - intros r h Hq. apply quasi_closed_modify; [kin_field | auto].
  - intros h cursor parts r h' Hq H. eapply locate_quasi_closed; eauto.
  - intros f h self h' Hq H. eapply expand_quasi_closed; eauto.
  - intros h parents subs h3 Hq H.
    eapply prune_transaction_quasi_closed; eauto.
  - intros h self h' Hq H. eapply observe_quasi_closed; eauto.
  - intros f h self h' Hq H. eapply collapse_quasi_closed; eauto.
  - intros g r h Hq. apply quasi_closed_modify; [kin_field | auto].
  - intros r h Hq. apply quasi_closed_modify; [kin_field | auto].
  - intros r h Hq. apply quasi_closed_modify; [kin_field | auto].
  - intros h r n Hq _ _. apply quasi_closed_modify; [kin_field | auto].
  - intros h self n name_ g ch h' Hq _ _ H.
    eapply get_child_quasi_closed; [| exact Hq | exact H]. discriminate.
Qed.

Lemma visit_quasi_closed (fuel : nat) (self : ref) (group_ : option string)
    (s s' : grouper * heap) :
  quasi_closed s.2 → visit env fuel self group_ s = Ok s' →
  quasi_closed s'.2.
Proof.
  apply (visit_invariant env quasi_closed).
  - intros h x h' Hq H. eapply observe_quasi_closed; eauto.
  - intros f h x h' Hq H. eapply collapse_quasi_closed; eauto.
  - intros g r h Hq. apply quasi_closed_modify; [kin_field | auto].
  - intros r h Hq. apply quasi_closed_modify; [kin_field | auto].
  - intros r h Hq. apply quasi_closed_modify; [kin_field | auto].
  - intros h r n Hq _ _. apply quasi_closed_modify; [kin_field | auto].
  - intros h x n name_ g ch h' Hq _ _ H.
    eapply get_child_quasi_closed; [| exact Hq | exact H]. discriminate.
Qed.

End QuasiClosed.

Lemma FileGrouper_quasi_closed (env : os_env) (fuel : nat) (root : string)
    (config : StrTree) (absolute_ distinct : bool) (arg : option nat)
    (dicts : dict_store) (g : grouper) (h : heap) (dicts' : dict_store) :
  FileGrouper env fuel root config absolute_ distinct arg dicts
    = Ok (g, h, dicts') →
  quasi_closed h.
Proof.
  intros H. unfold FileGrouper in H.
  bind_inv H as [t h0] Hnew.
  assert (H0 : quasi_closed h0).
  { unfold new_node in Hnew. simpl in Hnew. injection Hnew as _ <-.
    intros r n p Hn Hp. destruct r as [| r]; [| discriminate].
    simpl in Hn. injection Hn as <-. discriminate. }
  destruct (dicts !! _) as [ov |]; [| discriminate].
  bind_inv H as s1 Hload. bind_inv H as s2 Hrest.
  injection H as _ <- _.
  assert (H1 : quasi_closed s1.2).
  { eapply load_quasi_closed; [| exact Hload]. exact H0. }
  destruct distinct; simpl in Hrest.
  - injection Hrest as <-. exact H1.
  - bind_inv Hrest as s' Hvisit.
    rewrite (walk_heap _ _ _ _ _ Hrest).
    eapply visit_quasi_closed; eauto.
Qed.

(** X20: in the tree a grouper has built, everything below a quasi node
    is quasi: the subtree that [collapse] drops together with a quasi
    child holds no node that was observed. *)
Theorem FileGrouper_quasi_subtrees (env : os_env) (fuel : nat)
    (root : string) (config : StrTree) (absolute_ distinct : bool)
    (arg : option nat) (dicts : dict_store)
    (g : grouper) (h : heap) (dicts' : dict_store) :
  FileGrouper env fuel root config absolute_ distinct arg dicts
    = Ok (g, h, dicts') →
  ∀ q d, is_quasi h q → descendant_of h q d → is_quasi h d.
Proof.
  intros H q d Hq Hd.
  pose proof (FileGrouper_quasi_closed _ _ _ _ _ _ _ _ _ _ _ H) as Hclosed.
  pose proof (FileGrouper_well_formed _ _ _ _ _ _ _ _ _ _ _ H) as Hwf.
  assert (Hstep : ∀ a b, is_quasi h a → child_of h a b → is_quasi h b).
  { intros a b (an & Han & Haq) (an' & k & Han' & Hin).
    assert (an' = an) by congruence. subst an'.
    destruct (Hwf a an Han) as (_ & _ & _ & _ & Hch).
    destruct (Hch k b Hin) as (bn & Hbn & Hbp & _).
    exists bn. split; [exact Hbn |].
    destruct (quasi bn) eqn:Hbq; [reflexivity |].
    destruct (Hclosed b bn a Hbn Hbp Hbq) as (an2 & Han2 & Hq2).
    congruence. }
  induction Hd as [c Hc | c d' Hd IH Hcd]; eauto.
Qed.

Lemma FileGrouper_quasi_subtrees_witness :
  ∃ g h dicts',
    FileGrouper Examples.env_nested 10 "."
      (Entry "**/none" (GroupName "g") Empty) true true None module_dicts
    = Ok (g, h, dicts') ∧
    ∀ q d, is_quasi h q → descendant_of h q d → is_quasi h d.
Proof.
  assert (Hrun : ∃ g h dicts',
            FileGrouper Examples.env_nested 10 "."
              (Entry "**/none" (GroupName "g") Empty) true true None
              module_dicts = Ok (g, h, dicts')).
  { vm_compute. do 3 eexists. reflexivity. }
  destruct Hrun as (g & h & dicts' & Hrun).
  exists g, h, dicts'. split; [exact Hrun |].
  exact (FileGrouper_quasi_subtrees _ _ _ _ _ _ _ _ _ _ _ Hrun).
Defined.

(** ** [util.py]: the path helpers *)

Lemma lstrip_list_head (chars : string) (l : list Ascii.ascii) :
  match Py.lstrip_list chars l with
  | [] => True
  | c :: _ => Py.mem_char c chars = false
  end.
Proof.
  induction l as [| c l IH]; simpl; [exact I |].
  destruct (Py.mem_char c chars) eqn:Hc; [exact IH | exact Hc].
Qed.

Lemma lstrip_list_fixed (chars : string) (l : list Ascii.ascii) :
  match l with
  | [] => True
  | c :: _ => Py.mem_char c chars = false
  end →
  Py.lstrip_list chars l = l.
Proof.
  destruct l as [| c l]; simpl; [reflexivity |]. intros ->. reflexivity.
Qed.

Lemma lstrip_list_idem (chars : string) (l : list Ascii.ascii) :
  Py.lstrip_list chars (Py.lstrip_list chars l) = Py.lstrip_list chars l.
Proof. apply lstrip_list_fixed, lstrip_list_head. Qed.

Lemma lstrip_list_suffix (chars : string) (l : list Ascii.ascii) :
  ∃ pre, l = (pre ++ Py.lstrip_list chars l)%list.
Proof.
  induction l as [| c l [pre IH]]; simpl; [exists []; reflexivity |].
  destruct (Py.mem_char c chars).
  - exists (c :: pre). simpl. rewrite <- IH. reflexivity.
  - exists []. reflexivity.
Qed.

(** Stripping on the right keeps the first character of a list that
    starts with a character that is not stripped. *)
Lemma rstrip_list_head (chars : string) (c : Ascii.ascii)
    (l : list Ascii.ascii) :
  Py.mem_char c chars = false →
  ∃ t, rev (Py.lstrip_list chars (rev (c :: l))) = c :: t.
Proof.
  intros Hc. simpl rev.
  assert (H : ∀ m, ∃ t, Py.lstrip_list chars (m ++ [c])%list
                        = (t ++ [c])%list).
  { induction m as [| x m [t IH]]; simpl.
    - rewrite Hc. exists []. reflexivity.
    - destruct (Py.mem_char x chars).
      + eauto.
      + exists (x :: m). reflexivity. }
  destruct (H (rev l)) as [t ->].
  rewrite rev_app_distr. simpl. eauto.
Qed.



Lemma strip_list_head (chars : string) (l : list Ascii.ascii) :
  match strip_list chars l with
  | [] => True
  | c :: _ => Py.mem_char c chars = false
  end.
Proof.
  unfold strip_list.
  pose proof (lstrip_list_head chars l) as Hhead.
  destruct (Py.lstrip_list chars l) as [| c t]; [exact I |].
  destruct (rstrip_list_head chars c t Hhead) as [t' ->]. exact Hhead.
Qed.

Lemma strip_list_last (chars : string) (l : list Ascii.ascii) :
  match rev (strip_list chars l) with
  | [] => True
  | c :: _ => Py.mem_char c chars = false
  end.
Proof.
  unfold strip_list. rewrite rev_involutive. apply lstrip_list_head.
Qed.

Lemma strip_list_idem (chars : string) (l : list Ascii.ascii) :
  strip_list chars (strip_list chars l) = strip_list chars l.
Proof.
  unfold strip_list at 1.
  rewrite (lstrip_list_fixed chars (strip_list chars l))
    by apply strip_list_head.
  unfold strip_list. rewrite rev_involutive, lstrip_list_idem. reflexivity.
Qed.

Lemma strip_as_list (chars s : string) :
  Py.strip chars s
  = String.string_of_list_ascii
      (strip_list chars (String.list_ascii_of_string s)).
Proof. reflexivity. Qed.

Lemma strip_idem (chars s : string) :
  Py.strip chars (Py.strip chars s) = Py.strip chars s.
Proof.
  rewrite !strip_as_list. rewrite String.list_ascii_of_string_of_list_ascii.
  rewrite strip_list_idem. reflexivity.
Qed.

Lemma strip_list_sub (chars : string) (l : list Ascii.ascii) (c : Ascii.ascii) :
  In c (strip_list chars l) → In c l.
Proof.
  unfold strip_list. intros H. apply in_rev in H.
  destruct (lstrip_list_suffix chars (rev (Py.lstrip_list chars l)))
    as [pre Hpre].
  assert (H1 : In c (rev (Py.lstrip_list chars l))).
  { rewrite Hpre. apply in_or_app. right. exact H. }
  apply in_rev in H1.
  destruct (lstrip_list_suffix chars l) as [pre' Hpre'].
  rewrite Hpre'. apply in_or_app. right. exact H1.
Qed.

Lemma replace_char_fixed (a b : Ascii.ascii) (s : string) :
  (∀ c, In c (String.list_ascii_of_string s) → c = a → a = b) →
  Py.replace_char a b s = s.
Proof.
  induction s as [| c s IH]; simpl; [reflexivity |]. intros H.
  rewrite IH by (intros c' Hc'; apply H; right; exact Hc').
  destruct (Ascii.eqb_spec c a) as [-> | Hne]; [| reflexivity].
  rewrite <- (H a); auto.
Qed.

Lemma replace_char_chars (a b : Ascii.ascii) (s : string) (c : Ascii.ascii) :
  In c (String.list_ascii_of_string (Py.replace_char a b s)) →
  c = a → a = b.
Proof.
  induction s as [| x s IH]; simpl; [tauto |].
  intros [Hc | Hc] Hca; [| auto].
  destruct (Ascii.eqb_spec x a); congruence.
Qed.



Lemma last_char_rev (s : string) :
  Py.last_char s = head (rev (String.list_ascii_of_string s)).
Proof.
  induction s as [| c s IH]; [reflexivity |].
  destruct s as [| c' s]; [reflexivity |].
  change (Py.last_char (String c (String c' s)))
    with (Py.last_char (String c' s)).
  rewrite IH.
  change (rev (String.list_ascii_of_string (String c (String c' s))))
    with (rev (String.list_ascii_of_string (String c' s)) ++ [c])%list.
  destruct (rev (String.list_ascii_of_string (String c' s))) as [| a l] eqn:E;
    [| reflexivity].
  apply (f_equal (@length _)) in E. rewrite length_rev in E.
  simpl in E. discriminate.
Qed.

(** X21: [strip_path] leaves no separator character at either end of a
    path, and stripping a stripped path changes nothing, on both kinds
    of platform. *)
Theorem strip_path_stripped (env : os_env) (p : string) :
  (∀ c, first_char (strip_path env p) = Some c →
        Py.mem_char c (SEPS env) = false) ∧
  (∀ c, Py.last_char (strip_path env p) = Some c →
        Py.mem_char c (SEPS env) = false) ∧
  strip_path env (strip_path env p) = strip_path env p.
Proof.
  assert (Hends : ∀ s,
            (∀ c, first_char (Py.strip (SEPS env) s) = Some c →
                  Py.mem_char c (SEPS env) = false) ∧
            (∀ c, Py.last_char (Py.strip (SEPS env) s) = Some c →
                  Py.mem_char c (SEPS env) = false)).
  { intros s. rewrite strip_as_list. split; intros c Hc.
    - pose proof (strip_list_head (SEPS env)
                    (String.list_ascii_of_string s)) as H.
      destruct (strip_list (SEPS env) (String.list_ascii_of_string s));
        simpl in Hc; [discriminate |].
      injection Hc as <-. exact H.
    - rewrite last_char_rev in Hc.
      rewrite String.list_ascii_of_string_of_list_ascii in Hc.
      pose proof (strip_list_last (SEPS env)
                    (String.list_ascii_of_string s)) as H.
      destruct (rev (strip_list (SEPS env)
                       (String.list_ascii_of_string s)));
        simpl in Hc; [discriminate |].
      injection Hc as <-. exact H. }
  unfold strip_path. destruct (altsep env) as [alt |].
  - split; [apply Hends |]. split; [apply Hends |].
    rewrite (replace_char_fixed alt (sep env)
               (Py.strip (SEPS env) (Py.replace_char alt (sep env) p))).
    + apply strip_idem.
    + intros c Hc. rewrite strip_as_list in Hc.
      rewrite String.list_ascii_of_string_of_list_ascii in Hc.
      apply strip_list_sub in Hc. revert Hc. apply replace_char_chars.
  - split; [apply Hends |]. split; [apply Hends |]. apply strip_idem.
Qed.

Lemma append_cons (c : Ascii.ascii) (a b : string) :
  String c a +:+ b = String c (a +:+ b).
Proof. reflexivity. Qed.

Lemma append_assoc (a b c : string) : (a +:+ b) +:+ c = a +:+ (b +:+ c).
Proof.
  induction a as [| x a IH]; [reflexivity |].
  rewrite !append_cons, IH. reflexivity.
Qed.

Lemma append_nil_r (a : string) : a +:+ "" = a.
Proof.
  induction a as [| x a IH]; [reflexivity |].
  rewrite append_cons, IH. reflexivity.
Qed.

Lemma prefix_from (sep s : string) :
  String.prefix sep s = true →
  s = sep +:+ PyStr.from (String.length sep) s.
Proof.
  revert s. induction sep as [| x sep IH]; intros s H.
  - destruct s; reflexivity.
  - destruct s as [| y s]; simpl in H; [discriminate |].
    destruct (Ascii.ascii_dec x y) as [-> | Hne]; [| discriminate].
    rewrite append_cons. simpl. rewrite <- (IH s H). reflexivity.
Qed.

Lemma prefix_length (sep s : string) :
  String.prefix sep s = true → (String.length sep ≤ String.length s)%nat.
Proof.
  revert s. induction sep as [| x sep IH]; intros s H; simpl; [lia |].
  destruct s as [| y s]; simpl in H; [discriminate |].
  destruct (Ascii.ascii_dec x y); [| discriminate].
  specialize (IH s H). simpl. lia.
Qed.

Lemma split_go_cons (sep : string) (s : string) (skip : nat) (cur : string) :
  ∃ x l, Py.split_go sep skip cur s = x :: l.
Proof.
  revert skip cur. induction s as [| c s IH]; intros skip cur.
  - simpl. eauto.
  - destruct skip as [| k].
    + change (Py.split_go sep 0 cur (String c s)) with
        (if String.prefix sep (String c s)
         then cur :: Py.split_go sep (String.length sep - 1) "" s
         else Py.split_go sep 0 (cur +:+ String c "") s).
      destruct (String.prefix sep (String c s)); eauto.
    + apply (IH k cur).
Qed.

Lemma split_go_join (sep : string) :
  sep ≠ "" →
  ∀ s skip cur,
    (skip ≤ String.length s)%nat →
    Py.join sep (Py.split_go sep skip cur s) = cur +:+ PyStr.from skip s.
Proof.
  intros Hsep. induction s as [| c s IH]; intros skip cur Hlen.
  - simpl in Hlen. assert (skip = 0) as -> by lia. simpl.
    rewrite append_nil_r. reflexivity.
  - destruct skip as [| k].
    + change (Py.split_go sep 0 cur (String c s)) with
        (if String.prefix sep (String c s)
         then cur :: Py.split_go sep (String.length sep - 1) "" s
         else Py.split_go sep 0 (cur +:+ String c "") s).
      change (PyStr.from 0 (String c s)) with (String c s).
      destruct (String.prefix sep (String c s)) eqn:Hpre.
      * pose proof (prefix_length _ _ Hpre) as Hl. simpl in Hl.
        assert (Hk : (String.length sep - 1 ≤ String.length s)%nat) by lia.
        specialize (IH (String.length sep - 1) "" Hk).
        destruct (split_go_cons sep s (String.length sep - 1) "")
          as (x & l & Hx).
        rewrite Hx in IH |- *.
        change (Py.join sep (cur :: x :: l))
          with (cur +:+ sep +:+ Py.join sep (x :: l)).
        rewrite IH. change ("" +:+ ?t) with t.
        rewrite (prefix_from _ _ Hpre) at 1.
        destruct sep as [| y sep]; [congruence |].
        change (String.length (String y sep)) with (S (String.length sep)).
        replace (S (String.length sep) - 1)%nat with (String.length sep)
          by lia.
        reflexivity.
      * rewrite (IH 0 (cur +:+ String c "") ltac:(lia)).
        replace (PyStr.from 0 s) with s by (destruct s; reflexivity).
        rewrite append_assoc. reflexivity.
    + simpl in Hlen. change (Py.split_go sep (S k) cur (String c s))
        with (Py.split_go sep k cur s).
      change (PyStr.from (S k) (String c s)) with (PyStr.from k s).
      apply IH. lia.
Qed.

(** X22: where the platform has one separator, [split_path] loses
    nothing: the segments joined again with the separator are the
    path. *)
Theorem split_path_join (env : os_env) (p : string) :
  altsep env = None → Py.join (SEP env) (split_path env p) = p.
Proof.
  intros Halt. unfold split_path. rewrite Halt. unfold Py.split.
  rewrite split_go_join; [reflexivity | discriminate | lia].
Qed.

Lemma split_path_join_witness :
  Py.join (SEP Examples.env_flat) (split_path Examples.env_flat "/w//a/")
  = "/w//a/".
Proof. apply split_path_join. reflexivity. Defined.

(** ** [glob_root] and its root *)

Lemma last_char_Some (s : string) :
  s ≠ "" → ∃ c, Py.last_char s = Some c.
Proof.
  induction s as [| x s IH]; [congruence |]. intros _.
  destruct s as [| y s]; [simpl; eauto |].
  destruct IH as [c Hc]; [discriminate |].
  exists c. exact Hc.
Qed.

Lemma append_not_empty_r (a b : string) : b ≠ "" → a +:+ b ≠ "".
Proof.
  intros Hb. destruct a as [| x a]; [exact Hb |].
  rewrite append_cons. discriminate.
Qed.

(** X23: [glob_root] never raises: the root it indexes with [nroot[-1]]
    is never empty, whatever the root, the pattern and the platform. *)
Theorem glob_root_returns (env : os_env) (root rglob : string)
    (dirs_only : bool) :
  ∃ paths, glob_root env root rglob dirs_only = Ok paths.
Proof.
  unfold glob_root. destruct (String.eqb rglob ""); [eauto |].
  destruct (glob_root_start env root (strip_path env rglob))
    as [yielded | [nroot nglob]] eqn:Hstart; [eauto |].
  destruct (String.eqb nglob ""); [eauto |].
  assert (Hne : nroot ≠ "").
  { unfold glob_root_start in Hstart.
    destruct (String.eqb_spec root "") as [-> | Hroot].
    - destruct (String.eqb (strip_path env rglob) ""); [discriminate |].
      destruct (os_name_nt env).
      + destruct (path_splitdrive env _) as [drive subpath].
        destruct (String.eqb _ ""); [discriminate |].
        injection Hstart as <- _. apply append_not_empty_r. discriminate.
      + injection Hstart as <- _. unfold DEFAULT_PATH.
        destruct (altsep env); discriminate.
    - injection Hstart as <- _. exact Hroot. }
  destruct (last_char_Some nroot Hne) as [c ->].
  destruct (os_name_nt env && String.eqb root ""); eauto.
Qed.

(** ** Invariants that tie the consumer to the store *)

Section ConsumerInvariant.

Variable env : os_env.
Context {A : Type}.
Variable I : A → heap → Prop.

Hypothesis I_count : ∀ a r h, I a h → I a (modify (add_weight 1) r h).
Hypothesis I_locate :
  ∀ a h cursor parts r h',
    I a h → locate env h cursor parts = Ok (r, h') → I a h'.
Hypothesis I_expand :
  ∀ a fuel h self h', I a h → expand env fuel h self = Ok h' → I a h'.
Hypothesis I_prune :
  ∀ a h parents sub_nodes h3,
    I a h →
    for_each sub_nodes (fun nd h => prune h nd)
      (foldl (fun h p => modify (add_prune_guard 1) p h) h parents) = Ok h3 →
    I a (foldl (fun h p => modify (add_prune_guard (-1)) p h) h3 parents).

Lemma glob_nodes_consumer (self : ref) (rglob : string) (dirs_only : bool)
    (b : ref → A * heap → outcome (A * heap)) :
  (∀ nd s s', I s.1 s.2 → b nd s = Ok s' → I s'.1 s'.2) →
  ∀ s s', I s.1 s.2 → glob_nodes env self rglob dirs_only b s = Ok s' →
          I s'.1 s'.2.
Proof.
  intros Hb s s' Hs H. unfold glob_nodes in H.
  bind_inv H as n Hn. bind_inv H as paths Hpaths.
  revert H. apply (for_each_preserves (fun s => I s.1 s.2)); [| exact Hs].
  intros p t t' Ht H. bind_inv H as [r h'] Hloc.
  pose proof (I_locate _ _ _ _ _ _ Ht Hloc) as Hh'.
  destruct r as [nd |].
  - eapply Hb; [| exact H]. exact Hh'.
  - injection H as <-. exact Hh'.
Qed.

Lemma glob_alternatives_consumer
    (rec : ∀ A : Type, ref → string → bool →
             (ref → A * heap → outcome (A * heap)) →
             A * heap → outcome (A * heap))
    (fuel : nat) (dirs_only : bool)
    (body : ref → A * heap → outcome (A * heap)) :
  (∀ nd s s', I s.1 s.2 → body nd s = Ok s' → I s'.1 s'.2) →
  (∀ self rglob s s',
     I s.1 s.2 → rec A self rglob dirs_only body s = Ok s' → I s'.1 s'.2) →
  (∀ a self rglob (s s' : list ref * heap),
     I a s.2 →
     rec (list ref) self rglob false
       (fun nd acc => Ok ((acc.1 ++ [nd])%list, acc.2)) s = Ok s' →
     I a s'.2) →
  ∀ alternatives self s s',
    I s.1 s.2 →
    glob_alternatives env rec fuel self dirs_only body alternatives s
      = Ok s' →
    I s'.1 s'.2.
Proof.
  intros body_keeps Hrec Hlist alternatives self.
  induction alternatives as [| alt rest IH]; intros s s' Hs H; simpl in H.
  - injection H as <-. exact Hs.
  - destruct (glob_parts env alt) as [| part parts] eqn:Hparts.
    + eapply body_keeps; eauto.
    + destruct (has_part ".." (part :: parts)).
      * unfold parent_branch in H.
        bind_inv H as [sub_nodes h1] Hsub.
        assert (H1 : I s.1 h1).
        { destruct (index_of ".." (part :: parts) =? 0)%nat.
          - injection Hsub as _ <-. exact Hs.
          - exact (Hlist s.1 _ _ ([], s.2) (sub_nodes, h1) Hs Hsub). }
        bind_inv H as anc Hanc. bind_inv H as h3 Hprune.
        pose proof (I_prune _ _ _ _ _ H1 Hprune) as H4.
        destruct (Py.truthy _).
        -- revert H. apply (for_each_preserves (fun s => I s.1 s.2));
             [| exact H4].
           intros x t t' Ht H. eapply Hrec; eauto.
        -- revert H. apply (for_each_preserves (fun s => I s.1 s.2));
             [| exact H4].
           intros x t t' Ht H. eapply body_keeps; eauto.
      * destruct (has_part "**" (part :: parts)).
        -- unfold recursive_branch in H.
           assert (Heach : ∀ nd t t', I t.1 t.2 →
             (do h' <- expand env fuel t.2 nd;
              if Py.truthy
                   (Py.join (SEP env)
                      (drop (S (index_of "**" (part :: parts)))
                         (part :: parts)))
              then descendants fuel nd false
                     (fun d s =>
                        rec A d
                          (Py.join (SEP env)
                             (drop (S (index_of "**" (part :: parts)))
                                (part :: parts))) dirs_only body s)
                     (t.1, h')
              else descendants fuel nd dirs_only body (t.1, h')) = Ok t' →
             I t'.1 t'.2).
           { intros nd t t' Ht Hrun. bind_inv Hrun as h' Hexp.
             pose proof (I_expand _ _ _ _ _ Ht Hexp) as Hh'.
             destruct (Py.truthy _).
             - revert Hrun.
               apply (descendants_invariant (fun s => I s.1 s.2));
                 [| exact Hh'].
               intros d u u' Hu Hd. eapply Hrec; eauto.
             - revert Hrun.
               apply (descendants_invariant (fun s => I s.1 s.2));
                 [| exact Hh'].
               exact body_keeps. }
           destruct (index_of "**" (part :: parts) =? 0)%nat.
           ++ eapply Heach; eauto.
           ++ revert H. apply glob_nodes_consumer; [| exact Hs].
              exact Heach.
        -- bind_inv H as s1 Hs1. eapply IH; [| exact H].
           revert Hs1. apply glob_nodes_consumer; [| exact Hs].
           exact body_keeps.
Qed.

Lemma glob_children_consumer (fuel : nat) :
  ∀ (self : ref) (rglob : string) (dirs_only : bool)
    (body : ref → A * heap → outcome (A * heap)) s s',
    (∀ nd s s', I s.1 s.2 → body nd s = Ok s' → I s'.1 s'.2) →
    I s.1 s.2 →
    glob_children env fuel A self rglob dirs_only body s = Ok s' →
    I s'.1 s'.2.
Proof.
  induction fuel as [| f IH]; intros self rglob d body s s' Hbody Hs H;
    simpl in H; [discriminate |].
  bind_inv H as n Hn.
  revert H. apply glob_alternatives_consumer.
  - exact Hbody.
  - intros self' rglob' t t' Ht H. eapply IH; eauto.
  - intros a self' rglob' t t' Ht H.
    eapply (glob_children_invariant env (I a)); [| | | | | | exact H];
      [apply I_count | apply I_locate | apply I_expand | apply I_prune
      | | exact Ht].
    intros nd u u' Hu Hb. injection Hb as <-. exact Hu.
  - simpl. apply I_count. exact Hs.
Qed.

End ConsumerInvariant.

(** ** The groups hold paths of the tree *)

Lemma insert_by_elem {A} (key : A → list string) (x y : A) (l : list A) :
  y ∈ Py.insert_by key x l ↔ y = x ∨ y ∈ l.
Proof.
  induction l as [| z l IH]; simpl.
  - rewrite list_elem_of_singleton. rewrite elem_of_nil. tauto.
  - destruct (Py.list_leb (key x) (key z)).
    + rewrite elem_of_cons. tauto.
    + rewrite !elem_of_cons, IH. tauto.
Qed.

Lemma sorted_elem {A} (key : A → list string) (y : A) (l : list A) :
  y ∈ Py.sorted key l ↔ y ∈ l.
Proof.
  unfold Py.sorted. induction l as [| x l IH]; simpl; [tauto |].
  rewrite insert_by_elem, elem_of_cons, IH. tauto.
Qed.

Lemma same_output_refl (n : node) : same_output n n.
Proof. split; reflexivity. Qed.

Lemma same_output_trans (a b c : node) :
  same_output a b → same_output b c → same_output a c.
Proof. intros [? ?] [? ?]. split; congruence. Qed.

Lemma groups_sound_keeps (env : os_env) (gr gr' : grouper) (h h' : heap) :
  keeps same_output h h' →
  tree gr' = tree gr → absolute gr' = absolute gr → groups gr' = groups gr →
  groups_sound env gr h → groups_sound env gr' h'.
Proof.
  intros Hk Ht Ha Hg Hs k paths p Hget Hp. rewrite Hg in Hget.
  destruct (Hs k paths p Hget Hp) as (r & n & Hn & Hgn & Hw).
  destruct (Hk r n Hn) as (n' & Hn' & Hg' & Hp').
  exists r, n'. split; [exact Hn' |]. split; [congruence |].
  unfold weight_key in Hw |- *. rewrite Hn in Hw. rewrite Hn', Ht, Ha.
  destruct (h !! tree gr) as [rt |] eqn:Hrt; [| discriminate].
  destruct (Hk _ rt Hrt) as (rt' & Hrt' & _ & Hprt).
  rewrite Hrt', Hp', Hprt. exact Hw.
Qed.

Lemma add_to_group_sound (env : os_env) (g : string) (nd : ref) (n : node)
    (s s' : grouper * heap) :
  groups_sound env s.1 s.2 → s.2 !! nd = Some n → group n = Some g →
  add_to_group env g (path n) s = Ok s' →
  groups_sound env s'.1 s'.2.
Proof.
  intros Hs Hn Hg H. unfold add_to_group in H.
  bind_inv H as root Hroot. apply get_Ok in Hroot.
  assert (Hold : ∀ k paths p, Dict.get k (groups s.1) = Some paths →
            p ∈ paths →
            ∀ x, ∃ r m, s.2 !! r = Some m ∧ group m = Some k ∧
                   weight_key env (set_groups x s.1) s.2 r = Some p).
  { intros k paths p Hget Hp x. exact (Hs k paths p Hget Hp). }
  assert (Hnew : ∀ x, ∃ r m, s.2 !! r = Some m ∧ group m = Some g ∧
            weight_key env (set_groups x s.1) s.2 r
              = Some (if Py.truthy (path root) && negb (absolute s.1)
                      then path_relpath env (path n) (path root)
                      else path n)).
  { intros x. exists nd, n. split; [exact Hn |]. split; [exact Hg |].
    unfold weight_key. simpl. rewrite Hn, Hroot. reflexivity. }
  destruct (Dict.get g (groups s.1)) as [old |] eqn:Hgo;
    injection H as <-; simpl; intros k paths p Hget Hp; simpl in Hget.
  - destruct (String.eqb_spec k g) as [-> | Hne].
    + rewrite Dict_get_set_eq in Hget. injection Hget as <-.
      apply elem_of_app in Hp. destruct Hp as [Hp | Hp].
      * eapply Hold; eauto.
      * apply list_elem_of_singleton in Hp. subst p. apply Hnew.
    + rewrite Dict_get_set_ne in Hget by exact Hne. eapply Hold; eauto.
  - destruct (String.eqb_spec k g) as [-> | Hne].
    + rewrite Dict_get_set_eq in Hget. injection Hget as <-.
      apply list_elem_of_singleton in Hp. subst p. apply Hnew.
    + rewrite Dict_get_set_ne in Hget by exact Hne. eapply Hold; eauto.
Qed.

(** Giving a group to a node that has none. *)
Lemma set_group_sound (env : os_env) (gr : grouper) (h : heap) (self : ref)
    (n : node) (g : option string) :
  h !! self = Some n → group n = None →
  groups_sound env gr h →
  groups_sound env gr (modify (set_group g) self h).
Proof.
  intros Hn Hnone Hs k paths p Hget Hp.
  destruct (Hs k paths p Hget Hp) as (r & m & Hm & Hgm & Hw).
  assert (Hne : self ≠ r) by (intros ->; congruence).
  exists r, m. split.
  { unfold modify. rewrite list_lookup_alter_ne by exact Hne. exact Hm. }
  split; [exact Hgm |].
  unfold weight_key in Hw |- *. rewrite Hm in Hw. unfold modify.
  rewrite list_lookup_alter_ne by exact Hne. rewrite Hm.
  destruct (h !! tree gr) as [rt |] eqn:Hrt; [| discriminate].
  destruct (decide (self = tree gr)) as [E | Hnt].
  - rewrite E, list_lookup_alter_eq, Hrt. simpl. exact Hw.
  - rewrite list_lookup_alter_ne by exact Hnt. rewrite Hrt. exact Hw.
Qed.

Section GroupsOfTheTree.

Variable env : os_env.

Let krefl := keeps_refl same_output same_output_refl.
Let ktrans := keeps_trans same_output same_output_trans.

Lemma modify_same_output (f : node → node) (r : ref) (h : heap) :
  (∀ n, same_output n (f n)) → keeps same_output h (modify f r h).
Proof. apply keeps_modify. exact same_output_refl. Qed.

Lemma observe_same_output (h : heap) (self : ref) (h' : heap) :
  observe h self = Ok h' → keeps same_output h h'.
Proof.
  apply (observe_keeps same_output same_output_refl same_output_trans).
  intros n. split; reflexivity.
Qed.

Lemma collapse_same_output (fuel : nat) (h : heap) (self : ref) (h' : heap) :
  collapse fuel h self = Ok h' → keeps same_output h h'.
Proof.
  apply (collapse_keeps same_output same_output_refl same_output_trans);
    intros; split; reflexivity.
Qed.

Lemma locate_same_output (parts : list string) (h : heap) (cursor : ref)
    (r : option ref) (h' : heap) :
  locate env h cursor parts = Ok (r, h') → keeps same_output h h'.
Proof.
  apply (locate_keeps env same_output same_output_refl same_output_trans);
    intros; split; reflexivity.
Qed.

Lemma expand_same_output (fuel : nat) (h : heap) (self : ref) (h' : heap) :
  expand env fuel h self = Ok h' → keeps same_output h h'.
Proof.
  apply (expand_keeps env same_output same_output_refl same_output_trans);
    intros; split; reflexivity.
Qed.

Lemma grouping_keeps (c : node_class) (gr : grouper) (h h' : heap) :
  well_formed env c h' → keeps same_output h h' →
  grouping env c gr h → grouping env c gr h'.
Proof.
  intros Hwf Hk (_ & Hs & He). split; [exact Hwf |]. split; [| exact He].
  eapply groups_sound_keeps; eauto.
Qed.

Lemma visit_default_groups (fuel : nat) :
  ∀ self group_ s s',
    well_formed env FileTreeNode s.2 → groups s.1 = [] →
    visit env fuel self group_ s = Ok s' → groups s'.1 = [].
Proof.
  induction fuel as [| f IH]; intros self group_ s s' Hwf Hs H; simpl in H;
    [discriminate |].
  bind_inv H as n Hn. apply get_Ok in Hn.
  destruct (Hwf self n Hn) as (Hcls & _). rewrite Hcls in H.
  destruct (visited n); [injection H as <-; exact Hs |].
  bind_inv H as h1 Hobs. bind_inv H as h2 Hcol. bind_inv H as n2 Hn2.
  assert (H2 : well_formed env FileTreeNode h2).
  { eapply collapse_well_formed; [| exact Hcol].
    eapply observe_well_formed; eauto. }
  destruct (length (children n2) <=? 0)%nat;
    [injection H as <-; exact Hs |].
  bind_inv H as items Hitems. bind_inv H as s3 Hloop.
  bind_inv H as n3 Hn3. injection H as <-. simpl.
  assert (H3 : well_formed env FileTreeNode s3.2 ∧ groups s3.1 = []);
    [| exact (proj2 H3)].
  destruct items as [| item items].
  - revert Hloop.
    apply (for_children_preserves
             (fun t => well_formed env FileTreeNode t.2 ∧ groups t.1 = []));
      [| split; [exact H2 | exact Hs]].
    intros c t t' [Ht Hg] Hv. split.
    + eapply visit_well_formed; eauto.
    + eapply IH; eauto.
  - revert Hloop.
    apply (for_each_preserves
             (fun t => well_formed env FileTreeNode t.2 ∧ groups t.1 = []));
      [| split; [exact H2 | exact Hs]].
    intros x t t' [Ht Hg] Hv. bind_inv Hv as [c h'] Hc.
    assert (Hh' : well_formed env FileTreeNode h').
    { eapply get_child_well_formed; [exact Ht | | exact Hc].
      intros Hd. discriminate Hd. }
    split.
    + eapply visit_well_formed; [| exact Hv]. exact Hh'.
    + eapply IH; [| | exact Hv]; [exact Hh' | exact Hg].
Qed.

Lemma visit_distinct_sound (fuel : nat) (self : ref) (group_ : option string)
    (s s' : grouper * heap) :
  well_formed env DistinctFileTreeNode s.2 → groups_sound env s.1 s.2 →
  visit env fuel self group_ s = Ok s' → groups_sound env s'.1 s'.2.
Proof.
  intros Hwf Hs H. destruct fuel as [| f]; simpl in H; [discriminate |].
  bind_inv H as n Hn. apply get_Ok in Hn.
  destruct (Hwf self n Hn) as (Hcls & _). rewrite Hcls in H.
  bind_inv H as h1 Hobs. bind_inv H as h2 Hcol. bind_inv H as n2 Hn2.
  apply get_Ok in Hn2.
  assert (H2 : groups_sound env s.1 h2).
  { eapply groups_sound_keeps; [| reflexivity | reflexivity | reflexivity
                                | exact Hs].
    eapply ktrans; [eapply observe_same_output; eauto |].
    eapply collapse_same_output; eauto. }
  destruct (group n2) eqn:Hg2; [injection H as <-; exact H2 |].
  revert H.
  set (g := or_else group_ DEFAULT_GROUP).
  change (path n2) with (path (set_group (Some g) n2)).
  apply (add_to_group_sound env g self).
  - simpl. eapply set_group_sound; eauto.
  - simpl. unfold modify. rewrite list_lookup_alter_eq, Hn2. reflexivity.
  - reflexivity.
Qed.

Lemma visit_grouping (c : node_class) (fuel : nat) (self : ref)
    (group_ : option string) (s s' : grouper * heap) :
  grouping env c s.1 s.2 → visit env fuel self group_ s = Ok s' →
  grouping env c s'.1 s'.2.
Proof.
  intros (Hwf & Hs & He) H.
  split; [eapply visit_well_formed; eauto |].
  destruct c.
  - assert (Hg : groups s'.1 = []).
    { eapply visit_default_groups; eauto. }
    split; [| auto].
    intros k paths p Hget. rewrite Hg in Hget. discriminate Hget.
  - split; [| intros Hd; discriminate Hd].
    eapply visit_distinct_sound; eauto.
Qed.

Lemma load_grouping (c : node_class) (fuel : nat) (ov : gmap string string) :
  ∀ config parent_ s s',
    grouping env c s.1 s.2 → load env fuel ov parent_ config s = Ok s' →
    grouping env c s'.1 s'.2.
Proof.
  assert (Hglob : ∀ self rglob d
            (body : ref → grouper * heap → outcome (grouper * heap)) s s',
            (∀ nd s s', grouping env c s.1 s.2 → body nd s = Ok s' →
                        grouping env c s'.1 s'.2) →
            grouping env c s.1 s.2 →
            glob_children env fuel grouper self rglob d body s = Ok s' →
            grouping env c s'.1 s'.2).
  { intros self rglob d body s s'.
    apply (glob_children_consumer env (grouping env c)).
    - intros a r h Ha. eapply grouping_keeps; [| | exact Ha].
      + apply well_formed_modify; [calm_field | reflexivity | apply Ha].
      + apply modify_same_output. intros n. split; reflexivity.
    - intros a h cursor parts r h' Ha Hl.
      eapply grouping_keeps; [| | exact Ha].
      + eapply locate_well_formed; [apply Ha | exact Hl].
      + eapply locate_same_output; eauto.
    - intros a f h x h' Ha Hx.
      eapply grouping_keeps; [| | exact Ha].
      + eapply expand_well_formed; [apply Ha | exact Hx].
      + eapply expand_same_output; eauto.
    - intros a h parents subs h3 Ha Hp.
      eapply grouping_keeps; [| | exact Ha].
      + eapply prune_transaction_well_formed; [apply Ha | exact Hp].
      + revert Hp.
        apply (prune_transaction_keeps same_output same_output_refl
                 same_output_trans); intros; split; reflexivity. }
  intros config.
  induction config as [| key data IHdata rest IHrest | g | sub IHsub]
    using StrTree_mutual with
    (P0 := fun data => ∀ parent_ key s s',
             grouping env c s.1 s.2 →
             load_entry env fuel ov parent_ key data s = Ok s' →
             grouping env c s'.1 s'.2);
    intros parent_.
  - intros s s' Hs H. simpl in H. injection H as <-. exact Hs.
  - intros s s' Hs H. simpl in H. bind_inv H as s1 Hs1.
    eapply IHrest; [| exact H]. eapply IHdata; [exact Hs | exact Hs1].
  - intros key s s' Hs H. simpl in H.
    revert H. apply Hglob; [| exact Hs].
    intros nd t t' Ht Hv. eapply visit_grouping; [exact Ht | exact Hv].
  - intros key s s' Hs H. simpl in H.
    revert H. apply Hglob; [| exact Hs].
    intros nd t t' Ht Hv. bind_inv Hv as t1 Ht1.
    eapply visit_grouping; [| exact Hv].
    eapply IHsub; [exact Ht | exact Ht1].
Qed.


End GroupsOfTheTree.



(** ** The weights [walk] records *)


Lemma walk_listed_weighed (env : os_env) (fuel : nat) :
  ∀ nd s s',
    listed_weighed s.1 → walk env fuel nd s = Ok s' → listed_weighed s'.1.
Proof.
  induction fuel as [| f IH]; intros nd s s' Hs H; simpl in H;
    [discriminate |].
  bind_inv H as n Hn. bind_inv H as root Hroot.
  set (path_ := if Py.truthy (path root) && negb (absolute s.1)
                then path_relpath env (path n) (path root) else path n) in *.
  assert (H1 : listed_weighed
                 (set_weights (Dict.set path_ (weight n) (weights s.1)) s.1)).
  { intros k paths p Hget Hp. simpl in Hget |- *.
    apply Dict_has_set. exact (Hs k paths p Hget Hp). }
  destruct (group n) as [g |].
  - unfold add_to_group in H. simpl in H. rewrite Hroot in H. simpl in H.
    fold path_ in H.
    assert (Hnew : Dict.has path_
                     (Dict.set path_ (weight n) (weights s.1)) = true).
    { unfold Dict.has. rewrite Dict_get_set_eq. reflexivity. }
    destruct (Dict.get g (groups s.1)) as [old |] eqn:Hgo;
      injection H as <-; intros k paths p Hget Hp; simpl in Hget |- *.
    + destruct (String.eqb_spec k g) as [-> | Hne].
      * rewrite Dict_get_set_eq in Hget. injection Hget as <-.
        apply elem_of_app in Hp. destruct Hp as [Hp | Hp].
        -- exact (H1 g old p Hgo Hp).
        -- apply list_elem_of_singleton in Hp. subst p. exact Hnew.
      * rewrite Dict_get_set_ne in Hget by exact Hne.
        exact (H1 k paths p Hget Hp).
    + destruct (String.eqb_spec k g) as [-> | Hne].
      * rewrite Dict_get_set_eq in Hget. injection Hget as <-.
        apply list_elem_of_singleton in Hp. subst p. exact Hnew.
      * rewrite Dict_get_set_ne in Hget by exact Hne.
        exact (H1 k paths p Hget Hp).
  - revert H.
    apply (for_children_preserves (fun t => listed_weighed t.1));
      [| exact H1].
    intros c t t' Ht Hw. eapply IH; eauto.
Qed.

(** X25: in the default mode every path listed in a group has a weight
    in [weights]: [walk] records the weight of a node under the very path
    it then hands to [add_to_group]. *)
Theorem FileGrouper_listed_weighed (env : os_env) (fuel : nat)
    (root : string) (config : StrTree) (absolute_ : bool)
    (arg : option nat) (dicts : dict_store) (g : grouper) (h : heap)
    (dicts' : dict_store) :
  FileGrouper env fuel root config absolute_ false arg dicts
    = Ok (g, h, dicts') →
  ∀ k paths p, Dict.get k (groups g) = Some paths → p ∈ paths →
    Dict.has p (weights g) = true.
Proof.
  intros H. unfold FileGrouper in H.
  bind_inv H as [t h0] Hnew.
  destruct (root_well_formed _ _ _ _ _ Hnew) as [-> H0].
  destruct (dicts !! _) as [ov |]; [| discriminate].
  bind_inv H as s1 Hload. bind_inv H as s2 Hrest.
  injection H as <- _ _. simpl in Hrest.
  bind_inv Hrest as s' Hvisit.
  assert (H1 : grouping env FileTreeNode s'.1 s'.2).
  { eapply visit_grouping; [| exact Hvisit].
    eapply load_grouping; [| exact Hload]. simpl.
    split; [exact H0 |]. split; [| reflexivity].
    intros k paths p Hget. discriminate Hget. }
  assert (H2 : listed_weighed s2.1).
  { eapply walk_listed_weighed; [| exact Hrest].
    intros k paths p Hget. destruct H1 as (_ & _ & He).
    rewrite (He eq_refl) in Hget. discriminate Hget. }
  intros k paths p Hget Hp. simpl in Hget |- *.
  rewrite (Dict_get_map_values (Py.sorted (split_path env))) in Hget.
  destruct (Dict.get k (groups s2.1)) as [v |] eqn:Hk; [| discriminate].
  injection Hget as <-. apply sorted_elem in Hp.
  exact (H2 k v p Hk Hp).
Qed.

Lemma FileGrouper_listed_weighed_witness :
  ∃ g h dicts',
    FileGrouper Examples.env_flat 10 "."
      (Entry "a" (GroupName "one") Empty) false false None module_dicts
    = Ok (g, h, dicts') ∧
    Dict.get "one" (groups g) = Some ["a"] ∧ "a" ∈ ["a"] ∧
    Dict.has "a" (weights g) = true.
Proof.
  assert (Hrun : ∃ g h dicts',
            FileGrouper Examples.env_flat 10 "."
              (Entry "a" (GroupName "one") Empty) false false None
              module_dicts
            = Ok (g, h, dicts') ∧
            Dict.get "one" (groups g) = Some ["a"])
    by (vm_compute; do 3 eexists; split; reflexivity).
  destruct Hrun as (g & h & dicts' & Hrun & Hget).
  assert (Hin : "a" ∈ ["a"]) by (apply list_elem_of_singleton; reflexivity).
  exists g, h, dicts'. split; [exact Hrun |]. split; [exact Hget |].
  split; [exact Hin |].
  exact (FileGrouper_listed_weighed _ _ _ _ _ _ _ _ _ _ Hrun
           "one" ["a"] "a" Hget Hin).
Defined.


